(** * azure-service-bus-node: message-flow and link-lifecycle engine

    A shallow embedding of the TypeScript sources (creditManager.ts,
    internalBrokeredMessage.ts, amqpRequestClient.ts, clientManager.ts,
    sender.ts, receiver.ts, utility.ts, errors.ts, constants.ts) and the
    properties of the specification that are settled against them.

    Conventions of the embedding:
    - JavaScript objects that are shared by reference (links, credit
      managers, client states) live in stores indexed by a reference;
    - a method that mutates [this] is a function from the store to the new
      store together with a [result] (normal completion or a thrown error);
    - timers created with setTimeout are entries of an explicit queue and run
      when the environment fires them;
    - calls into the AMQP transport are recorded on the link they are made
      on, the way the jasmine spies of the test-suite record them. *)

From Stdlib Require Import ZArith List String Ascii Bool Lia.
From stdpp Require Import base option gmap strings list pretty.

Local Open Scope Z_scope.

(* ===================================================================== *)
(** * Part I: the model *)
(* ===================================================================== *)

(** ** JavaScript values that travel through message fields *)

Inductive JsValue : Type :=
| JUndefined
| JNull
| JBool (b : bool)
| JNum (n : Z)
| JStr (s : string)
| JDate (ms : Z)
| JObject (ref : positive).

(** ToBoolean: undefined, null, false, 0 and the empty string are falsy. *)
Definition truthy (v : JsValue) : bool :=
  match v with
  | JUndefined | JNull => false
  | JBool b => b
  | JNum n => negb (n =? 0)
  | JStr s => negb (String.eqb s "")
  | JDate _ | JObject _ => true
  end.

(** [a || b] *)
Definition js_or (a b : JsValue) : JsValue := if truthy a then a else b.

(** ** errors.ts *)

Module ErrorNames.
Module Link.
Definition Detach : string := "ServiceBus:Link:DetachError".
Definition NotFound : string := "ServiceBus:Link:NotFoundError".
Definition CreditManagerMissing : string := "ServiceBus:Link:CreditManagerMissingError".
End Link.
Module Message.
Definition LockRenewalTimeout : string := "ServiceBus:Message:LockRenewalTimeoutError".
Definition LockRenewalFailure : string := "ServiceBus:Message:LockRenewalError".
Definition SettleFailure : string := "ServiceBus:Message:SettleError".
End Message.
Module Internal.
Definition Unknown : string := "ServiceBus:Internal:UnknownError".
Definition RequestTimeout : string := "ServiceBus:Internal:RequestTimeout".
Definition RequestFailure : string := "ServiceBus:Internal:RequestFailure".
Definition RequestTerminated : string := "ServiceBus:Internal:RequestTerminated".
Definition OrphanedResponse : string := "ServiceBus:Internal:OrphanedResponse".
End Internal.
Module Send.
Definition Timeout : string := "ServiceBus:Send:Timeout".
Definition Rejected : string := "ServiceBus:Send:Rejected".
Definition Disposed : string := "ServiceBus:Send:Disposed".
End Send.
Module Amqp.
Definition InternalError : string := "ServiceBus:Amqp:InternalError".
Definition NotFound : string := "ServiceBus:Amqp:NotFound".
Definition UnauthorizedAccess : string := "ServiceBus:Amqp:UnauthorizedAccess".
Definition DecodeError : string := "ServiceBus:Amqp:DecodeError".
Definition ResourceLimitExceeded : string := "ServiceBus:Amqp:ResourceLimitExceeded".
Definition NotAllowed : string := "ServiceBus:Amqp:NotAllowed".
Definition InvalidField : string := "ServiceBus:Amqp:InvalidField".
Definition NotImplemented : string := "ServiceBus:Amqp:NotImplemented".
Definition ResourceLocked : string := "ServiceBus:Amqp:ResourceLocked".
Definition PreconditionFailed : string := "ServiceBus:Amqp:PreconditionFailed".
Definition ResourceDeleted : string := "ServiceBus:Amqp:ResourceDeleted".
Definition IllegalState : string := "ServiceBus:Amqp:IllegalState".
Definition FrameSizeTooSmall : string := "ServiceBus:Amqp:FrameSizeTooSmall".
Definition Unknown : string := "ServiceBus:Amqp:Unknown".
End Amqp.
End ErrorNames.

(** [class ServiceBusError extends Error { context?: any }] *)
Record ServiceBusError : Type := buildError {
  name : string;
  message : string;
  context : list (string * JsValue)
}.

(** Normal completion, or the error a [throw] carries. *)
Inductive result (A : Type) : Type :=
| Ok (a : A)
| Throw (e : ServiceBusError).
Arguments Ok {A} a.
Arguments Throw {A} e.

Definition throwError {A} (n m : string) (ctx : list (string * JsValue)) : result A :=
  Throw (buildError n m ctx).

(** ** The receiver link of the transport

    Only what the engine reads and calls: [name], [state()], [linkCredit],
    [addCredits] and the three dispositions.  [addCredits n] raises the
    link credit by [n]; every call is logged in [addCredits_calls]. *)

Inductive Disposition : Type := accept | modify | reject.

Record ReceiverLink : Type := {
  link_name : string;
  state : string;
  linkCredit : Z;
  addCredits_calls : list Z;
  disposition_calls : list (Disposition * string)
}.

Definition addCredits (n : Z) (l : ReceiverLink) : ReceiverLink :=
  {| link_name := link_name l;
     state := state l;
     linkCredit := linkCredit l + n;
     addCredits_calls := addCredits_calls l ++ [n];
     disposition_calls := disposition_calls l |}.

Definition dispose_message (d : Disposition) (messageId : string) (l : ReceiverLink) : ReceiverLink :=
  {| link_name := link_name l;
     state := state l;
     linkCredit := linkCredit l;
     addCredits_calls := addCredits_calls l;
     disposition_calls := disposition_calls l ++ [(d, messageId)] |}.

Definition is_attached (l : ReceiverLink) : bool := String.eqb (state l) "attached".

(** The store of link objects; a [LinkRef] is a reference into it. *)
Abbreviation LinkRef := nat.
Abbreviation LinkStore := (gmap nat ReceiverLink).

(** ** creditManager.ts *)

Module CreditManager.

Record t : Type := {
  _additionalCredits : Z;
  _pendingSettles : gset string;
  _link : option LinkRef;
  _initialCredit : Z;
  _threshold : Z
}.

(** [CreditManager.create(mode, initialCredit, threshold, basePolicy, logFn)] *)
Definition create (initialCredit threshold : Z) : t :=
  {| _additionalCredits := 0;
     _pendingSettles := ∅;
     _link := None;
     _initialCredit := initialCredit;
     _threshold := threshold |}.

Definition pendingSettleCount (cm : t) : nat := size (_pendingSettles cm).

Definition setReceiver (link : LinkRef) (cm : t) : t :=
  {| _additionalCredits := _additionalCredits cm;
     _pendingSettles := _pendingSettles cm;
     _link := Some link;
     _initialCredit := _initialCredit cm;
     _threshold := _threshold cm |}.

Definition set_additionalCredits (n : Z) (cm : t) : t :=
  {| _additionalCredits := n;
     _pendingSettles := _pendingSettles cm;
     _link := _link cm;
     _initialCredit := _initialCredit cm;
     _threshold := _threshold cm |}.

Definition set_pendingSettles (s : gset string) (cm : t) : t :=
  {| _additionalCredits := _additionalCredits cm;
     _pendingSettles := s;
     _link := _link cm;
     _initialCredit := _initialCredit cm;
     _threshold := _threshold cm |}.

(** The link a bound credit manager points at. *)
Definition bound_link (cm : t) (links : LinkStore) : option ReceiverLink :=
  r ← _link cm; links !! r.

Definition refreshCredits (cm : t) (links : LinkStore) : t * LinkStore * result unit :=
  match _link cm with
  | None =>
      (cm, links,
       throwError ErrorNames.Link.NotFound
         "Internal Error. No link assigned for credit manager" [])
  | Some r =>
      match links !! r with
      | None => (cm, links, Ok tt) (* unreachable: a reference denotes an object *)
      | Some l =>
          if negb (is_attached l) then (cm, links, Ok tt)
          else if (0 <? _additionalCredits cm) && (linkCredit l <? _threshold cm)
          then (set_additionalCredits 0 cm,
                <[r := addCredits (_additionalCredits cm) l]> links,
                Ok tt)
          else (cm, links, Ok tt)
      end
  end.

Definition scheduleMessageSettle (lockToken : string) (cm : t) (links : LinkStore)
  : t * LinkStore * result unit :=
  if decide (lockToken ∈ _pendingSettles cm) then (cm, links, Ok tt)
  else
    let cm1 := set_additionalCredits (_additionalCredits cm + 1) cm in
    let cm2 := set_pendingSettles ({[lockToken]} ∪ _pendingSettles cm1) cm1 in
    refreshCredits cm2 links.

Definition settleMessage (lockToken : string) (cm : t) (links : LinkStore)
  : t * LinkStore * result unit :=
  if decide (lockToken ∈ _pendingSettles cm)
  then (set_pendingSettles (_pendingSettles cm ∖ {[lockToken]}) cm, links, Ok tt)
  else refreshCredits (set_additionalCredits (_additionalCredits cm + 1) cm) links.

(** Credits this manager has counted so far: those still waiting in the
    counter plus those already handed to its link through [addCredits]. *)
Definition sum_credits (calls : list Z) : Z := fold_right Z.add 0 calls.

Definition credits_counted (cm : t) (links : LinkStore) : Z :=
  _additionalCredits cm +
  match bound_link cm links with
  | Some l => sum_credits (addCredits_calls l)
  | None => 0
  end.

(** [n] calls of [scheduleMessageSettle(t)] in a row; the state changes of a
    call that throws are kept, as they are in the source. *)
Fixpoint scheduleMessageSettle_times (n : nat) (lockToken : string) (cm : t) (links : LinkStore)
  : t * LinkStore :=
  match n with
  | O => (cm, links)
  | S k =>
      let '(cm', links', _) := scheduleMessageSettle lockToken cm links in
      scheduleMessageSettle_times k lockToken cm' links'
  end.

End CreditManager.

(** ** node-uuid: [uuid.parse] and [uuid.unparse]

    Library code the engine calls on lock tokens.  [unparse] prints sixteen
    bytes as lower-case hexadecimal in the groups 8-4-4-4-12; [parse] reads
    the pairs of hexadecimal digits of a string, at most sixteen, and pads
    with zero bytes. *)

Module uuid.

(** The digit of a value below sixteen: ['0'..'9'] are the codes 48..57,
    ['a'..'f'] the codes 97..102. *)
Definition hex_digit (n : N) : ascii :=
  ascii_of_N (if n <? 10 then n + 48 else n + 87)%N.

(** The value of a hexadecimal digit of either case ([parse] lower-cases
    its argument first). *)
Definition hex_value (c : ascii) : option N :=
  let code := N_of_ascii c in
  if (48 <=? code)%N && (code <=? 57)%N then Some (code - 48)%N
  else if (97 <=? code)%N && (code <=? 102)%N then Some (code - 87)%N
  else if (65 <=? code)%N && (code <=? 70)%N then Some (code - 55)%N
  else None.

(** [_byteToHex] *)
Definition byteToHex (b : Byte.byte) : list ascii :=
  let n := Byte.to_N b in
  [hex_digit (n / 16); hex_digit (n mod 16)]%N.

(** [_hexToByte] on a pair of hexadecimal digits *)
Definition hexToByte (hi lo : N) : Byte.byte :=
  default Byte.x00 (Byte.of_N (16 * hi + lo)%N).

Definition zero_fill (bytes : list Byte.byte) : list Byte.byte :=
  take 16 bytes ++ replicate (16 - length bytes) Byte.x00.

(** The matches of [/[0-9a-f]{2}/g] on the lower-cased string, left to
    right and without overlap. *)
Fixpoint hex_pairs (s : list ascii) : list Byte.byte :=
  match s with
  | c1 :: tl =>
      match tl with
      | c2 :: rest =>
          match hex_value c1, hex_value c2 with
          | Some hi, Some lo => hexToByte hi lo :: hex_pairs rest
          | _, _ => hex_pairs tl
          end
      | [] => []
      end
  | [] => []
  end.

Definition parse (s : string) : list Byte.byte :=
  zero_fill (hex_pairs (list_ascii_of_string s)).

Definition hex_of (bytes : list Byte.byte) : list ascii :=
  concat (map byteToHex bytes).

(** [unparse(buf)] for a buffer of at least sixteen bytes *)
Definition unparse (buf : list Byte.byte) : string :=
  let dash := ["-"%char] in
  string_of_list_ascii
    (hex_of (take 4 buf) ++ dash ++
     hex_of (take 2 (drop 4 buf)) ++ dash ++
     hex_of (take 2 (drop 6 buf)) ++ dash ++
     hex_of (take 2 (drop 8 buf)) ++ dash ++
     hex_of (take 6 (drop 10 buf))).

End uuid.

(** ** brokeredMessage.ts

    A message object is the finite map of its own properties; a property
    that was never assigned reads as [undefined]. *)

Abbreviation JsObject := (gmap string JsValue).

Definition get (o : JsObject) (k : string) : JsValue := default JUndefined (o !! k).

Definition typeof (v : JsValue) : string :=
  match v with
  | JUndefined => "undefined"
  | JBool _ => "boolean"
  | JNum _ => "number"
  | JStr _ => "string"
  | JNull | JDate _ | JObject _ => "object"
  end.

(** [value != null] *)
Definition not_nullish (v : JsValue) : bool :=
  match v with
  | JUndefined | JNull => false
  | _ => true
  end.

Definition TypeError (m : string) : ServiceBusError := buildError "TypeError" m [].

(** utility.ts: [verifyType(value, type)] *)
Definition verifyType (value : JsValue) (type : string) : result unit :=
  if not_nullish value && negb (String.eqb (typeof value) type)
  then Throw (TypeError ("Invalid type provided. Value must be a " ++ type))
  else Ok tt.

Definition instanceof_Date (v : JsValue) : bool :=
  match v with JDate _ => true | _ => false end.

(** utility.ts: [verifyClass(value, Date, 'Date')] *)
Definition verifyClass_Date (value : JsValue) : result unit :=
  if not_nullish value && negb (instanceof_Date value)
  then Throw (TypeError "Invalid type provided. Value must be an instance of Date")
  else Ok tt.

(** utility.ts: [setIfDefined(obj, key, value)] *)
Definition setIfDefined (obj : JsObject) (key : string) (value : JsValue) : JsObject :=
  match value with
  | JUndefined => obj
  | _ => <[key := value]> obj
  end.

Module BrokeredMessage.

Definition SETTLE_ERROR : string := "settleError".

(** [new BrokeredMessage(body)]: the field initialisers give [properties]
    a fresh empty object and [_messageId] a fresh v4 uuid. *)
Definition new (body : JsValue) (fresh_properties : positive) (fresh_uuid : string) : JsObject :=
  <["_body" := body]>
    (<["_messageId" := JStr fresh_uuid]>
       (<["properties" := JObject fresh_properties]> ∅)).

(** The fields of the outbound table and their accessors. *)
Inductive Field : Type :=
| body | messageId | to | label | replyTo | correlationId | contentType
| sessionId | replyToSessionId | properties | partitionKey
| enqueuedTimeUtc | enqueuedSequenceNumber | scheduledEnqueueTimeUtc.

Definition all_fields : list Field :=
  [body; messageId; to; label; replyTo; correlationId; contentType;
   sessionId; replyToSessionId; properties; partitionKey;
   enqueuedTimeUtc; enqueuedSequenceNumber; scheduledEnqueueTimeUtc].

(** The own property behind each accessor. *)
Definition slot (f : Field) : string :=
  match f with
  | body => "_body"
  | messageId => "_messageId"
  | to => "_to"
  | label => "_label"
  | replyTo => "_replyTo"
  | correlationId => "_correlationId"
  | contentType => "_contentType"
  | sessionId => "_sessionId"
  | replyToSessionId => "_replyToSessionId"
  | properties => "properties"
  | partitionKey => "_partitionKey"
  | enqueuedTimeUtc => "_enqueuedTimeUtc"
  | enqueuedSequenceNumber => "_enqueuedSequenceNumber"
  | scheduledEnqueueTimeUtc => "_scheduledEnqueueTimeUtc"
  end.

(** The getters: [get contentType() { return this._contentType; }] ... *)
Definition read (f : Field) (m : JsObject) : JsValue := get m (slot f).

(** The check each setter runs before it assigns; [properties] is a plain
    public field. *)
Definition verify (f : Field) (value : JsValue) : result unit :=
  match f with
  | messageId | to | label | replyTo | correlationId | contentType
  | sessionId | replyToSessionId | partitionKey => verifyType value "string"
  | enqueuedSequenceNumber => verifyType value "number"
  | enqueuedTimeUtc | scheduledEnqueueTimeUtc => verifyClass_Date value
  | properties | body => Ok tt
  end.

(** [message.f = value]; [body] has no setter and is fixed by the
    constructor, which stores its argument unchecked. *)
Definition write (f : Field) (value : JsValue) (m : JsObject) : result JsObject :=
  match verify f value with
  | Ok _ => Ok (<[slot f := value]> m)
  | Throw e => Throw e
  end.

(** [timeToLive], the one accessor with a setter that the outbound table
    does not list: [get timeToLive() { return this._timeToLive; }] and
    [set timeToLive(value) { utility.verifyType(value, 'number');
    this._timeToLive = value; }]. *)
Definition timeToLive (m : JsObject) : JsValue := get m "_timeToLive".

Definition set_timeToLive (value : JsValue) (m : JsObject) : result JsObject :=
  match verifyType value "number" with
  | Ok _ => Ok (<["_timeToLive" := value]> m)
  | Throw e => Throw e
  end.

End BrokeredMessage.

(** ** internalTypes.ts: the AMQP message

    [header], [messageAnnotations], [properties] and [applicationProperties]
    are keys that a message may lack; [None] is a missing key. *)

Record AmqpMessage : Type := {
  amqp_body : option JsValue;
  amqp_header : option JsObject;
  amqp_messageAnnotations : option JsObject;
  amqp_properties : option JsObject;
  amqp_applicationProperties : option JsValue
}.

(** ** sender.ts: [Sender._brokeredMessageToAmqpMessage] *)

Definition _brokeredMessageToAmqpMessage (message : JsObject) : AmqpMessage :=
  let read f := BrokeredMessage.read f message in
  let annotations0 : JsObject := ∅ in
  let annotations1 := setIfDefined annotations0 "x-opt-partition-key" (read BrokeredMessage.partitionKey) in
  let annotations2 := setIfDefined annotations1 "x-opt-enqueued-time" (read BrokeredMessage.enqueuedTimeUtc) in
  let annotations3 := setIfDefined annotations2 "x-opt-sequence-number" (read BrokeredMessage.enqueuedSequenceNumber) in
  let annotations4 := setIfDefined annotations3 "x-opt-scheduled-enqueue-time" (read BrokeredMessage.scheduledEnqueueTimeUtc) in
  let properties0 : JsObject := {[ "messageId" := read BrokeredMessage.messageId ]} in
  let properties1 := setIfDefined properties0 "to" (read BrokeredMessage.to) in
  let properties2 := setIfDefined properties1 "subject" (read BrokeredMessage.label) in
  let properties3 := setIfDefined properties2 "replyTo" (read BrokeredMessage.replyTo) in
  let properties4 := setIfDefined properties3 "correlationId" (read BrokeredMessage.correlationId) in
  let properties5 := setIfDefined properties4 "contentType" (read BrokeredMessage.contentType) in
  let properties6 := setIfDefined properties5 "groupId" (read BrokeredMessage.sessionId) in
  let properties7 := setIfDefined properties6 "replyToGroupId" (read BrokeredMessage.replyToSessionId) in
  {| amqp_body := Some (read BrokeredMessage.body);
     amqp_header := None;
     amqp_messageAnnotations := Some annotations4;
     amqp_properties := Some properties7;
     amqp_applicationProperties := Some (read BrokeredMessage.properties) |}.

(** ** types.ts: [enum ProcessingState] *)

Module ProcessingState.
Inductive t : Type := None | Active | Settling | Settled | SettleFailed.

(** [ProcessingState[state]], the name of an enum member *)
Definition name_of (s : t) : string :=
  match s with
  | None => "None"
  | Active => "Active"
  | Settling => "Settling"
  | Settled => "Settled"
  | SettleFailed => "SettleFailed"
  end.

Definition eqb (a b : t) : bool :=
  match a, b with
  | None, None | Active, Active | Settling, Settling
  | Settled, Settled | SettleFailed, SettleFailed => true
  | _, _ => false
  end.
End ProcessingState.

(** What a template literal prints for a value. *)
Definition js_to_string (v : JsValue) : string :=
  match v with
  | JUndefined => "undefined"
  | JNull => "null"
  | JBool true => "true"
  | JBool false => "false"
  | JNum n => pretty n
  | JStr s => s
  | JDate ms => "Date(" ++ pretty ms ++ ")"
  | JObject _ => "[object Object]"
  end.

(** [`${e}`] for an error, [Error.prototype.toString]: its name, a colon
    and its message, or the one of the two that is not empty. *)
Definition error_to_string (e : ServiceBusError) : string :=
  if String.eqb (name e) "" then message e
  else if String.eqb (message e) "" then name e
  else name e ++ ": " ++ message e.

(** ** internalBrokeredMessage.ts *)

Module InternalBrokeredMessage.

Abbreviation CreditManagerRef := nat.

Record t : Type := {
  fields : JsObject;
  _processingState : ProcessingState.t;
  _amqpMessage : AmqpMessage;
  _receiver : LinkRef;
  _requestClient : bool;
  _creditManager : option CreditManagerRef;
  listeners : list (string * nat)
}.

Definition processingState (m : t) : ProcessingState.t := _processingState m.

Definition isSettled (m : t) : bool :=
  ProcessingState.eqb (_processingState m) ProcessingState.Settled.

Definition messageId (m : t) : JsValue := BrokeredMessage.read BrokeredMessage.messageId (fields m).
Definition lockToken (m : t) : JsValue := get (fields m) "_lockToken".

(** The constructor.  [Object.assign] fills the keys the AMQP message
    lacks with [null] or a fresh empty object. *)
Definition new (amqp : AmqpMessage) (deliveryTag : list Byte.byte)
    (receiver : LinkRef) (requestClient : bool)
    (creditManager : option CreditManagerRef) (settled : bool)
    (fresh_properties fresh_default : positive) (fresh_uuid : string) : t :=
  let base := BrokeredMessage.new (js_or (default JUndefined (amqp_body amqp)) JNull)
                fresh_properties fresh_uuid in
  let header : JsObject := default ∅ (amqp_header amqp) in
  let messageAnnotations : JsObject := default ∅ (amqp_messageAnnotations amqp) in
  let properties : JsObject := default ∅ (amqp_properties amqp) in
  let applicationProperties := default (JObject fresh_default) (amqp_applicationProperties amqp) in
  let f1 := <["_timeToLive" := get header "ttl"]> base in
  let f2 := <["_deliveryCount" := get header "deliveryCount"]> f1 in
  let f3 := <["_enqueuedTimeUtc" := get messageAnnotations "x-opt-enqueued-time"]> f2 in
  let f4 := <["_enqueuedSequenceNumber" := get messageAnnotations "x-opt-sequence-number"]> f3 in
  let f5 := <["_partitionKey" := get messageAnnotations "x-opt-partition-key"]> f4 in
  let f6 := <["_lockedUntilUtc" := get messageAnnotations "x-opt-locked-until"]> f5 in
  let f7 := <["_messageId" := get properties "messageId"]> f6 in
  let f8 := <["_to" := get properties "to"]> f7 in
  let f9 := <["_label" := get properties "subject"]> f8 in
  let f10 := <["_replyTo" := get properties "replyTo"]> f9 in
  let f11 := <["_correlationId" := get properties "correlationId"]> f10 in
  let f12 := <["_contentType" := get properties "contentType"]> f11 in
  let f13 := <["_expiresAtUtc" := get properties "absoluteExpiryTime"]> f12 in
  let f14 := <["_sessionId" := get properties "groupId"]> f13 in
  let f15 := <["_replyToSessionId" := get properties "replyToGroupId"]> f14 in
  let f16 := <["properties" := applicationProperties]> f15 in
  let f17 := <["_lockToken" := JStr (uuid.unparse deliveryTag)]> f16 in
  {| fields := f17;
     _processingState := if settled then ProcessingState.Settled else ProcessingState.Active;
     _amqpMessage := amqp;
     _receiver := receiver;
     _requestClient := requestClient;
     _creditManager := creditManager;
     listeners := [] |}.

Definition set_processingState (s : ProcessingState.t) (m : t) : t :=
  {| fields := fields m;
     _processingState := s;
     _amqpMessage := _amqpMessage m;
     _receiver := _receiver m;
     _requestClient := _requestClient m;
     _creditManager := _creditManager m;
     listeners := listeners m |}.

Definition removeAllListeners (m : t) : t :=
  {| fields := fields m;
     _processingState := _processingState m;
     _amqpMessage := _amqpMessage m;
     _receiver := _receiver m;
     _requestClient := _requestClient m;
     _creditManager := _creditManager m;
     listeners := [] |}.

Definition on (event : string) (listener : nat) (m : t) : t :=
  {| fields := fields m;
     _processingState := _processingState m;
     _amqpMessage := _amqpMessage m;
     _receiver := _receiver m;
     _requestClient := _requestClient m;
     _creditManager := _creditManager m;
     listeners := listeners m ++ [(event, listener)] |}.

End InternalBrokeredMessage.

(** ** The objects a receiver works on, and the settlement of a message *)

Module Settlement.
Import InternalBrokeredMessage.

Abbreviation MessageRef := nat.

(** A [setTimeout(settleWrap, delayMs)] that has not fired yet. *)
Record Timer : Type := {
  timer_message : MessageRef;
  timer_settle : Disposition;
  timer_delayMs : Z
}.

(** One [emit] on a message: the event, its argument and the listeners
    that were registered for it. *)
Record Emission : Type := {
  emit_message : MessageRef;
  emit_event : string;
  emit_error : ServiceBusError;
  emit_listeners : list nat
}.

Record World : Type := {
  links : LinkStore;
  creditManagers : gmap nat CreditManager.t;
  messages : gmap nat InternalBrokeredMessage.t;
  timers : list Timer;
  emitted : list Emission;
  settleMessage_calls : list (CreditManagerRef * JsValue)
}.

Definition set_links (ls : LinkStore) (w : World) : World :=
  {| links := ls; creditManagers := creditManagers w; messages := messages w;
     timers := timers w; emitted := emitted w;
     settleMessage_calls := settleMessage_calls w |}.

Definition set_creditManagers (cms : gmap nat CreditManager.t) (w : World) : World :=
  {| links := links w; creditManagers := cms; messages := messages w;
     timers := timers w; emitted := emitted w;
     settleMessage_calls := settleMessage_calls w |}.

Definition set_message (r : MessageRef) (m : InternalBrokeredMessage.t) (w : World) : World :=
  {| links := links w; creditManagers := creditManagers w;
     messages := <[r := m]> (messages w);
     timers := timers w; emitted := emitted w;
     settleMessage_calls := settleMessage_calls w |}.

Definition set_timers (ts : list Timer) (w : World) : World :=
  {| links := links w; creditManagers := creditManagers w; messages := messages w;
     timers := ts; emitted := emitted w;
     settleMessage_calls := settleMessage_calls w |}.

Definition add_emission (e : Emission) (w : World) : World :=
  {| links := links w; creditManagers := creditManagers w; messages := messages w;
     timers := timers w; emitted := emitted w ++ [e];
     settleMessage_calls := settleMessage_calls w |}.

Definition add_settleMessage_call (c : CreditManagerRef * JsValue) (w : World) : World :=
  {| links := links w; creditManagers := creditManagers w; messages := messages w;
     timers := timers w; emitted := emitted w;
     settleMessage_calls := settleMessage_calls w ++ [c] |}.

(** The lock token as the string key of the pending-settle set. *)
Definition token_key (v : JsValue) : string := js_to_string v.

(** [this.emit(event, err)] *)
Definition emit (r : MessageRef) (event : string) (err : ServiceBusError) (w : World) : World :=
  match messages w !! r with
  | Some m =>
      add_emission
        {| emit_message := r; emit_event := event; emit_error := err;
           emit_listeners := map snd (filter (fun l => String.eqb (fst l) event) (listeners m)) |}
        w
  | None => w
  end.

(** [creditManager.scheduleMessageSettle(token)] and
    [creditManager.settleMessage(token)] on the credit manager object. *)
Definition call_scheduleMessageSettle (c : CreditManagerRef) (token : JsValue) (w : World)
  : World * result unit :=
  match creditManagers w !! c with
  | Some cm =>
      let '(cm', links', res) := CreditManager.scheduleMessageSettle (token_key token) cm (links w) in
      (set_links links' (set_creditManagers (<[c := cm']> (creditManagers w)) w), res)
  | None => (w, Ok tt)
  end.

Definition call_settleMessage (c : CreditManagerRef) (token : JsValue) (w : World)
  : World * result unit :=
  let w := add_settleMessage_call (c, token) w in
  match creditManagers w !! c with
  | Some cm =>
      let '(cm', links', res) := CreditManager.settleMessage (token_key token) cm (links w) in
      (set_links links' (set_creditManagers (<[c := cm']> (creditManagers w)) w), res)
  | None => (w, Ok tt)
  end.

(** The body of the [try] block of [settleWrap]: the attached check, the
    disposition on the receiver, the state update.  [transport_throws] is
    what the transport does with the disposition: complete, or throw. *)
Definition settle_try (r : MessageRef) (m : InternalBrokeredMessage.t) (settle : Disposition)
    (transport_throws : option ServiceBusError) (w : World) : World * result unit :=
  match links w !! _receiver m with
  | Some l =>
      if negb (is_attached l)
      then (w, throwError ErrorNames.Message.SettleFailure
                 ("Cannot settle message " ++ js_to_string (messageId m) ++
                  " because its link is not attached") [])
      else
        let w1 := set_links (<[_receiver m := dispose_message settle (js_to_string (messageId m)) l]> (links w)) w in
        match transport_throws with
        | Some e => (w1, Throw e)
        | None =>
            (set_message r (removeAllListeners (set_processingState ProcessingState.Settled m)) w1,
             Ok tt)
        end
  | None => (w, Ok tt)
  end.

(** [settleWrap]: try, catch, finally. *)
Definition settleWrap (r : MessageRef) (settle : Disposition)
    (transport_throws : option ServiceBusError) (w : World) : World * result unit :=
  match messages w !! r with
  | Some m =>
      let '(w1, tried) := settle_try r m settle transport_throws w in
      let w2 :=
        match tried with
        | Ok _ => w1
        | Throw e =>
            emit r BrokeredMessage.SETTLE_ERROR
              (buildError ErrorNames.Message.SettleFailure
                 ("Encountered exception while settling message: " ++ error_to_string e) [])
              (set_message r (set_processingState ProcessingState.SettleFailed m) w1)
        end in
      match _creditManager m with
      | Some c => call_settleMessage c (lockToken m) w2
      | None => (w2, Throw (TypeError "Cannot read property 'settleMessage' of null"))
      end
  | None => (w, Ok tt)
  end.

(** [delayMs > 0] for an optional number *)
Definition positive_delay (delayMs : option Z) : bool :=
  match delayMs with
  | Some d => 0 <? d
  | None => false
  end.

(** [_scheduleSettle(settle, delayMs)] *)
Definition _scheduleSettle (r : MessageRef) (settle : Disposition) (delayMs : option Z)
    (transport_throws : option ServiceBusError) (w : World) : World * result unit :=
  match messages w !! r with
  | Some m =>
      match _creditManager m with
      | None =>
          let linkName := match links w !! _receiver m with
                          | Some l => link_name l
                          | None => "undefined"
                          end in
          (w, throwError ErrorNames.Link.CreditManagerMissing
                ("Cannot find credit manager for link " ++ linkName)
                [("linkName", JStr linkName)])
      | Some c =>
          if negb (ProcessingState.eqb (processingState m) ProcessingState.Active)
          then (w, throwError ErrorNames.Message.SettleFailure
                     ("Cannot settle message " ++ js_to_string (messageId m) ++
                      " because it is in processing state " ++
                      ProcessingState.name_of (processingState m))
                     [("messageId", messageId m)])
          else if positive_delay delayMs
          then
            let w1 := set_message r (set_processingState ProcessingState.Settling m) w in
            match call_scheduleMessageSettle c (lockToken m) w1 with
            | (w2, Ok _) =>
                (set_timers (timers w2 ++
                   [{| timer_message := r; timer_settle := settle;
                       timer_delayMs := default 0 delayMs |}]) w2, Ok tt)
            | (w2, Throw e) => (w2, Throw e)
            end
          else settleWrap r settle transport_throws w
      end
  | None => (w, Ok tt)
  end.

Definition abandon := fun r => _scheduleSettle r modify.
Definition complete := fun r => _scheduleSettle r accept.
Definition deadLetter := fun r => _scheduleSettle r reject.

(** The event loop runs the [i]-th armed timer. *)
Definition fire_timer (i : nat) (transport_throws : option ServiceBusError) (w : World)
  : World * result unit :=
  match timers w !! i with
  | Some t =>
      settleWrap (timer_message t) (timer_settle t) transport_throws
        (set_timers (delete i (timers w)) w)
  | None => (w, Ok tt)
  end.

End Settlement.

(** ** constants.ts *)

Module constants.
Definition amqpRequestTimeout : Z := 15000.
Definition serviceBusDeliveryTimeout : Z := 30000.
Definition serviceBusServerTimeout : Z := 60000.
(** [renewThreshold: 0.75], kept as the fraction 75/100 *)
Definition renewThreshold_num : Z := 75.
Definition renewThreshold_den : Z := 100.
Definition reattachInterval : Z := 5000.
Definition autoRenewTimeout : Z := 1000 * 60 * 5.
Definition maxConcurrentCalls : Z := 1.
Definition handleMax : Z := 255.
Definition amqpClientCleanupDelayMs : Z := 600000.
Definition defaultSendTimeout : Z := 15000.
End constants.

(** ** utility.ts: [parseConnectionString] *)

Module utility.

(** [s.split(sep)] for a one-character separator: never the empty list. *)
Fixpoint split (sep : ascii) (s : string) : list string :=
  match s with
  | EmptyString => [EmptyString]
  | String c rest =>
      if Ascii.eqb c sep then EmptyString :: split sep rest
      else match split sep rest with
           | hd :: tl => String c hd :: tl
           | [] => [String c EmptyString]
           end
  end.

(** [s.indexOf(c)]: the index of the first occurrence, or -1. *)
Fixpoint indexOf_from (c : ascii) (s : string) (i : Z) : Z :=
  match s with
  | EmptyString => -1
  | String a rest => if Ascii.eqb a c then i else indexOf_from c rest (i + 1)
  end.

Definition indexOf (c : ascii) (s : string) : Z := indexOf_from c s 0.

Definition clamp (len i : Z) : Z := Z.min (Z.max i 0) len.

(** [s.substring(start, end)]: both indices are clamped to [0, length] and
    swapped when out of order. *)
Definition substring (s : string) (start end_ : Z) : string :=
  let len := Z.of_nat (String.length s) in
  let a := clamp len start in
  let b := clamp len end_ in
  let lo := Z.min a b in
  let hi := Z.max a b in
  String.substring (Z.to_nat lo) (Z.to_nat (hi - lo)) s.

(** [s.substring(start)] *)
Definition substring_from (s : string) (start : Z) : string :=
  substring s start (Z.of_nat (String.length s)).

(** The callback of [map]: one part becomes the pair of key and value. *)
Definition split_part (part : string) : string * string :=
  let splitIndex := indexOf "=" part in
  (substring part 0 splitIndex, substring_from part (splitIndex + 1)).

(** [Object.assign(acc, { [key]: val })] with a string value: an ordinary
    assignment [acc[key] = val], which the [__proto__] accessor of
    [Object.prototype] swallows. *)
Definition assign (acc : gmap string string) (kv : string * string) : gmap string string :=
  if String.eqb (fst kv) "__proto__" then acc else <[fst kv := snd kv]> acc.

Definition parseConnectionString (connectionString : string) : gmap string string :=
  fold_left assign (map split_part (split ";" connectionString)) ∅.

Definition Endpoint (cs : gmap string string) := cs !! "Endpoint".
Definition SharedAccessKeyName (cs : gmap string string) := cs !! "SharedAccessKeyName".
Definition SharedAccessKey (cs : gmap string string) := cs !! "SharedAccessKey".

End utility.

(** ** What a rejected transport promise may carry, and errors.ts: [wrapError] *)

Inductive Thrown : Type :=
| ThrownError (e : ServiceBusError)
    (** an [Error] object with a [name] and a [message] *)
| ThrownAmqp (symbol : string) (description : JsValue)
    (** [{ value: [{ typeName: 'symbol', value: symbol }, { value: description }] }] *)
| ThrownOther (json : string).
    (** any other value, given by its [JSON.stringify] *)

Definition startsWith (prefix s : string) : bool := String.prefix prefix s.

Definition wrapError (error : Thrown) : ServiceBusError :=
  let unknown (text : string) :=
    buildError ErrorNames.Internal.Unknown ("Encountered unknown error: " ++ text) [] in
  match error with
  | ThrownError e =>
      if startsWith "ServiceBus:" (name e) then e
      else unknown (if String.eqb (message e) "" then "{}" else message e)
  | ThrownAmqp amqpSymbol description =>
      if String.eqb amqpSymbol "" then unknown "{}"
      else
        let ctx := [("message", description)] in
        if String.eqb amqpSymbol "amqp:internal-error" then
          buildError ErrorNames.Amqp.InternalError "An internal error occurred on the amqp server" ctx
        else if String.eqb amqpSymbol "amqp:not-found" then
          buildError ErrorNames.Amqp.NotFound "The messaging entity was not found" ctx
        else if String.eqb amqpSymbol "amqp:unauthorized-access" then
          buildError ErrorNames.Amqp.UnauthorizedAccess "The client does not have access to the messaging entity" ctx
        else if String.eqb amqpSymbol "amqp:decode-error" then
          buildError ErrorNames.Amqp.DecodeError "Data could not be decoded" ctx
        else if String.eqb amqpSymbol "amqp:resource-limit-exceeded" then
          buildError ErrorNames.Amqp.ResourceLimitExceeded "The messaging entity has exceeded the maximum storage capacity" ctx
        else if String.eqb amqpSymbol "amqp:not-allowed" then
          buildError ErrorNames.Amqp.NotAllowed "An AMQP frame was constructed or used incorrectly" ctx
        else if String.eqb amqpSymbol "amqp:invalid-field" then
          buildError ErrorNames.Amqp.InvalidField "An invalid field was passed in the body of an AMQP frame" ctx
        else if String.eqb amqpSymbol "amqp:not-implemented" then
          buildError ErrorNames.Amqp.NotImplemented "The requested functionality has not been implemented" ctx
        else if String.eqb amqpSymbol "amqp:resource-locked" then
          buildError ErrorNames.Amqp.ResourceLocked "The requested entity has been locked by another client" ctx
        else if String.eqb amqpSymbol "amqp:precondition-failed" then
          buildError ErrorNames.Amqp.PreconditionFailed "A precondition for the request failed" ctx
        else if String.eqb amqpSymbol "amqp:resource-deleted" then
          buildError ErrorNames.Amqp.ResourceDeleted "The messaging entity has been deleted" ctx
        else if String.eqb amqpSymbol "amqp:illegal-state" then
          buildError ErrorNames.Amqp.IllegalState "Invalid AMQP frame sent given the current Session state" ctx
        else if String.eqb amqpSymbol "amqp:frame-size-too-small" then
          buildError ErrorNames.Amqp.FrameSizeTooSmall "The maximum frame size is too small for the requested data payload" ctx
        else
          buildError ErrorNames.Amqp.Unknown ("Encountered an unknown AMQP error: " ++ amqpSymbol) ctx
  | ThrownOther json => unknown json
  end.

(** ** Promises *)

Inductive Promise (A : Type) : Type :=
| Pending
| Resolved (a : A)
| Rejected (e : ServiceBusError).
Arguments Pending {A}.
Arguments Resolved {A} a.
Arguments Rejected {A} e.

(** [resolve(a)] and [reject(e)] settle a promise that is still pending and
    do nothing to a settled one. *)
Definition resolve {A} (a : A) (p : Promise A) : Promise A :=
  match p with Pending => Resolved a | _ => p end.

Definition reject_with {A} (e : ServiceBusError) (p : Promise A) : Promise A :=
  match p with Pending => Rejected e | _ => p end.

(** ** sender.ts: [Sender.send] *)

Module Sender.

Definition AMQP_REJECTED_DESCRIPTOR : Z := 0x25.

(** [result.toDescribedType()] of a delivery state *)
Record DeliveryState : Type := { descriptor : Z }.

(** What the event loop delivers while [send] waits: the transport settles
    its send, or the [setTimeout(..., timeoutMs)] of [send] comes due. *)
Inductive Event : Type :=
| TransportResolved (d : DeliveryState)
| TransportRejected (err : Thrown)
| TimeoutElapsed.

(** The promise that races the transport against the timer, with the
    timer handle [sendTimeout]. *)
Record Race : Type := {
  race_promise : Promise DeliveryState;
  sendTimeout_armed : bool
}.

Definition race_start : Race :=
  {| race_promise := Pending; sendTimeout_armed := true |}.

Definition race_step (messageId : JsValue) (r : Race) (ev : Event) : Race :=
  match ev with
  | TimeoutElapsed =>
      if sendTimeout_armed r
      then {| race_promise :=
                reject_with
                  (buildError ErrorNames.Send.Timeout
                     ("Sender timed out. Failed to send message " ++ js_to_string messageId) [])
                  (race_promise r);
              sendTimeout_armed := false |}
      else r
  | TransportResolved d =>
      {| race_promise := resolve d (race_promise r); sendTimeout_armed := false |}
  | TransportRejected err =>
      {| race_promise := reject_with (wrapError err) (race_promise r);
         sendTimeout_armed := false |}
  end.

Definition race (messageId : JsValue) (events : list Event) : Race :=
  fold_left (race_step messageId) events race_start.

(** [send(message, timeoutMs)].  [link] is the outcome of the lazily
    created sender link ([await this._sender.sender]); [events] is what
    the event loop delivers, in order, once the transport send is under
    way and the timer is set. *)
Definition send (_disposed : bool) (message : JsObject) (link : result unit)
    (events : list Event) : Promise unit :=
  if _disposed
  then Rejected (buildError ErrorNames.Send.Disposed "Message not sent. Sender is disposed" [])
  else
    match link with
    | Throw e => Rejected e
    | Ok _ =>
        match race_promise (race (BrokeredMessage.read BrokeredMessage.messageId message) events) with
        | Pending => Pending
        | Rejected e => Rejected e
        | Resolved result =>
            if descriptor result =? AMQP_REJECTED_DESCRIPTOR
            then Rejected (buildError ErrorNames.Send.Rejected "Message send rejected" [])
            else Resolved tt
        end
    end.

End Sender.

(** ** clientManager.ts: the connection pool *)

Module ClientManager.

Abbreviation ClientRef := nat.
Abbreviation TimerId := nat.

(** [interface AMQPClientState]; [amqpClient] is a promise object and
    always truthy, [cleanupTimer] is the handle [setTimeout] returned or
    [null]. *)
Record AMQPClientState : Type := {
  linksCount : Z;
  cleanupTimer : option TimerId
}.

(** Where an [async _cleanupClient] stands after its synchronous part. *)
Inductive Stage : Type :=
| AwaitClient      (** at [await clientState.amqpClient] *)
| AwaitDisconnect. (** at [await amqpClient.disconnect()] *)

Record t : Type := {
  _clients : list ClientRef;              (** the pool, in insertion order *)
  store : gmap nat AMQPClientState;       (** the client-state objects *)
  event_loop : gmap nat ClientRef;        (** armed [setTimeout] callbacks *)
  next_timer : TimerId;
  continuations : list (ClientRef * Stage);
  connect_calls : list ClientRef;
  disconnect_calls : list ClientRef
}.

Definition init : t :=
  {| _clients := []; store := ∅; event_loop := ∅; next_timer := 0%nat;
     continuations := []; connect_calls := []; disconnect_calls := [] |}.

Definition set_store (st : gmap nat AMQPClientState) (s : t) : t :=
  {| _clients := _clients s; store := st; event_loop := event_loop s;
     next_timer := next_timer s; continuations := continuations s;
     connect_calls := connect_calls s; disconnect_calls := disconnect_calls s |}.

Definition update_client (r : ClientRef) (c : AMQPClientState) (s : t) : t :=
  set_store (<[r := c]> (store s)) s.

(** The loop of [_getAMQPClient]: the first client of the pool with room
    for [numLinks] more links. *)
Fixpoint find_client (st : gmap nat AMQPClientState) (numLinks : Z) (pool : list ClientRef)
  : option ClientRef :=
  match pool with
  | [] => None
  | r :: rest =>
      match st !! r with
      | Some c =>
          if linksCount c + numLinks <=? constants.handleMax then Some r
          else find_client st numLinks rest
      | None => find_client st numLinks rest
      end
  end.

(** A reference no client state has yet. *)
Definition fresh_ref (s : t) : ClientRef := fresh (dom (store s)).

Definition _getAMQPClient (numLinks : Z) (s : t) : t * ClientRef :=
  match find_client (store s) numLinks (_clients s) with
  | Some r =>
      match store s !! r with
      | Some c =>
          (update_client r {| linksCount := linksCount c + numLinks; cleanupTimer := None |} s, r)
      | None => (s, r)
      end
  | None =>
      let r := fresh_ref s in
      ({| _clients := _clients s ++ [r];
          store := <[r := {| linksCount := numLinks; cleanupTimer := None |}]> (store s);
          event_loop := event_loop s;
          next_timer := next_timer s;
          continuations := continuations s;
          connect_calls := connect_calls s ++ [r];
          disconnect_calls := disconnect_calls s |}, r)
  end.

(** What [getAMQPClient] returns: the client and the [dispose] closure,
    which captures the client state and [numLinks]. *)
Record Lease : Type := {
  lease_client : ClientRef;
  lease_numLinks : Z
}.

Definition getAMQPClient (numLinks : Z) (s : t) : t * Lease :=
  let '(s', r) := _getAMQPClient numLinks s in
  (s', {| lease_client := r; lease_numLinks := numLinks |}).

Definition _scheduleCleanup (r : ClientRef) (s : t) : t :=
  match store s !! r with
  | Some c =>
      match cleanupTimer c with
      | Some _ => s
      | None =>
          let tid := next_timer s in
          {| _clients := _clients s;
             store := <[r := {| linksCount := linksCount c; cleanupTimer := Some tid |}]> (store s);
             event_loop := <[tid := r]> (event_loop s);
             next_timer := S tid;
             continuations := continuations s;
             connect_calls := connect_calls s;
             disconnect_calls := disconnect_calls s |}
      end
  | None => s
  end.

(** The [dispose] closure of a lease. *)
Definition dispose_lease (l : Lease) (s : t) : t :=
  match store s !! lease_client l with
  | Some c =>
      let n := if 0 <=? linksCount c - lease_numLinks l
               then linksCount c - lease_numLinks l else 0 in
      let s1 := update_client (lease_client l)
                  {| linksCount := n; cleanupTimer := cleanupTimer c |} s in
      if n =? 0 then _scheduleCleanup (lease_client l) s1 else s1
  | None => s
  end.

(** The synchronous part of [_cleanupClient], up to its first [await]. *)
Definition _cleanupClient (r : ClientRef) (s : t) : t :=
  match store s !! r with
  | Some c =>
      if bool_decide (r ∈ _clients s) && (linksCount c =? 0)
      then {| _clients := filter (fun x => x ≠ r) (_clients s);
              store := store s;
              event_loop := event_loop s;
              next_timer := next_timer s;
              continuations := continuations s ++ [(r, AwaitClient)];
              connect_calls := connect_calls s;
              disconnect_calls := disconnect_calls s |}
      else s
  | None => s
  end.

(** The event loop runs the timer [tid]. *)
Definition fire_timer (tid : TimerId) (s : t) : t :=
  match event_loop s !! tid with
  | Some r =>
      _cleanupClient r
        {| _clients := _clients s; store := store s;
           event_loop := delete tid (event_loop s);
           next_timer := next_timer s; continuations := continuations s;
           connect_calls := connect_calls s; disconnect_calls := disconnect_calls s |}
  | None => s
  end.

(** The [i]-th suspended [_cleanupClient] resumes: after the client
    promise it calls [disconnect()], after the disconnect it clears
    [cleanupTimer].  [fulfilled = false] is a rejected promise, which
    ends the function. *)
Definition resume (i : nat) (fulfilled : bool) (s : t) : t :=
  match continuations s !! i with
  | Some (r, stage) =>
      let rest := delete i (continuations s) in
      if negb fulfilled
      then {| _clients := _clients s; store := store s; event_loop := event_loop s;
              next_timer := next_timer s; continuations := rest;
              connect_calls := connect_calls s; disconnect_calls := disconnect_calls s |}
      else
        match stage with
        | AwaitClient =>
            {| _clients := _clients s; store := store s; event_loop := event_loop s;
               next_timer := next_timer s;
               continuations := rest ++ [(r, AwaitDisconnect)];
               connect_calls := connect_calls s;
               disconnect_calls := disconnect_calls s ++ [r] |}
        | AwaitDisconnect =>
            {| _clients := _clients s;
               store := match store s !! r with
                        | Some c => <[r := {| linksCount := linksCount c; cleanupTimer := None |}]> (store s)
                        | None => store s
                        end;
               event_loop := event_loop s;
               next_timer := next_timer s; continuations := rest;
               connect_calls := connect_calls s; disconnect_calls := disconnect_calls s |}
        end
  | None => s
  end.

(** [dispose()]: disconnect every client of the pool, then empty it. *)
Definition dispose (s : t) : t :=
  {| _clients := []; store := store s; event_loop := event_loop s;
     next_timer := next_timer s; continuations := continuations s;
     connect_calls := connect_calls s;
     disconnect_calls := disconnect_calls s ++ _clients s |}.

(** What can happen to a pool, one event-loop turn at a time. *)
Inductive Op : Type :=
| Acquire (numLinks : Z)
| Release (l : Lease)
| Fire (tid : TimerId)
| Resume (i : nat) (fulfilled : bool)
| DisposeAll.

Definition step (s : t) (op : Op) : t :=
  match op with
  | Acquire n => fst (getAMQPClient n s)
  | Release l => dispose_lease l s
  | Fire tid => fire_timer tid s
  | Resume i b => resume i b s
  | DisposeAll => dispose s
  end.

Definition run (ops : list Op) : t := fold_left step ops init.

(** The link counts a caller can ask for and give back. *)
Definition op_ok (op : Op) : Prop :=
  match op with
  | Acquire n => 0 <= n
  | Release l => 0 <= lease_numLinks l
  | _ => True
  end.

(** The client [r] has an idle-cleanup timer running in the event loop. *)
Definition timer_running (r : ClientRef) (s : t) : Prop :=
  ∃ tid, event_loop s !! tid = Some r.

End ClientManager.

(** ** amqpRequestClient.ts: the management request client *)

Module AmqpRequestClient.

Abbreviation TimerId := nat.

(** *** [renewLock]: the byte order of the lock token on the wire *)

(** [Buffer.from([lockTokenBytes[3], lockTokenBytes[2], ...])] *)
Definition reorder (lockTokenBytes : list Byte.byte) : list Byte.byte :=
  let b i := nth i lockTokenBytes Byte.x00 in
  [ b 3; b 2; b 1; b 0;
    b 5; b 4;
    b 7; b 6;
    b 8; b 9;
    b 10; b 11; b 12; b 13; b 14; b 15 ]%nat.

Definition reorderedLockToken (lockToken : string) : string :=
  uuid.unparse (reorder (uuid.parse lockToken)).

(** The request [renewLock] hands to [_sendRequest]. *)
Record AmqpRequest : Type := {
  operation : string;
  body_descriptor : Z;
  lock_tokens : list string;
  lock_tokens_code : Z
}.

Definition renewLock_request (lockToken : string) : AmqpRequest :=
  {| operation := "com.microsoft:renew-lock";
     body_descriptor := 0x77;
     lock_tokens := [reorderedLockToken lockToken];
     lock_tokens_code := 0x98 |}.

(** *** Requests and responses *)

Record AmqpResponse : Type := {
  correlationId : string;
  statusCode : Z;
  statusDescription : string;
  errorCondition : JsValue;
  trackingId : JsValue
}.

(** Which of the three callbacks installed for a request ran. *)
Inductive Outcome : Type :=
| ByResponse (response : AmqpResponse)
| ByTimeout
| ByTerminator.

(** What each callback does to the promise [result] of its request. *)
Definition settlement (messageId : string) (o : Outcome) : Promise AmqpResponse :=
  match o with
  | ByResponse response =>
      if (200 <=? statusCode response) && (statusCode response <? 300)
      then Resolved response
      else Rejected (buildError ErrorNames.Internal.RequestFailure
                       ("Request failed with error: " ++ statusDescription response)
                       [("status", JNum (statusCode response));
                        ("errorType", errorCondition response);
                        ("trackingId", trackingId response)])
  | ByTimeout =>
      Rejected (buildError ErrorNames.Internal.RequestTimeout
                  ("Didn't receive a response within the allotted timeout: " ++
                   pretty constants.amqpRequestTimeout)
                  [("status", JNum 504)])
  | ByTerminator =>
      Rejected (buildError ErrorNames.Internal.RequestTerminated
                  ("Request with correlationId " ++ messageId ++
                   " terminated due to disconnect") [])
  end.

(** The three maps hold closures; a closure is the message id it was
    created for. *)
Record t : Type := {
  _isListening : bool;
  message_listeners : nat;        (** ['message'] listeners on the receiver *)
  sender_canSend : bool;          (** [this._sender.canSend()] *)
  receiver_state : string;        (** [this._receiver.state()] *)
  _pendingRequests : gmap string string;
  _requestTimeouts : gmap string TimerId;
  _requestTerminations : gmap string string;
  event_loop : gmap nat string;   (** armed [setTimeout] callbacks *)
  next_timer : TimerId;
  fired : gmap string (list Outcome);
  results : gmap string (Promise AmqpResponse);
  returned : gmap string (Promise AmqpResponse);
  sent : list string;
  emitted : list ServiceBusError
}.

(** The constructor: one response listener, both links attached. *)
Definition new : t :=
  {| _isListening := true; message_listeners := 1;
     sender_canSend := true; receiver_state := "attached";
     _pendingRequests := ∅; _requestTimeouts := ∅; _requestTerminations := ∅;
     event_loop := ∅; next_timer := 0%nat;
     fired := ∅; results := ∅; returned := ∅; sent := []; emitted := [] |}.

Definition cleanupRequest (messageId : string) (s : t) : t :=
  {| _isListening := _isListening s; message_listeners := message_listeners s;
     sender_canSend := sender_canSend s; receiver_state := receiver_state s;
     _pendingRequests := delete messageId (_pendingRequests s);
     _requestTimeouts := delete messageId (_requestTimeouts s);
     _requestTerminations := delete messageId (_requestTerminations s);
     event_loop := match _requestTimeouts s !! messageId with
                   | Some tid => delete tid (event_loop s)
                   | None => event_loop s
                   end;
     next_timer := next_timer s;
     fired := fired s; results := results s; returned := returned s;
     sent := sent s; emitted := emitted s |}.

(** [resolve] or [reject] on [result]; the promise [_sendRequest] returned
    follows it through [result.then(resolve).catch(reject)]. *)
Definition settle (messageId : string) (o : Outcome) (s : t) : t :=
  let follow (p : Promise AmqpResponse) :=
    match p, settlement messageId o with
    | Pending, q => q
    | p, _ => p
    end in
  {| _isListening := _isListening s; message_listeners := message_listeners s;
     sender_canSend := sender_canSend s; receiver_state := receiver_state s;
     _pendingRequests := _pendingRequests s;
     _requestTimeouts := _requestTimeouts s;
     _requestTerminations := _requestTerminations s;
     event_loop := event_loop s; next_timer := next_timer s;
     fired := <[messageId := default [] (fired s !! messageId) ++ [o]]> (fired s);
     results := alter follow messageId (results s);
     returned := alter follow messageId (returned s);
     sent := sent s; emitted := emitted s |}.

(** The three callbacks of a request. *)
Definition on_timeout (messageId : string) (s : t) : t :=
  settle messageId ByTimeout (cleanupRequest messageId s).

Definition terminationFn (messageId : string) (s : t) : t :=
  settle messageId ByTerminator (cleanupRequest messageId s).

Definition handler (messageId : string) (response : AmqpResponse) (s : t) : t :=
  settle messageId (ByResponse response) (cleanupRequest messageId s).

Definition emit_error (e : ServiceBusError) (s : t) : t :=
  {| _isListening := _isListening s; message_listeners := message_listeners s;
     sender_canSend := sender_canSend s; receiver_state := receiver_state s;
     _pendingRequests := _pendingRequests s;
     _requestTimeouts := _requestTimeouts s;
     _requestTerminations := _requestTerminations s;
     event_loop := event_loop s; next_timer := next_timer s;
     fired := fired s; results := results s; returned := returned s;
     sent := sent s; emitted := emitted s ++ [e] |}.

(** [_sendRequest] with [messageId] the value of [uuid.v4()]; the second
    component is the promise it returns. *)
Definition _sendRequest (messageId : string) (s : t) : t * Promise AmqpResponse :=
  if negb (sender_canSend s) || negb (String.eqb (receiver_state s) "attached")
  then (s, Rejected (buildError ErrorNames.Internal.RequestFailure
                       "Cannot initiate request because management sender and/or receiver are detached"
                       [("status", JNum 503)]))
  else
    let tid := next_timer s in
    ({| _isListening := _isListening s; message_listeners := message_listeners s;
        sender_canSend := sender_canSend s; receiver_state := receiver_state s;
        _pendingRequests := <[messageId := messageId]> (_pendingRequests s);
        _requestTimeouts := <[messageId := tid]> (_requestTimeouts s);
        _requestTerminations := <[messageId := messageId]> (_requestTerminations s);
        event_loop := <[tid := messageId]> (event_loop s);
        next_timer := S tid;
        fired := fired s;
        results := <[messageId := Pending]> (results s);
        returned := <[messageId := Pending]> (returned s);
        sent := sent s ++ [messageId];
        emitted := emitted s |}, Pending).

(** One ['message'] listener of [_listenToResponses]. *)
Definition response_listener (response : AmqpResponse) (s : t) : t :=
  match _pendingRequests s !! correlationId response with
  | Some h =>
      let s1 :=
        {| _isListening := _isListening s; message_listeners := message_listeners s;
           sender_canSend := sender_canSend s; receiver_state := receiver_state s;
           _pendingRequests := delete (correlationId response) (_pendingRequests s);
           _requestTimeouts := _requestTimeouts s;
           _requestTerminations := _requestTerminations s;
           event_loop := event_loop s; next_timer := next_timer s;
           fired := fired s; results := results s; returned := returned s;
           sent := sent s; emitted := emitted s |} in
      handler h response s1
  | None =>
      emit_error (buildError ErrorNames.Internal.OrphanedResponse
                    "Received an orphaned response on request client" []) s
  end.

(** The receiver emits ['message']: every registered listener runs. *)
Definition on_message (response : AmqpResponse) (s : t) : t :=
  Nat.iter (message_listeners s) (response_listener response) s.

(** [for (const terminationFn of this._requestTerminations.values())] *)
Definition _terminateRequests (s : t) : t :=
  fold_left (fun acc kv => terminationFn (snd kv) acc)
    (map_to_list (_requestTerminations s)) s.

Definition set_links (canSend : bool) (state : string) (listening : bool) (n : nat) (s : t) : t :=
  {| _isListening := listening; message_listeners := n;
     sender_canSend := canSend; receiver_state := state;
     _pendingRequests := _pendingRequests s;
     _requestTimeouts := _requestTimeouts s;
     _requestTerminations := _requestTerminations s;
     event_loop := event_loop s; next_timer := next_timer s;
     fired := fired s; results := results s; returned := returned s;
     sent := sent s; emitted := emitted s |}.

(** The receiver's ['detached'] and ['attached'] listeners.  [dispose()]
    removes them together with the response listeners; without listeners
    only the state of the link changes. *)
Definition on_receiver_detached (s : t) : t :=
  match message_listeners s with
  | O => set_links (sender_canSend s) "detached" (_isListening s) 0 s
  | S _ =>
      _terminateRequests
        (set_links (sender_canSend s) "detached" false (message_listeners s) s)
  end.

Definition on_receiver_attached (s : t) : t :=
  match message_listeners s with
  | O => set_links (sender_canSend s) "attached" (_isListening s) 0 s
  | S _ =>
      if _isListening s
      then set_links (sender_canSend s) "attached" true (message_listeners s) s
      else set_links (sender_canSend s) "attached" true (S (message_listeners s)) s
  end.

(** The error of the [.catch] on [this._sender.send(request)]. *)
Definition send_failure (err : Thrown) : ServiceBusError :=
  buildError ErrorNames.Internal.RequestFailure
    ("Failed to send request with error: " ++
     match err with
     | ThrownError e => if String.eqb (message e) "" then "{}" else message e
     | ThrownAmqp sym _ => sym
     | ThrownOther json => json
     end) [].

(** The [.catch] on [this._sender.send(request)]: the returned promise is
    rejected; the three maps are left as they are. *)
Definition on_send_failed (messageId : string) (err : Thrown) (s : t) : t :=
  let e := send_failure err in
  {| _isListening := _isListening s; message_listeners := message_listeners s;
     sender_canSend := sender_canSend s; receiver_state := receiver_state s;
     _pendingRequests := _pendingRequests s;
     _requestTimeouts := _requestTimeouts s;
     _requestTerminations := _requestTerminations s;
     event_loop := event_loop s; next_timer := next_timer s;
     fired := fired s; results := results s;
     returned := alter (reject_with e) messageId (returned s);
     sent := sent s; emitted := emitted s |}.

(** The event loop runs the timer [tid]. *)
Definition fire_timer (tid : TimerId) (s : t) : t :=
  match event_loop s !! tid with
  | Some messageId =>
      on_timeout messageId
        {| _isListening := _isListening s; message_listeners := message_listeners s;
           sender_canSend := sender_canSend s; receiver_state := receiver_state s;
           _pendingRequests := _pendingRequests s;
           _requestTimeouts := _requestTimeouts s;
           _requestTerminations := _requestTerminations s;
           event_loop := delete tid (event_loop s); next_timer := next_timer s;
           fired := fired s; results := results s; returned := returned s;
           sent := sent s; emitted := emitted s |}
  | None => s
  end.

(** [dispose()]: clear every request timer, run every terminator, drop
    the listeners. *)
Definition dispose (s : t) : t :=
  let cleared :=
    {| _isListening := _isListening s; message_listeners := message_listeners s;
       sender_canSend := sender_canSend s; receiver_state := receiver_state s;
       _pendingRequests := _pendingRequests s;
       _requestTimeouts := _requestTimeouts s;
       _requestTerminations := _requestTerminations s;
       event_loop := fold_left (fun el kv => delete (snd kv) el)
                       (map_to_list (_requestTimeouts s)) (event_loop s);
       next_timer := next_timer s;
       fired := fired s; results := results s; returned := returned s;
       sent := sent s; emitted := emitted s |} in
  let s1 := _terminateRequests cleared in
  set_links (sender_canSend s1) (receiver_state s1) (_isListening s1) 0 s1.

(** What can happen to a request client, one event-loop turn at a time. *)
Inductive Event : Type :=
| SendRequest (messageId : string)
| Message (response : AmqpResponse)
| TimerDue (tid : TimerId)
| SendFailed (messageId : string) (err : Thrown)
| SenderState (canSend : bool)
| ReceiverDetached
| ReceiverAttached
| Dispose.

Definition step (s : t) (ev : Event) : t :=
  match ev with
  | SendRequest m => fst (_sendRequest m s)
  | Message r => on_message r s
  | TimerDue tid => fire_timer tid s
  | SendFailed m err => on_send_failed m err s
  | SenderState b => set_links b (receiver_state s) (_isListening s) (message_listeners s) s
  | ReceiverDetached => on_receiver_detached s
  | ReceiverAttached => on_receiver_attached s
  | Dispose => dispose s
  end.

Definition run (evs : list Event) : t := fold_left step evs new.

(** The message ids [uuid.v4()] produced along a trace. *)
Definition request_ids (evs : list Event) : list string :=
  omap (fun ev => match ev with SendRequest m => Some m | _ => None end) evs.

(** A request between admission and its outcome: nothing has fired, its
    entries are in the three maps and its timer is armed. *)
Definition waiting (m : string) (s : t) : Prop :=
  fired s !! m = None ∧
  results s !! m = Some Pending ∧
  _pendingRequests s !! m = Some m ∧
  _requestTerminations s !! m = Some m ∧
  ∃ tid, _requestTimeouts s !! m = Some tid ∧ event_loop s !! tid = Some m.

(** A request after its outcome: exactly one callback has fired, its
    entries are gone from the three maps and no timer of it is armed. *)
Definition completed (m : string) (o : Outcome) (s : t) : Prop :=
  fired s !! m = Some [o] ∧
  _pendingRequests s !! m = None ∧
  _requestTimeouts s !! m = None ∧
  _requestTerminations s !! m = None ∧
  (∀ tid, event_loop s !! tid ≠ Some m) ∧
  results s !! m = Some (settlement m o).

End AmqpRequestClient.

(** ** receiver.ts: lock renewal *)

Module Receiver.

Abbreviation MessageRef := nat.
Abbreviation TimerId := nat.

(** A number that may be [Infinity] ([autoRenewTimeout] and the deadlines
    computed from it). *)
Inductive Num : Type :=
| Fin (z : Z)
| Infinity.

Definition num_add (a b : Num) : Num :=
  match a, b with
  | Fin x, Fin y => Fin (x + y)
  | _, _ => Infinity
  end.

(** [a > b] *)
Definition num_gtb (a b : Num) : bool :=
  match a, b with
  | Fin x, Fin y => y <? x
  | Infinity, Fin _ => true
  | _, Infinity => false
  end.

Record OnMessageOptions : Type := {
  autoComplete : bool;
  autoRenewTimeout : Num;
  maxConcurrentCalls : Z
}.

(** [constants.serviceBusDeliveryTimeout * constants.renewThreshold] *)
Definition timeUntilRenewal : Z :=
  constants.serviceBusDeliveryTimeout * constants.renewThreshold_num
    / constants.renewThreshold_den.

(** [interface RenewTimer] *)
Record RenewTimer : Type := {
  message_of : MessageRef;
  timer : TimerId
}.

(** A timer callback suspended at [await message.renewLock()];
    [called] tells whether [renewLock] went to the request client. *)
Record Renewing : Type := {
  renewing_message : MessageRef;
  called : bool
}.

Record t : Type := {
  messages : gmap nat InternalBrokeredMessage.t;
  renewalTimers : gmap string RenewTimer;
  renewalTimeouts : gmap string Num;
  event_loop : gmap nat MessageRef;    (** armed [setTimeout] callbacks *)
  next_timer : TimerId;                (** the number of [setTimeout] calls so far *)
  renewing : list Renewing;
  renewLock_calls : list string;
  receiverErrors : list ServiceBusError
}.

Definition init : t :=
  {| messages := ∅; renewalTimers := ∅; renewalTimeouts := ∅;
     event_loop := ∅; next_timer := 0%nat; renewing := [];
     renewLock_calls := []; receiverErrors := [] |}.

Definition token (m : InternalBrokeredMessage.t) : string :=
  js_to_string (InternalBrokeredMessage.lockToken m).

Definition is_SettleFailed (m : InternalBrokeredMessage.t) : bool :=
  ProcessingState.eqb (InternalBrokeredMessage.processingState m) ProcessingState.SettleFailed.

(** [renewalTimers.delete(token); renewalTimeouts.delete(token)] *)
Definition drop_entry (tok : string) (s : t) : t :=
  {| messages := messages s;
     renewalTimers := delete tok (renewalTimers s);
     renewalTimeouts := delete tok (renewalTimeouts s);
     event_loop := event_loop s; next_timer := next_timer s;
     renewing := renewing s; renewLock_calls := renewLock_calls s;
     receiverErrors := receiverErrors s |}.


(** [_scheduleRenewal(message, config, renewalTimers, renewalTimeouts,
    subscription)] at the time [now]. *)
Definition _scheduleRenewal (r : MessageRef) (config : OnMessageOptions) (now : Z) (s : t) : t :=
  match messages s !! r with
  | Some m =>
      if InternalBrokeredMessage.isSettled m || is_SettleFailed m
      then drop_entry (token m) s
      else
        let timeouts :=
          match renewalTimeouts s !! token m with
          | Some _ => renewalTimeouts s
          | None => <[token m := num_add (Fin now) (autoRenewTimeout config)]> (renewalTimeouts s)
          end in
        if num_gtb (default (Fin 0) (timeouts !! token m)) (Fin (now + timeUntilRenewal))
        then
          let tid := next_timer s in
          {| messages := messages s;
             renewalTimers := <[token m := {| message_of := r; timer := tid |}]> (renewalTimers s);
             renewalTimeouts := timeouts;
             event_loop := <[tid := r]> (event_loop s);
             next_timer := S tid;
             renewing := renewing s; renewLock_calls := renewLock_calls s;
             receiverErrors := receiverErrors s |}
        else
          {| messages := messages s;
             renewalTimers := delete (token m) (renewalTimers s);
             renewalTimeouts := delete (token m) timeouts;
             event_loop := event_loop s; next_timer := next_timer s;
             renewing := renewing s; renewLock_calls := renewLock_calls s;
             receiverErrors := receiverErrors s |}
  | None => s
  end.

(** internalBrokeredMessage.ts, [renewLock()]: whether it calls the
    request client ... *)
Definition renewLock_calls_client (m : InternalBrokeredMessage.t) : bool :=
  negb (InternalBrokeredMessage.isSettled m) && negb (is_SettleFailed m)
  && InternalBrokeredMessage._requestClient m.

(** ... and the error it throws when the request client's promise is
    rejected with [e]. *)
Definition renewLock_error (m : InternalBrokeredMessage.t) (e : Thrown) : ServiceBusError :=
  let messageId := InternalBrokeredMessage.messageId m in
  let id := js_to_string messageId in
  match e with
  | ThrownError err =>
      if String.eqb (name err) ErrorNames.Internal.RequestTimeout then
        buildError ErrorNames.Message.LockRenewalTimeout
          ("Timed out while renewing lock for message " ++ id)
          [("messageId", messageId)]
      else if String.eqb (name err) ErrorNames.Internal.RequestFailure then
        buildError ErrorNames.Message.LockRenewalFailure
          ("Encountered an error while renewing lock for message " ++ id)
          (("messageId", messageId) :: context err)
      else
        buildError ErrorNames.Message.LockRenewalFailure
          ("Encountered an unknown error while renewing lock for message " ++ id)
          [("messageId", messageId);
           ("errorMessage", JStr (if String.eqb (message err) "" then "{}" else message err))]
  | ThrownAmqp sym _ =>
      buildError ErrorNames.Message.LockRenewalFailure
        ("Encountered an unknown error while renewing lock for message " ++ id)
        [("messageId", messageId); ("errorMessage", JStr sym)]
  | ThrownOther json =>
      buildError ErrorNames.Message.LockRenewalFailure
        ("Encountered an unknown error while renewing lock for message " ++ id)
        [("messageId", messageId); ("errorMessage", JStr json)]
  end.

(** The renewal timer [tid] fires: the callback up to its [await]. *)
Definition fire_timer (tid : TimerId) (s : t) : t :=
  match event_loop s !! tid with
  | Some r =>
      let s1 :=
        {| messages := messages s; renewalTimers := renewalTimers s;
           renewalTimeouts := renewalTimeouts s;
           event_loop := delete tid (event_loop s); next_timer := next_timer s;
           renewing := renewing s; renewLock_calls := renewLock_calls s;
           receiverErrors := receiverErrors s |} in
      match messages s !! r with
      | Some m =>
          if negb (InternalBrokeredMessage.isSettled m)
          then
            {| messages := messages s1; renewalTimers := renewalTimers s1;
               renewalTimeouts := renewalTimeouts s1;
               event_loop := event_loop s1; next_timer := next_timer s1;
               renewing := renewing s1 ++
                 [{| renewing_message := r; called := renewLock_calls_client m |}];
               renewLock_calls :=
                 if renewLock_calls_client m then renewLock_calls s1 ++ [token m]
                 else renewLock_calls s1;
               receiverErrors := receiverErrors s1 |}
          else drop_entry (token m) s1
      | None => s1
      end
  | None => s
  end.

(** The [i]-th suspended callback resumes at the time [now];
    [failure] is the rejection of the request client's promise, if any. *)
Definition renew_done (i : nat) (failure : option Thrown) (config : OnMessageOptions)
    (now : Z) (s : t) : t :=
  match renewing s !! i with
  | Some k =>
      let s1 :=
        {| messages := messages s; renewalTimers := renewalTimers s;
           renewalTimeouts := renewalTimeouts s;
           event_loop := event_loop s; next_timer := next_timer s;
           renewing := delete i (renewing s); renewLock_calls := renewLock_calls s;
           receiverErrors := receiverErrors s |} in
      match failure, called k, messages s !! renewing_message k with
      | Some e, true, Some m =>
          {| messages := messages s1; renewalTimers := renewalTimers s1;
             renewalTimeouts := renewalTimeouts s1;
             event_loop := event_loop s1; next_timer := next_timer s1;
             renewing := renewing s1; renewLock_calls := renewLock_calls s1;
             receiverErrors := receiverErrors s1 ++
               [wrapError (ThrownError (renewLock_error m e))] |}
      | _, _, _ => _scheduleRenewal (renewing_message k) config now s1
      end
  | None => s
  end.

(** The transitions the settlement methods can make. *)
Definition legal_transition (old new : ProcessingState.t) : bool :=
  match old, new with
  | ProcessingState.Active, ProcessingState.Settling
  | ProcessingState.Active, ProcessingState.Settled
  | ProcessingState.Active, ProcessingState.SettleFailed
  | ProcessingState.Settling, ProcessingState.Settled
  | ProcessingState.Settling, ProcessingState.SettleFailed => true
  | _, _ => false
  end.

Definition set_state (r : MessageRef) (st : ProcessingState.t) (s : t) : t :=
  match messages s !! r with
  | Some m =>
      if legal_transition (InternalBrokeredMessage.processingState m) st
      then {| messages := <[r := InternalBrokeredMessage.set_processingState st m]> (messages s);
              renewalTimers := renewalTimers s; renewalTimeouts := renewalTimeouts s;
              event_loop := event_loop s; next_timer := next_timer s;
              renewing := renewing s; renewLock_calls := renewLock_calls s;
              receiverErrors := receiverErrors s |}
      else s
  | None => s
  end.

(** A delivery: the new message object, then [_scheduleRenewal]. *)
Definition deliver (m : InternalBrokeredMessage.t) (config : OnMessageOptions) (now : Z) (s : t) : t :=
  let r := fresh (dom (messages s)) in
  _scheduleRenewal r config now
    {| messages := <[r := m]> (messages s);
       renewalTimers := renewalTimers s; renewalTimeouts := renewalTimeouts s;
       event_loop := event_loop s; next_timer := next_timer s;
       renewing := renewing s; renewLock_calls := renewLock_calls s;
       receiverErrors := receiverErrors s |}.

(** The synchronous part of the listener's [cleanupCallback]: for every
    entry of [renewalTimers] the listeners of its message are removed and
    its timer is cleared, then both maps are emptied.  The order of the
    entries does not matter: the removals and the clearings commute.  What
    the callback awaits afterwards ends the request client, which answers
    the [renewLock] calls in flight with a rejection ([RenewDone] with a
    failure). *)
Definition cleanupCallback (s : t) : t :=
  let timers := snd <$> map_to_list (renewalTimers s) in
  {| messages :=
       foldr (fun rt ms => alter InternalBrokeredMessage.removeAllListeners (message_of rt) ms)
         (messages s) timers;
     renewalTimers := ∅;
     renewalTimeouts := ∅;
     event_loop := foldr (fun rt el => delete (timer rt) el) (event_loop s) timers;
     next_timer := next_timer s;
     renewing := renewing s; renewLock_calls := renewLock_calls s;
     receiverErrors := receiverErrors s |}.

Inductive Event : Type :=
| Deliver (m : InternalBrokeredMessage.t) (now : Z)
| TimerDue (tid : TimerId)
| RenewDone (i : nat) (failure : option Thrown) (now : Z)
| Settle (r : MessageRef) (st : ProcessingState.t)
| ListenerDisposed.

Definition step (config : OnMessageOptions) (s : t) (ev : Event) : t :=
  match ev with
  | Deliver m now => deliver m config now s
  | TimerDue tid => fire_timer tid s
  | RenewDone i failure now => renew_done i failure config now s
  | Settle r st => set_state r st s
  | ListenerDisposed => cleanupCallback s
  end.

Definition run (config : OnMessageOptions) (evs : list Event) : t :=
  fold_left (step config) evs init.





End Receiver.

(** ** Concrete inputs, for the examples below *)

Module Examples.

Definition link : ReceiverLink :=
  {| link_name := "receiver"; state := "attached"; linkCredit := 0;
     addCredits_calls := []; disposition_calls := [] |}.

Definition deliveryTag : list Byte.byte :=
  [Byte.x00; Byte.x01; Byte.x02; Byte.x03; Byte.x04; Byte.x05; Byte.x06; Byte.x07;
   Byte.x08; Byte.x09; Byte.x0a; Byte.x0b; Byte.x0c; Byte.x0d; Byte.x0e; Byte.x0f].

Definition amqpMessage : AmqpMessage :=
  {| amqp_body := Some (JStr "hello");
     amqp_header := None;
     amqp_messageAnnotations := None;
     amqp_properties := Some {[ "messageId" := JStr "m1" ]};
     amqp_applicationProperties := None |}.

(** A peek-locked message on the link 0 with the credit manager 0. *)
Definition message : InternalBrokeredMessage.t :=
  InternalBrokeredMessage.new amqpMessage deliveryTag 0%nat true (Some 0%nat) false
    1%positive 2%positive "11111111-1111-4111-8111-111111111111".

Definition creditManager : CreditManager.t :=
  CreditManager.setReceiver 0%nat (CreditManager.create 1 1).

Definition world : Settlement.World :=
  {| Settlement.links := {[ 0%nat := link ]};
     Settlement.creditManagers := {[ 0%nat := creditManager ]};
     Settlement.messages := {[ 0%nat := message ]};
     Settlement.timers := [];
     Settlement.emitted := [];
     Settlement.settleMessage_calls := [] |}.

End Examples.

(** ** The predicates and the traces the properties are stated with *)

Section LockTokenPredicates.
Import AmqpRequestClient.

(** The positions [renewLock] reads, in the order it writes them. *)
Definition wire_order : list nat :=
  [3; 2; 1; 0; 5; 4; 7; 6; 8; 9; 10; 11; 12; 13; 14; 15]%nat.

(** As the specification words it: the reordering applied twice is not the
    identity on sixteen-byte tokens. *)
Definition reorder_twice_differs : Prop :=
  ∃ tok : list Byte.byte, length tok = 16%nat ∧ reorder (reorder tok) ≠ tok.

End LockTokenPredicates.

Section FieldMappingPredicates.
Import BrokeredMessage.

(** The brokered message rebuilt from the AMQP message that the outbound
    translation of [m] produces. *)
Definition inbound_of_outbound (m : JsObject) (deliveryTag : list Byte.byte)
    (fresh_properties fresh_default : positive) (fresh_uuid : string) : JsObject :=
  InternalBrokeredMessage.fields
    (InternalBrokeredMessage.new (_brokeredMessageToAmqpMessage m) deliveryTag
       0%nat true (Some 0%nat) false fresh_properties fresh_default fresh_uuid).

(** As the specification words it: every field of the outbound table, once set,
    reads the same on the inbound message. *)
Definition every_field_round_trips : Prop :=
  ∀ (f : Field) (v : JsValue) (m m' : JsObject) deliveryTag fp fd fu,
    write f v m = Ok m' →
    read f (inbound_of_outbound m' deliveryTag fp fd fu) = v.

End FieldMappingPredicates.

Section ClientManagerPredicates.
Import ClientManager.

(** The handle of a leased client is cleared: [cleanupTimer] is [null]
    whenever [linksCount] is positive. *)
Definition handle_cleared (s : ClientManager.t) : Prop :=
  ∀ r c, store s !! r = Some c → 0 < linksCount c → cleanupTimer c = None.

(** As the specification words it: in no interleaving does a client with a
    positive link count have a cleanup timer running. *)
Definition no_timer_while_leased : Prop :=
  ∀ ops, Forall op_ok ops →
    ∀ r c, store (run ops) !! r = Some c → 0 < linksCount c →
           ¬ timer_running r (run ops).

End ClientManagerPredicates.

Section RequestClientPredicates.
Import AmqpRequestClient.

(** What the client holds for one message id. *)
Definition view (m : string) (s : AmqpRequestClient.t) :=
  (fired s !! m, results s !! m, _pendingRequests s !! m,
   _requestTimeouts s !! m, _requestTerminations s !! m).

(** The three stages of a message id: never used, admitted and open,
    closed by the outcome [o]. *)
Definition idle (m : string) (s : AmqpRequestClient.t) : Prop :=
  view m s = (None, None, None, None, None).

Definition open (m : string) (s : AmqpRequestClient.t) : Prop :=
  ∃ tid, view m s = (None, Some Pending, Some m, Some tid, Some m).

Definition closed (m : string) (o : Outcome) (s : AmqpRequestClient.t) : Prop :=
  view m s = (Some [o], Some (settlement m o), None, None, None).

(** The bookkeeping that holds between any two steps of a callback. *)
Record consistent (s : AmqpRequestClient.t) : Prop := {
  timers_registered :
    ∀ tid m, event_loop s !! tid = Some m → _requestTimeouts s !! m = Some tid;
  timers_distinct :
    ∀ m1 m2 tid, _requestTimeouts s !! m1 = Some tid →
                 _requestTimeouts s !! m2 = Some tid → m1 = m2;
  timers_allocated :
    ∀ m tid, _requestTimeouts s !! m = Some tid → (tid < next_timer s)%nat;
  sent_recorded :
    ∀ m, m ∈ sent s → results s !! m ≠ None;
  stages :
    ∀ m, idle m s ∨ open m s ∨ ∃ o, closed m o s
}.

(** Between event-loop turns every registered timeout is armed. *)
Definition timeouts_armed (s : AmqpRequestClient.t) : Prop :=
  ∀ m tid, _requestTimeouts s !! m = Some tid → event_loop s !! tid = Some m.

(** The common shape of the three callbacks. *)
Definition finish (m : string) (o : Outcome) (s : AmqpRequestClient.t) : AmqpRequestClient.t :=
  settle m o (cleanupRequest m s).

(** A request either stays as it is or goes from open to closed. *)
Definition advances (m : string) (s s' : AmqpRequestClient.t) : Prop :=
  view m s' = view m s ∨ (open m s ∧ ∃ o, closed m o s').

(** The invariants of an event-loop turn, and what the turn did to each
    request. *)
Definition turn (s s' : AmqpRequestClient.t) : Prop :=
  consistent s' ∧ timeouts_armed s' ∧ (∀ m, advances m s s') ∧ sent s' = sent s.

End RequestClientPredicates.

Section RenewalPredicates.
Import Receiver.



Definition handles_allocated (s : Receiver.t) : Prop :=
  ∀ tid r, event_loop s !! tid = Some r → (tid < next_timer s)%nat.



Definition renew_forever : OnMessageOptions :=
  {| autoComplete := false; autoRenewTimeout := Infinity; maxConcurrentCalls := 1 |}.

Definition renew_for (ms : Z) : OnMessageOptions :=
  {| autoComplete := false; autoRenewTimeout := Fin ms; maxConcurrentCalls := 1 |}.



(** Two renewals succeed. *)
Definition two_renewals : list Event :=
  [Deliver Examples.message 0; TimerDue 0%nat; RenewDone 0%nat None 22500;
   TimerDue 1%nat; RenewDone 0%nat None 45000].


End RenewalPredicates.

(** ** The keys of the outbound AMQP message *)

Section OutboundKeys.
Import BrokeredMessage.

(** The message annotation [_brokeredMessageToAmqpMessage] writes a field
    under, and the property it writes a field under. *)
Definition annotation_key (f : Field) : option string :=
  match f with
  | partitionKey => Some "x-opt-partition-key"
  | enqueuedTimeUtc => Some "x-opt-enqueued-time"
  | enqueuedSequenceNumber => Some "x-opt-sequence-number"
  | scheduledEnqueueTimeUtc => Some "x-opt-scheduled-enqueue-time"
  | _ => None
  end%string.

Definition property_key (f : Field) : option string :=
  match f with
  | to => Some "to"
  | label => Some "subject"
  | replyTo => Some "replyTo"
  | correlationId => Some "correlationId"
  | contentType => Some "contentType"
  | sessionId => Some "groupId"
  | replyToSessionId => Some "replyToGroupId"
  | _ => None
  end%string.

(** The setter threw its [TypeError]. *)
Definition refused (r : result JsObject) : Prop :=
  ∃ e, r = Throw e ∧ name e = "TypeError"%string.

(** The entry a key has after [setIfDefined] on an object that lacked it. *)
Definition entry_of (v : JsValue) : option JsValue :=
  match v with
  | JUndefined => None
  | _ => Some v
  end.

End OutboundKeys.

(** ** The connection pool: what callers ask for, and what the pool keeps *)

Section PoolPredicates.
Import ClientManager.

(** Link counts that fit on one connection. *)
Definition op_bounded (op : Op) : Prop :=
  match op with
  | Acquire n => 0 <= n <= constants.handleMax
  | Release l => 0 <= lease_numLinks l
  | _ => True
  end.

Definition counts_bounded (s : ClientManager.t) : Prop :=
  ∀ r c, store s !! r = Some c → 0 <= linksCount c <= constants.handleMax.

(** The client [r] of the pool can take [numLinks] more links. *)
Definition has_room (st : gmap nat AMQPClientState) (numLinks : Z) (r : ClientRef) : Prop :=
  ∃ c, st !! r = Some c ∧ linksCount c + numLinks <= constants.handleMax.

(** The clients a suspended [_cleanupClient] is about to disconnect are
    out of the pool and hold no link. *)
Definition cleanup_idle (s : ClientManager.t) : Prop :=
  ∀ r stage, (r, stage) ∈ continuations s →
    (r ∉ _clients s) ∧ ∃ c, store s !! r = Some c ∧ linksCount c = 0.

(** A client state that is out of the pool and holds no link. *)
Definition retired (r : ClientRef) (s : ClientManager.t) : Prop :=
  (r ∉ _clients s) ∧ ∃ c, store s !! r = Some c ∧ linksCount c = 0.

End PoolPredicates.

(** ** The request client: what a turn leaves behind *)

Section RequestClientPredicates2.
Import AmqpRequestClient.

(** No request is registered and no request timer is armed. *)
Definition nothing_outstanding (s : AmqpRequestClient.t) : Prop :=
  _pendingRequests s = ∅ ∧ _requestTimeouts s = ∅ ∧
  _requestTerminations s = ∅ ∧ event_loop s = ∅.

(** The response receiver went away: the client was disposed, or the
    receiver link detached while the client listened to it. *)
Definition receiver_gone (ev : Event) (s : AmqpRequestClient.t) : Prop :=
  ev = Dispose ∨ (ev = ReceiverDetached ∧ message_listeners s ≠ 0%nat).

(** The promise [_sendRequest] handed to its caller, against the promise
    [result] the three callbacks settle: the two agree, or a failed
    acknowledgement of the send, one of those [failed] holds of, has
    rejected the caller's promise first. *)
Definition caller_sees (failed : Thrown → Prop) (m : string)
    (s : AmqpRequestClient.t) : Prop :=
  returned s !! m = results s !! m ∨
  ∃ err, failed err ∧ returned s !! m = Some (Rejected (send_failure err)) ∧
         is_Some (results s !! m).

(** A step that rejects no caller's promise on its own. *)
Definition follows (s s' : AmqpRequestClient.t) : Prop :=
  ∀ failed m, caller_sees failed m s → caller_sees failed m s'.

(** A step that leaves every settled caller's promise as it is. *)
Definition keeps (s s' : AmqpRequestClient.t) : Prop :=
  ∀ m p, returned s !! m = Some p → p ≠ Pending → returned s' !! m = Some p.


End RequestClientPredicates2.

(** ** The credit manager over sequences of calls *)

Section CreditTraces.
Import CreditManager.

Inductive CreditOp : Type :=
| Schedule (lockToken : string)
| Settle (lockToken : string)
| Refresh.

(** One call on the credit manager; what a call that throws has changed by
    then stays changed. *)
Definition credit_step (st : CreditManager.t * LinkStore) (op : CreditOp)
  : CreditManager.t * LinkStore :=
  match op with
  | Schedule t => (scheduleMessageSettle t st.1 st.2).1
  | Settle t => (settleMessage t st.1 st.2).1
  | Refresh => (refreshCredits st.1 st.2).1
  end.

Definition credit_run (ops : list CreditOp) (st : CreditManager.t * LinkStore)
  : CreditManager.t * LinkStore :=
  fold_left credit_step ops st.

(** The lock tokens a sequence of calls names, and those it settles. *)
Fixpoint tokens (ops : list CreditOp) : gset string :=
  match ops with
  | [] => ∅
  | Schedule t :: rest | Settle t :: rest => {[t]} ∪ tokens rest
  | Refresh :: rest => tokens rest
  end.

Fixpoint settled_tokens (ops : list CreditOp) : gset string :=
  match ops with
  | [] => ∅
  | Settle t :: rest => {[t]} ∪ settled_tokens rest
  | _ :: rest => settled_tokens rest
  end.

(** The calls the messages of a receiver make: a message is settled at
    most once, and no settlement of it is scheduled after that. *)
Fixpoint settle_protocol (settled : gset string) (ops : list CreditOp) : Prop :=
  match ops with
  | [] => True
  | Schedule t :: rest => (t ∉ settled) ∧ settle_protocol settled rest
  | Settle t :: rest => (t ∉ settled) ∧ settle_protocol ({[t]} ∪ settled) rest
  | Refresh :: rest => settle_protocol settled rest
  end.

End CreditTraces.

(** ** messageListener.ts *)

Module MessageListenerImpl.

(** A cleanup callback is the number it is known by; [None] is the
    initial [() => { }].  [cleanup_calls] logs the callbacks that ran. *)
Record t : Type := {
  _isListening : bool;
  _cleanupCallback : option nat;
  _creditManager : option nat;
  listeners : list (string * nat);
  cleanup_calls : list nat
}.

Definition new : t :=
  {| _isListening := true; _cleanupCallback := None; _creditManager := None;
     listeners := []; cleanup_calls := [] |}.

Definition isListening (s : t) : bool := _isListening s.

(** [this._creditManager ? this._creditManager.pendingSettleCount : 0] *)
Definition pendingSettleCount (s : t) (creditManagers : gmap nat CreditManager.t) : nat :=
  match _creditManager s with
  | Some c =>
      match creditManagers !! c with
      | Some cm => CreditManager.pendingSettleCount cm
      | None => 0
      end
  | None => 0
  end.

Definition initialize (cleanupCallback creditManager : nat) (s : t) : t :=
  {| _isListening := true; _cleanupCallback := Some cleanupCallback;
     _creditManager := Some creditManager;
     listeners := listeners s; cleanup_calls := cleanup_calls s |}.

Definition on (event : string) (listener : nat) (s : t) : t :=
  {| _isListening := _isListening s; _cleanupCallback := _cleanupCallback s;
     _creditManager := _creditManager s;
     listeners := listeners s ++ [(event, listener)]; cleanup_calls := cleanup_calls s |}.

Definition removeAllListeners (s : t) : t :=
  {| _isListening := _isListening s; _cleanupCallback := _cleanupCallback s;
     _creditManager := _creditManager s;
     listeners := []; cleanup_calls := cleanup_calls s |}.

Definition disposeInternals (s : t) : t :=
  if isListening s
  then {| _isListening := false; _cleanupCallback := _cleanupCallback s;
          _creditManager := _creditManager s; listeners := listeners s;
          cleanup_calls := cleanup_calls s ++
                           match _cleanupCallback s with
                           | Some cb => [cb]
                           | None => []
                           end |}
  else s.

Definition dispose (s : t) : t := disposeInternals (removeAllListeners s).

(** What a receiver and its user do with a listener. *)
Inductive Op : Type :=
| Initialize (cleanupCallback creditManager : nat)
| On (event : string) (listener : nat)
| Dispose
| DisposeInternals.

Definition step (s : t) (op : Op) : t :=
  match op with
  | Initialize cb cm => initialize cb cm s
  | On ev l => on ev l s
  | Dispose => dispose s
  | DisposeInternals => disposeInternals s
  end.

Definition run (ops : list Op) : t := fold_left step ops new.

(** The callbacks [initialize] was given, in order. *)
Definition initialized (ops : list Op) : list nat :=
  omap (fun op => match op with Initialize cb _ => Some cb | _ => None end) ops.

End MessageListenerImpl.

(** ** receiver.ts: [receiveBatch] *)

Module ReceiveBatch.

(** The promise [receiveBatch] returns: pending, resolved with the
    messages, or rejected with what the ['detached'] event carried. *)
Inductive Outcome : Type :=
| Waiting
| Returned (batch : list InternalBrokeredMessage.t)
| Failed (info : Thrown).

Record t : Type := {
  messageCount : Z;
  timeoutMs : Z;
  receiver : LinkRef;
  messages : list InternalBrokeredMessage.t;
  outcome : Outcome;
  receiveTimeout_armed : bool;
  listening : bool;                 (** the listeners on the receiver *)
  disposeReceiver_calls : nat;
  addCredits_calls : list Z
}.

(** [timeoutMs != null ? timeoutMs : constants.serviceBusServerTimeout],
    and the state once the link is there: the timer set, the listeners
    on, [receiver.addCredits(messageCount)] called. *)
Definition start (receiver : LinkRef) (messageCount : Z) (timeoutMs : option Z) : t :=
  {| messageCount := messageCount;
     timeoutMs := default constants.serviceBusServerTimeout timeoutMs;
     receiver := receiver;
     messages := [];
     outcome := Waiting;
     receiveTimeout_armed := true;
     listening := true;
     disposeReceiver_calls := 0;
     addCredits_calls := [messageCount] |}.

(** The local [dispose]: clear the timer, end the session, drop the
    listeners, release the connection. *)
Definition dispose (s : t) : t :=
  {| messageCount := messageCount s; timeoutMs := timeoutMs s; receiver := receiver s;
     messages := messages s; outcome := outcome s;
     receiveTimeout_armed := false; listening := false;
     disposeReceiver_calls := S (disposeReceiver_calls s);
     addCredits_calls := addCredits_calls s |}.

Definition settle (o : Outcome) (s : t) : t :=
  {| messageCount := messageCount s; timeoutMs := timeoutMs s; receiver := receiver s;
     messages := messages s;
     outcome := match outcome s with Waiting => o | settled => settled end;
     receiveTimeout_armed := receiveTimeout_armed s; listening := listening s;
     disposeReceiver_calls := disposeReceiver_calls s;
     addCredits_calls := addCredits_calls s |}.

Definition push (m : InternalBrokeredMessage.t) (s : t) : t :=
  {| messageCount := messageCount s; timeoutMs := timeoutMs s; receiver := receiver s;
     messages := messages s ++ [m]; outcome := outcome s;
     receiveTimeout_armed := receiveTimeout_armed s; listening := listening s;
     disposeReceiver_calls := disposeReceiver_calls s;
     addCredits_calls := addCredits_calls s |}.

(** A delivery on the link: the AMQP message, the delivery tag of its
    frame, and the objects and the uuid the constructor allocates. *)
Record Delivery : Type := {
  delivered : AmqpMessage;
  deliveryTag : list Byte.byte;
  fresh_properties : positive;
  fresh_default : positive;
  fresh_uuid : string
}.

(** [new InternalBrokeredMessage(message, frame, receiver, null, null,
    this._logFn, true)] *)
Definition received (receiver : LinkRef) (d : Delivery) : InternalBrokeredMessage.t :=
  InternalBrokeredMessage.new (delivered d) (deliveryTag d) receiver false None true
    (fresh_properties d) (fresh_default d) (fresh_uuid d).

Inductive Event : Type :=
| Message (d : Delivery)
| Detached (info : Thrown)
| TimeoutDue.

Definition step (s : t) (ev : Event) : t :=
  match ev with
  | Message d =>
      if listening s
      then
        let s1 := push (received (receiver s) d) s in
        if messageCount s1 <=? Z.of_nat (length (messages s1))
        then let s2 := dispose s1 in settle (Returned (messages s2)) s2
        else s1
      else s
  | Detached info =>
      if listening s then settle (Failed info) (dispose s) else s
  | TimeoutDue =>
      if receiveTimeout_armed s
      then let s1 := dispose s in settle (Returned (messages s1)) s1
      else s
  end.

Definition run (receiver : LinkRef) (messageCount : Z) (timeoutMs : option Z)
    (evs : list Event) : t :=
  fold_left step evs (start receiver messageCount timeoutMs).

(** The messages the deliveries of a trace make, in order. *)
Definition deliveries (receiver : LinkRef) (evs : list Event) : list InternalBrokeredMessage.t :=
  omap (fun ev => match ev with
                  | Message d => Some (received receiver d)
                  | _ => None
                  end) evs.

End ReceiveBatch.

(** ** [receiveBatch]: what holds between two events *)

Section BatchPredicates.
Import ReceiveBatch.

Record batch_inv (r : LinkRef) (n : Z) (timeout : option Z)
    (made : list InternalBrokeredMessage.t) (s : ReceiveBatch.t) : Prop := {
  inv_receiver : receiver s = r;
  inv_count : messageCount s = n;
  inv_credits : addCredits_calls s = [n];
  inv_timeout : timeoutMs s = default constants.serviceBusServerTimeout timeout;
  inv_timer : receiveTimeout_armed s = listening s;
  inv_prefix : messages s `prefix_of` made;
  inv_stage :
    if listening s
    then outcome s = Waiting ∧ disposeReceiver_calls s = 0%nat ∧ messages s = made ∧
         (Z.of_nat (length (messages s)) < n ∨ messages s = [])
    else disposeReceiver_calls s = 1%nat ∧
         (outcome s = Returned (messages s) ∨ ∃ info, outcome s = Failed info) ∧
         Z.of_nat (length (messages s)) <= Z.max 1 n
}.

End BatchPredicates.

(** ** receiver.ts: a message after its handler *)

Module MessageHandling.
Import InternalBrokeredMessage Settlement.

(** What [listenerFn(brokeredMessage)] did: it returned (a value, or a
    promise that was fulfilled), it returned a promise that was rejected,
    or it threw before returning anything. *)
Inductive HandlerOutcome : Type :=
| Returned
| PromiseRejected
| Threw (e : Thrown).

(** [await Promise.resolve(listenerFn(brokeredMessage)).then(() => true)
    .catch(() => false)]: the handler is called first, so what it throws
    never reaches [Promise.resolve] and leaves the [try] block. *)
Definition succeeded_of (outcome : HandlerOutcome) : result bool :=
  match outcome with
  | Returned => Ok true
  | PromiseRejected => Ok false
  | Threw e => Throw (wrapError e)
  end.

(** The end of the ['message'] listener of [_connectReceiver]: a message
    whose handler did not succeed is abandoned; a message that is not
    settled is completed when [autoComplete] is on and the handler
    succeeded; what the handler throws, and an exception of either call,
    is caught and emitted, wrapped, as a [receiverError].  The second
    component holds the errors emitted that way. *)
Definition after_handler (r : MessageRef) (outcome : HandlerOutcome) (autoComplete : bool)
    (transport_throws : option ServiceBusError) (w : World)
  : World * list ServiceBusError :=
  match succeeded_of outcome with
  | Throw e => (w, [e])
  | Ok succeeded =>
      let '(w1, abandoned) :=
        if negb succeeded then abandon r None transport_throws w else (w, Ok tt) in
      match abandoned with
      | Throw e => (w1, [wrapError (ThrownError e)])
      | Ok _ =>
          match messages w1 !! r with
          | Some m =>
              if negb (isSettled m) && autoComplete && succeeded
              then
                match complete r None transport_throws w1 with
                | (w2, Throw e) => (w2, [wrapError (ThrownError e)])
                | (w2, Ok _) => (w2, [])
                end
              else (w1, [])
          | None => (w1, [])
          end
      end
  end.

(** What the call of [settleWrap] inside [abandon] or [complete] leaves
    for the listener to emit. *)
Definition caught (res : result unit) : list ServiceBusError :=
  match res with
  | Ok _ => []
  | Throw e => [wrapError (ThrownError e)]
  end.

End MessageHandling.

(** ** The settlement of messages over sequences of calls and timers *)

Section SettlementTraces.
Import InternalBrokeredMessage Settlement.

(** A call of [abandon], [complete] or [deadLetter] on a message, or a
    settlement timer coming due; [transport_throws] is what the transport
    does with the disposition, should one be sent. *)
Inductive SettleOp : Type :=
| CallSettle (r : MessageRef) (settle : Disposition) (delayMs : option Z)
    (transport_throws : option ServiceBusError)
| TimerFires (i : nat) (transport_throws : option ServiceBusError).

(** What a call that throws has changed by then stays changed. *)
Definition settle_step (w : World) (op : SettleOp) : World :=
  match op with
  | CallSettle r settle delayMs transport_throws =>
      (_scheduleSettle r settle delayMs transport_throws w).1
  | TimerFires i transport_throws => (fire_timer i transport_throws w).1
  end.

Definition settle_run (ops : list SettleOp) (w : World) : World :=
  fold_left settle_step ops w.

(** The dispositions sent on the link [k] for the message id [id]. *)
Definition sent_for (k : LinkRef) (id : string) (w : World) : nat :=
  match links w !! k with
  | Some l => length (filter (fun d => d.2 = id) (disposition_calls l))
  | None => 0
  end.

(** The settlement timers armed for the message [r]. *)
Definition timers_of (r : MessageRef) (w : World) : list Timer :=
  filter (fun t => timer_message t = r) (timers w).

(** The name a disposition of the message goes by. *)
Definition wire_id (m : InternalBrokeredMessage.t) : string :=
  js_to_string (messageId m).

(** The same message object, whatever state it is in. *)
Definition same_message (m m' : InternalBrokeredMessage.t) : Prop :=
  fields m' = fields m ∧ _receiver m' = _receiver m ∧ _creditManager m' = _creditManager m.

(** No other message of the world goes by the name of [r] on its link. *)
Definition id_unique (r : MessageRef) (m : InternalBrokeredMessage.t) (w : World) : Prop :=
  ∀ r' m', r' ≠ r → messages w !! r' = Some m' →
    _receiver m' = _receiver m → wire_id m' ≠ wire_id m.

End SettlementTraces.

Section SettlementPredicates.
Import InternalBrokeredMessage Settlement.

(** What the calls and timers keep true of a message [r] that started out
    as [m0] with [c0] dispositions under its name: nothing is sent before the
    settlement runs, one disposition at most once it has run, one timer at
    most while a delayed settlement waits and none otherwise. *)
Definition settle_inv (r : MessageRef) (m0 : InternalBrokeredMessage.t) (c0 : nat)
    (w : World) : Prop :=
  id_unique r m0 w ∧
  ∃ m, messages w !! r = Some m ∧ same_message m0 m ∧
       (sent_for (_receiver m0) (wire_id m0) w ≤ S c0)%nat ∧
       (processingState m = ProcessingState.Active ∨
        processingState m = ProcessingState.Settling →
        sent_for (_receiver m0) (wire_id m0) w = c0) ∧
       (length (timers_of r w) ≤ 1)%nat ∧
       (processingState m ≠ ProcessingState.Settling → timers_of r w = []).

End SettlementPredicates.

Section RenewalChainPredicates.
Import Receiver.

(** The callbacks of the message [r] suspended at [renewLock]. *)
Definition renewals_of (r : MessageRef) (s : Receiver.t) : list Renewing :=
  filter (fun k => renewing_message k = r) (renewing s).

(** The renewal of a message never forks: one timer at most is armed for
    it, one callback at most waits for its [renewLock], and never both. *)
Definition one_renewal_at_a_time (s : Receiver.t) : Prop :=
  ∀ r, (∀ t1 t2, event_loop s !! t1 = Some r → event_loop s !! t2 = Some r → t1 = t2) ∧
       (length (renewals_of r s) ≤ 1)%nat ∧
       (∀ t, event_loop s !! t = Some r → renewals_of r s = []).

(** Timers and suspended callbacks belong to messages that were delivered. *)
Definition renewals_delivered (s : Receiver.t) : Prop :=
  (∀ t r, event_loop s !! t = Some r → is_Some (messages s !! r)) ∧
  (∀ k, k ∈ renewing s → is_Some (messages s !! renewing_message k)).

(** What every step of the receiver keeps. *)
Definition chain_facts (s : Receiver.t) : Prop :=
  handles_allocated s ∧ renewals_delivered s ∧ one_renewal_at_a_time s.

End RenewalChainPredicates.

Section SenderPredicates.
Import Sender.

(** The last case of the rule on [send], read as it stands: a send on a
    sender that is not disposed, which the timer does not end and which
    gets no delivery state with the descriptor 0x25, resolves. *)
Definition otherwise_resolves : Prop :=
  ∀ (message : JsObject) (link : result unit) (ev : Event) (events : list Event),
    ev ≠ TimeoutElapsed →
    (∀ d, ev = TransportResolved d → descriptor d ≠ 0x25) →
    send false message link (ev :: events) = Resolved tt.

End SenderPredicates.

(* ===================================================================== *)
(** * Part II: the properties *)
(* ===================================================================== *)

(** ** The credit manager *)

Section CreditManagerProperties.
Import CreditManager.

Lemma remove_added_not_in (t : string) (P : gset string) :
  t ∉ ({[t]} ∪ P) ∖ {[t]}.
Proof. rewrite elem_of_difference, elem_of_singleton. tauto. Qed.

Lemma remove_added (t : string) (P : gset string) :
  t ∉ P → ({[t]} ∪ P) ∖ {[t]} = P.
Proof.
  intros H. apply set_eq. intros x.
  rewrite elem_of_difference, elem_of_union, !elem_of_singleton.
  split; [tauto|]. intros Hx. split; [tauto|]. by intros ->.
Qed.

Lemma sum_credits_app (calls : list Z) (n : Z) :
  sum_credits (calls ++ [n]) = sum_credits calls + n.
Proof.
  unfold sum_credits. induction calls as [|c calls IH]; simpl; lia.
Qed.

(** What [refreshCredits] leaves alone. *)
Lemma refreshCredits_pending cm links :
  _pendingSettles (refreshCredits cm links).1.1 = _pendingSettles cm.
Proof.
  unfold refreshCredits.
  destruct (_link cm) as [r|]; [|done].
  destruct (links !! r) as [l|]; [|done].
  destruct (negb (is_attached l)); [done|].
  destruct ((0 <? _additionalCredits cm) && (linkCredit l <? _threshold cm)); done.
Qed.

Lemma refreshCredits_link cm links :
  _link (refreshCredits cm links).1.1 = _link cm.
Proof.
  unfold refreshCredits.
  destruct (_link cm) as [r|] eqn:E; [|done].
  destruct (links !! r) as [l|]; [|done].
  destruct (negb (is_attached l)); [done|].
  destruct ((0 <? _additionalCredits cm) && (linkCredit l <? _threshold cm)); done.
Qed.

(** Refreshing moves credits from the counter to the link; it neither
    creates nor loses one. *)
Lemma refreshCredits_counted cm links :
  credits_counted (refreshCredits cm links).1.1 (refreshCredits cm links).1.2
  = credits_counted cm links.
Proof.
  unfold refreshCredits, credits_counted, bound_link.
  destruct (_link cm) as [r|] eqn:E; simpl; [|by rewrite E].
  destruct (links !! r) as [l|] eqn:El; simpl; [|by rewrite E; simpl; rewrite El].
  destruct (negb (is_attached l)); simpl; [by rewrite E; simpl; rewrite El|].
  destruct ((0 <? _additionalCredits cm) && (linkCredit l <? _threshold cm)); simpl.
  - rewrite E. simpl. rewrite lookup_insert_eq. simpl.
    rewrite sum_credits_app. lia.
  - rewrite E. simpl. by rewrite El.
Qed.

Lemma counted_set_pending cm links s :
  credits_counted (set_pendingSettles s cm) links = credits_counted cm links.
Proof. reflexivity. Qed.

Lemma counted_incr cm links :
  credits_counted (set_additionalCredits (_additionalCredits cm + 1) cm) links
  = credits_counted cm links + 1.
Proof. unfold credits_counted, bound_link. simpl. lia. Qed.

(** [scheduleMessageSettle] on a token that is already pending changes
    nothing. *)
Lemma scheduleMessageSettle_pending t cm links :
  t ∈ _pendingSettles cm →
  scheduleMessageSettle t cm links = (cm, links, Ok tt).
Proof. intros H. unfold scheduleMessageSettle. by rewrite decide_True. Qed.

(** [settleMessage] on a pending token removes it and leaves the counter
    and the link alone. *)
Lemma settleMessage_pending t cm links :
  t ∈ _pendingSettles cm →
  settleMessage t cm links
  = (set_pendingSettles (_pendingSettles cm ∖ {[t]}) cm, links, Ok tt).
Proof. intros H. unfold settleMessage. by rewrite decide_True. Qed.

(** The first [scheduleMessageSettle] of a token counts one credit and
    records the token. *)
Lemma scheduleMessageSettle_fresh t cm links :
  t ∉ _pendingSettles cm →
  let '(cm', links', _) := scheduleMessageSettle t cm links in
  credits_counted cm' links' = credits_counted cm links + 1 ∧
  _pendingSettles cm' = {[t]} ∪ _pendingSettles cm.
Proof.
  intros H. unfold scheduleMessageSettle. rewrite decide_False by done.
  set (cm2 := set_pendingSettles _ _).
  pose proof (refreshCredits_counted cm2 links) as Hc.
  pose proof (refreshCredits_pending cm2 links) as Hp.
  destruct (refreshCredits cm2 links) as [[cm' links'] res]. simpl in *.
  split; [|done].
  rewrite Hc. unfold cm2. rewrite counted_set_pending. apply counted_incr.
Qed.

(** Calls after the first are no-ops: any positive number of calls has the
    effect of one. *)
Lemma scheduleMessageSettle_times_pending n t cm links :
  t ∈ _pendingSettles cm →
  scheduleMessageSettle_times n t cm links = (cm, links).
Proof.
  intros H. induction n as [|n IH]; [done|].
  simpl. by rewrite scheduleMessageSettle_pending.
Qed.

Lemma scheduleMessageSettle_times_once n t cm links :
  t ∉ _pendingSettles cm →
  scheduleMessageSettle_times (S n) t cm links
  = (scheduleMessageSettle t cm links).1.
Proof.
  intros H. simpl.
  pose proof (scheduleMessageSettle_fresh t cm links H) as Hf.
  destruct (scheduleMessageSettle t cm links) as [[cm' links'] res].
  destruct Hf as [_ Hp]. simpl.
  apply scheduleMessageSettle_times_pending. rewrite Hp. clear. set_solver.
Qed.

(** C1.  One or more [scheduleMessageSettle(t)] followed by one
    [settleMessage(t)], on a credit manager where [t] is not pending
    yet, count exactly one credit for [t]: the calls after the first are
    no-ops, [settleMessage] takes [t] out of the pending set without
    counting again, and the pending set ends as it began. *)
Theorem C1_one_credit_per_token (n : nat) (t : string) (cm : CreditManager.t) (links : LinkStore) :
  t ∉ _pendingSettles cm →
  let '(cm1, links1) := scheduleMessageSettle_times (S n) t cm links in
  let '(cm2, links2, res) := settleMessage t cm1 links1 in
  (cm1, links1) = (scheduleMessageSettle t cm links).1 ∧
  (∀ k, scheduleMessageSettle_times k t cm1 links1 = (cm1, links1)) ∧
  t ∈ _pendingSettles cm1 ∧
  credits_counted cm1 links1 = credits_counted cm links + 1 ∧
  res = Ok tt ∧
  credits_counted cm2 links2 = credits_counted cm links + 1 ∧
  _additionalCredits cm2 = _additionalCredits cm1 ∧
  links2 = links1 ∧
  (t ∉ _pendingSettles cm2) ∧
  _pendingSettles cm2 = _pendingSettles cm.
Proof.
  intros H.
  rewrite scheduleMessageSettle_times_once by done.
  pose proof (scheduleMessageSettle_fresh t cm links H) as Hf.
  destruct (scheduleMessageSettle t cm links) as [[cm1 links1] res1].
  destruct Hf as [Hc Hp]. simpl.
  assert (Hin : t ∈ _pendingSettles cm1) by (rewrite Hp; clear; set_solver).
  rewrite settleMessage_pending by done.
  repeat split; try done.
  - intros k. by apply scheduleMessageSettle_times_pending.
  - simpl. rewrite Hp. apply remove_added_not_in.
  - simpl. rewrite Hp. by apply remove_added.
Qed.

Lemma C1_one_credit_per_token_witness :
  let cm := setReceiver 0%nat (create 1 1) in
  let links : LinkStore :=
    {[ 0%nat := {| link_name := "receiver"; state := "attached"; linkCredit := 0;
                   addCredits_calls := []; disposition_calls := [] |} ]} in
  let '(cm1, links1) := scheduleMessageSettle_times 3 "token" cm links in
  let '(cm2, links2, res) := settleMessage "token" cm1 links1 in
  credits_counted cm2 links2 = credits_counted cm links + 1.
Proof.
  intros cm links.
  pose proof (C1_one_credit_per_token 2 "token" cm links) as H.
  destruct (scheduleMessageSettle_times 3 "token" cm links) as [cm1 links1].
  destruct (settleMessage "token" cm1 links1) as [[cm2 links2] res].
  apply H. subst cm. simpl. set_solver.
Defined.

End CreditManagerProperties.

Section RefreshCredits.
Import CreditManager.

(** C6.  [refreshCredits] fails with [Link.NotFound] when no link is bound;
    returns without a change when the bound link is not attached; and on an
    attached link calls [addCredits] with the counter and resets the counter
    to 0 exactly when the counter is positive and the link credit is below
    the threshold, and changes nothing otherwise. *)
Theorem C6_refreshCredits (cm : CreditManager.t) (links : LinkStore) :
  (_link cm = None →
   ∃ e, refreshCredits cm links = (cm, links, Throw e) ∧
        name e = ErrorNames.Link.NotFound) ∧
  (∀ r l, _link cm = Some r → links !! r = Some l → state l ≠ "attached" →
   refreshCredits cm links = (cm, links, Ok tt)) ∧
  (∀ r l, _link cm = Some r → links !! r = Some l → state l = "attached" →
   let '(cm', links', res) := refreshCredits cm links in
   res = Ok tt ∧
   (0 < _additionalCredits cm ∧ linkCredit l < _threshold cm →
    _additionalCredits cm' = 0 ∧
    ∃ l', links' !! r = Some l' ∧
          addCredits_calls l' = addCredits_calls l ++ [_additionalCredits cm] ∧
          linkCredit l' = linkCredit l + _additionalCredits cm) ∧
   (¬ (0 < _additionalCredits cm ∧ linkCredit l < _threshold cm) →
    cm' = cm ∧ links' = links)).
Proof.
  split; [|split].
  - intros H. unfold refreshCredits. rewrite H. eexists. split; reflexivity.
  - intros r l Hr Hl Hs. unfold refreshCredits. rewrite Hr, Hl.
    unfold is_attached. apply String.eqb_neq in Hs. by rewrite Hs.
  - intros r l Hr Hl Hs. unfold refreshCredits. rewrite Hr, Hl.
    unfold is_attached. apply String.eqb_eq in Hs. rewrite Hs. simpl.
    destruct (0 <? _additionalCredits cm) eqn:Ha;
      destruct (linkCredit l <? _threshold cm) eqn:Hc; simpl;
      try apply Z.ltb_lt in Ha; try apply Z.ltb_lt in Hc;
      try apply Z.ltb_ge in Ha; try apply Z.ltb_ge in Hc.
    + split; [done|]. split; [|intros Hn; exfalso; apply Hn; done].
      intros _. split; [done|]. eexists. rewrite lookup_insert_eq. done.
    + split; [done|]. split; [lia|done].
    + split; [done|]. split; [lia|done].
    + split; [done|]. split; [lia|done].
Qed.

Lemma C6_refreshCredits_witness :
  ∃ cm' links' l',
    refreshCredits (set_additionalCredits 2 Examples.creditManager) {[ 0%nat := Examples.link ]}
      = (cm', links', Ok tt) ∧
    _additionalCredits cm' = 0 ∧
    links' !! 0%nat = Some l' ∧
    addCredits_calls l' = [2] ∧ linkCredit l' = 2.
Proof.
  destruct (C6_refreshCredits (set_additionalCredits 2 Examples.creditManager)
              {[ 0%nat := Examples.link ]}) as (_ & _ & H).
  specialize (H 0%nat Examples.link eq_refl (lookup_singleton_eq _ _) eq_refl).
  destruct (refreshCredits _ _) as [[cm' links'] res].
  destruct H as (-> & H & _).
  destruct H as (H0 & l' & Hl & Hc & Hk); [by split|].
  exists cm', links', l'. by repeat split.
Defined.

End RefreshCredits.

(** ** Settlement of a brokered message *)

Section SettlementProperties.
Import InternalBrokeredMessage Settlement.

(** Refreshing credits touches no disposition and no link state. *)
Lemma refreshCredits_dispositions cm (ls : LinkStore) r l :
  ls !! r = Some l →
  ∃ l', (CreditManager.refreshCredits cm ls).1.2 !! r = Some l' ∧
        disposition_calls l' = disposition_calls l ∧ state l' = state l.
Proof.
  intros Hl. unfold CreditManager.refreshCredits.
  destruct (CreditManager._link cm) as [r0|]; simpl; [|eauto].
  destruct (ls !! r0) as [l0|] eqn:E0; simpl; [|eauto].
  destruct (negb (is_attached l0)); simpl; [eauto|].
  destruct (_ && _); simpl; [|eauto].
  destruct (decide (r0 = r)) as [Heq|Hne].
  - subst r0. assert (l0 = l) as -> by congruence.
    rewrite lookup_insert_eq. eauto.
  - rewrite lookup_insert_ne by done. eauto.
Qed.

Lemma settleMessage_dispositions t cm (ls : LinkStore) r l :
  ls !! r = Some l →
  ∃ l', (CreditManager.settleMessage t cm ls).1.2 !! r = Some l' ∧
        disposition_calls l' = disposition_calls l ∧ state l' = state l.
Proof.
  intros Hl. unfold CreditManager.settleMessage.
  destruct (decide _); simpl; [eauto|].
  by apply refreshCredits_dispositions.
Qed.

Lemma emit_links r event err w : links (emit r event err w) = links w.
Proof. unfold emit. by destruct (messages w !! r). Qed.

Lemma emit_calls r event err w :
  settleMessage_calls (emit r event err w) = settleMessage_calls w.
Proof. unfold emit. by destruct (messages w !! r). Qed.

Lemma emit_messages r event err w : messages (emit r event err w) = messages w.
Proof. unfold emit. by destruct (messages w !! r). Qed.

Lemma emit_emitted r event err w m :
  messages w !! r = Some m →
  ∃ e, emitted (emit r event err w) = emitted w ++ [e] ∧
       emit_message e = r ∧ emit_event e = event ∧ emit_error e = err.
Proof. intros H. unfold emit. rewrite H. eexists. by split. Qed.

(** The call in the [finally] block: logged once, and it leaves messages,
    emissions and timers as they are. *)
Lemma call_settleMessage_effect c tok w :
  let w' := (call_settleMessage c tok w).1 in
  settleMessage_calls w' = settleMessage_calls w ++ [(c, tok)] ∧
  messages w' = messages w ∧ emitted w' = emitted w ∧ timers w' = timers w ∧
  ∀ r l, links w !! r = Some l →
         ∃ l', links w' !! r = Some l' ∧
               disposition_calls l' = disposition_calls l ∧ state l' = state l.
Proof.
  unfold call_settleMessage. simpl.
  destruct (creditManagers w !! c) as [cm|] eqn:E; simpl.
  - pose proof (settleMessage_dispositions (token_key tok) cm (links w)) as Hd.
    destruct (CreditManager.settleMessage (token_key tok) cm (links w)) as [[cm' ls'] res].
    simpl in *. repeat split; done.
  - repeat split; eauto.
Qed.

(** C2.  Whenever the settlement of a message runs -- at once, or when the
    timer of a delayed settlement fires -- then: on a receiver link that is
    not attached the message becomes [SettleFailed], a [settleError] is
    emitted and no disposition is sent; when the disposition succeeds the
    message becomes [Settled] and loses its listeners; when the transport
    throws, the message becomes [SettleFailed] and a [settleError] is
    emitted; and in every one of these outcomes
    [creditManager.settleMessage(lockToken)] is called exactly once. *)
Theorem C2_settlement_outcomes (r : MessageRef) (settle : Disposition)
    (transport_throws : option ServiceBusError) (w : World)
    (m : InternalBrokeredMessage.t) (c : CreditManagerRef) (l : ReceiverLink) :
  messages w !! r = Some m →
  _creditManager m = Some c →
  links w !! _receiver m = Some l →
  (∀ delayMs, processingState m = ProcessingState.Active →
     positive_delay delayMs = false →
     _scheduleSettle r settle delayMs transport_throws w
     = settleWrap r settle transport_throws w) ∧
  (∀ i t ts, ts !! i = Some t → timer_message t = r → timer_settle t = settle →
     fire_timer i transport_throws (set_timers ts w)
     = settleWrap r settle transport_throws (set_timers (delete i ts) w)) ∧
  let w' := (settleWrap r settle transport_throws w).1 in
  settleMessage_calls w' = settleMessage_calls w ++ [(c, lockToken m)] ∧
  (state l ≠ "attached" →
     (∃ m', messages w' !! r = Some m' ∧
            processingState m' = ProcessingState.SettleFailed) ∧
     (∃ e, emitted w' = emitted w ++ [e] ∧ emit_message e = r ∧
           emit_event e = "settleError" ∧
           name (emit_error e) = ErrorNames.Message.SettleFailure) ∧
     (∃ l', links w' !! _receiver m = Some l' ∧
            disposition_calls l' = disposition_calls l)) ∧
  (state l = "attached" → transport_throws = None →
     (∃ m', messages w' !! r = Some m' ∧
            processingState m' = ProcessingState.Settled ∧ listeners m' = []) ∧
     emitted w' = emitted w ∧
     (∃ l', links w' !! _receiver m = Some l' ∧
            disposition_calls l' =
              disposition_calls l ++ [(settle, js_to_string (messageId m))])) ∧
  (state l = "attached" → ∀ err, transport_throws = Some err →
     (∃ m', messages w' !! r = Some m' ∧
            processingState m' = ProcessingState.SettleFailed) ∧
     (∃ e, emitted w' = emitted w ++ [e] ∧ emit_message e = r ∧
           emit_event e = "settleError" ∧
           name (emit_error e) = ErrorNames.Message.SettleFailure)).
Proof.
  intros Hm Hc Hl. split; [|split].
  - intros delayMs Ha Hd. unfold _scheduleSettle. rewrite Hm, Hc.
    unfold processingState in Ha. unfold processingState. rewrite Ha. simpl.
    by rewrite Hd.
  - intros i t ts Hi <- <-. unfold fire_timer. simpl. by rewrite Hi.
  - unfold settleWrap. rewrite Hm. unfold settle_try. rewrite Hl.
    unfold is_attached.
    destruct (String.eqb (state l) "attached") eqn:Hs; simpl.
    + apply String.eqb_eq in Hs.
      destruct transport_throws as [err|]; simpl; rewrite Hc.
      * set (w1 := set_message r _ _).
        set (w2 := emit r _ _ w1).
        destruct (call_settleMessage_effect c (lockToken m) w2) as (H1 & H2 & H3 & _ & H5).
        destruct (emit_emitted r BrokeredMessage.SETTLE_ERROR
                    (buildError ErrorNames.Message.SettleFailure
                       ("Encountered exception while settling message: " ++ error_to_string err) [])
                    w1 (set_processingState ProcessingState.SettleFailed m))
          as (e & He & He1 & He2 & He3).
        { apply lookup_insert_eq. }
        rewrite H1, H2, H3. subst w2. rewrite emit_messages, emit_calls.
        split; [done|]. split; [by intros Hn|]. split; [done|].
        intros _ err' _. split.
        -- eexists. split; [apply lookup_insert_eq|done].
        -- exists e. rewrite He, He1, He2, He3. done.
      * set (w2 := set_message r _ _).
        destruct (call_settleMessage_effect c (lockToken m) w2) as (H1 & H2 & H3 & _ & H5).
        rewrite H1, H2, H3. subst w2. simpl.
        split; [done|]. split; [by intros Hn|]. split; [|done].
        intros _ _. split; [|split; [done|]].
        -- eexists. split; [apply lookup_insert_eq|done].
        -- destruct (H5 (_receiver m) (dispose_message settle (js_to_string (messageId m)) l))
             as (l' & Hl' & Hd & _).
           { simpl. apply lookup_insert_eq. }
           exists l'. split; [done|]. by rewrite Hd.
    + apply String.eqb_neq in Hs. rewrite Hc.
      set (w1 := set_message r _ _).
      set (w2 := emit r _ _ w1).
      destruct (call_settleMessage_effect c (lockToken m) w2) as (H1 & H2 & H3 & _ & H5).
      destruct (emit_emitted r BrokeredMessage.SETTLE_ERROR
                  (buildError ErrorNames.Message.SettleFailure
                     ("Encountered exception while settling message: " ++
                      error_to_string
                        (buildError ErrorNames.Message.SettleFailure
                           ("Cannot settle message " ++ js_to_string (messageId m) ++
                            " because its link is not attached") [])) [])
                  w1 (set_processingState ProcessingState.SettleFailed m))
        as (e & He & He1 & He2 & He3).
      { apply lookup_insert_eq. }
      rewrite H1, H2, H3. subst w2. rewrite emit_messages, emit_calls.
      split; [done|]. split; [|split; intros Hn; by destruct Hs].
      intros _. split; [|split].
      * eexists. split; [apply lookup_insert_eq|done].
      * exists e. rewrite He, He1, He2, He3. done.
      * destruct (H5 (_receiver m) l) as (l' & Hl' & Hd & _).
        { by rewrite emit_links. }
        exists l'. done.
Qed.

Lemma C2_settlement_outcomes_witness :
  let w' := (settleWrap 0%nat accept None Examples.world).1 in
  settleMessage_calls w' = [(0%nat, lockToken Examples.message)] ∧
  ∃ m', messages w' !! 0%nat = Some m' ∧
        processingState m' = ProcessingState.Settled ∧ listeners m' = [].
Proof.
  destruct (C2_settlement_outcomes 0%nat accept None Examples.world
              Examples.message 0%nat Examples.link)
    as (_ & _ & H1 & _ & H3 & _); [reflexivity..|].
  split; [exact H1|]. apply H3; reflexivity.
Defined.

End SettlementProperties.

(** ** The lock token on the wire *)

Section LockTokenProperties.
Import AmqpRequestClient.

(** [uuid.parse] reads back what [uuid.unparse] printed. *)
Lemma hex_pairs_byte (b : Byte.byte) (rest : list ascii) :
  uuid.hex_pairs (uuid.byteToHex b ++ rest) = b :: uuid.hex_pairs rest.
Proof. destruct b; reflexivity. Qed.

Lemma hex_pairs_dash (b : Byte.byte) (rest : list ascii) :
  uuid.hex_pairs ("-"%char :: uuid.byteToHex b ++ rest)
  = uuid.hex_pairs (uuid.byteToHex b ++ rest).
Proof. reflexivity. Qed.

Lemma parse_unparse (b0 b1 b2 b3 b4 b5 b6 b7 b8 b9 b10 b11 b12 b13 b14 b15 : Byte.byte) :
  uuid.parse (uuid.unparse [b0; b1; b2; b3; b4; b5; b6; b7; b8; b9; b10; b11; b12; b13; b14; b15])
  = [b0; b1; b2; b3; b4; b5; b6; b7; b8; b9; b10; b11; b12; b13; b14; b15].
Proof.
  unfold uuid.parse, uuid.unparse.
  rewrite list_ascii_of_string_of_list_ascii.
  cbn [take drop uuid.hex_of map concat].
  repeat rewrite <- app_assoc. cbn [app].
  repeat (rewrite hex_pairs_byte || rewrite hex_pairs_dash).
  reflexivity.
Qed.

Lemma reorder_wire_order (lockTokenBytes : list Byte.byte) :
  reorder lockTokenBytes = map (fun i => nth i lockTokenBytes Byte.x00) wire_order.
Proof. reflexivity. Qed.

Lemma reorder_reorder (tok : list Byte.byte) :
  length tok = 16%nat → reorder (reorder tok) = tok.
Proof.
  intros H.
  do 16 (destruct tok as [|? tok]; [discriminate H|]).
  destruct tok; [reflexivity|discriminate H].
Qed.

(** C3, as stated, fails: the reordering is its own inverse.  On the
    delivery tag of the test-suite it gives the tag back, and no
    sixteen-byte token is changed by applying it twice. *)
Lemma C3_reorder_twice_counterexample :
  reorder (reorder Examples.deliveryTag) = Examples.deliveryTag ∧
  ¬ reorder_twice_differs.
Proof.
  split; [reflexivity|].
  intros (tok & Hlen & Hne). apply Hne. by apply reorder_reorder.
Qed.

(** C3, amended.  [renewLock] emits the bytes of a sixteen-byte lock token
    in the order 3,2,1,0, 5,4, 7,6, 8,9, 10..15; this reordering is not the
    identity, and applied twice it gives the token back, on the bytes and on
    the canonical uuid strings alike. *)
Theorem C3_reorder_is_an_involution :
  (∀ b0 b1 b2 b3 b4 b5 b6 b7 b8 b9 b10 b11 b12 b13 b14 b15 : Byte.byte,
     reorder [b0; b1; b2; b3; b4; b5; b6; b7; b8; b9; b10; b11; b12; b13; b14; b15]
     = [b3; b2; b1; b0; b5; b4; b7; b6; b8; b9; b10; b11; b12; b13; b14; b15]) ∧
  map (fun i => nth i wire_order 0%nat) wire_order = seq 0 16 ∧
  reorder Examples.deliveryTag ≠ Examples.deliveryTag ∧
  (∀ b0 b1 b2 b3 b4 b5 b6 b7 b8 b9 b10 b11 b12 b13 b14 b15 : Byte.byte,
     let tok := [b0; b1; b2; b3; b4; b5; b6; b7; b8; b9; b10; b11; b12; b13; b14; b15] in
     reorder (reorder tok) = tok ∧
     reorderedLockToken (uuid.unparse tok) = uuid.unparse (reorder tok) ∧
     reorderedLockToken (reorderedLockToken (uuid.unparse tok)) = uuid.unparse tok).
Proof.
  split; [reflexivity|]. split; [reflexivity|]. split; [discriminate|].
  intros. subst tok. split; [reflexivity|].
  assert (H : reorderedLockToken
                (uuid.unparse [b0; b1; b2; b3; b4; b5; b6; b7; b8; b9; b10; b11; b12; b13; b14; b15])
              = uuid.unparse
                  (reorder [b0; b1; b2; b3; b4; b5; b6; b7; b8; b9; b10; b11; b12; b13; b14; b15])).
  { unfold reorderedLockToken. by rewrite parse_unparse. }
  split; [exact H|].
  rewrite H. unfold reorderedLockToken.
  change (reorder [b0; b1; b2; b3; b4; b5; b6; b7; b8; b9; b10; b11; b12; b13; b14; b15])
    with [b3; b2; b1; b0; b5; b4; b7; b6; b8; b9; b10; b11; b12; b13; b14; b15].
  by rewrite parse_unparse.
Qed.

Example renewLock_token_of_the_tests :
  uuid.unparse Examples.deliveryTag = "00010203-0405-0607-0809-0a0b0c0d0e0f" ∧
  reorderedLockToken "00010203-0405-0607-0809-0a0b0c0d0e0f"
  = "03020100-0504-0706-0809-0a0b0c0d0e0f".
Proof. split; reflexivity. Qed.

End LockTokenProperties.

(** ** Connection strings *)

Section ConnectionStringProperties.
Import utility.

(** [String.append] unfolds by these two equations. *)
Lemma append_nil (s : string) : "" +:+ s = s.
Proof. reflexivity. Qed.

Lemma append_String (c : ascii) (a s : string) : String c a +:+ s = String c (a +:+ s).
Proof. reflexivity. Qed.

Lemma string_length_app (a b : string) :
  String.length (a +:+ b) = (String.length a + String.length b)%nat.
Proof.
  induction a as [|c a IH]; [done|].
  rewrite append_String. simpl. by rewrite IH.
Qed.

Lemma append_cons (a : string) (c : ascii) (b : string) :
  a +:+ String c b = (a +:+ String c "") +:+ b.
Proof.
  induction a as [|x a IH]; [done|].
  rewrite !append_String. by rewrite IH.
Qed.

Lemma substring_all (s : string) : String.substring 0 (String.length s) s = s.
Proof. induction s as [|c s IH]; simpl; [done|]. by rewrite IH. Qed.

Lemma substring_prefix (a b : string) :
  String.substring 0 (String.length a) (a +:+ b) = a.
Proof.
  induction a as [|c a IH].
  - rewrite append_nil. by destruct b.
  - rewrite append_String. simpl. by rewrite IH.
Qed.

Lemma substring_suffix (a b : string) :
  String.substring (String.length a) (String.length b) (a +:+ b) = b.
Proof.
  induction a as [|c a IH].
  - rewrite append_nil. apply substring_all.
  - rewrite append_String. simpl. exact IH.
Qed.

(** A search that fails from one starting index fails from every one. *)
Lemma indexOf_from_absent (c : ascii) (s : string) (i j : Z) :
  0 <= i → indexOf_from c s i = -1 → indexOf_from c s j = -1.
Proof.
  revert i j. induction s as [|a s IH]; intros i j Hi H; simpl in *; [done|].
  destruct (Ascii.eqb a c); [lia|].
  apply (IH (i + 1)); [lia|done].
Qed.

(** In [key=rest] with no ['='] in [key], the first ['='] is the one after
    [key]. *)
Lemma indexOf_first (c : ascii) (key rest : string) (i : Z) :
  0 <= i →
  indexOf_from c key i = -1 →
  indexOf_from c (key +:+ String c rest) i = i + Z.of_nat (String.length key).
Proof.
  revert i. induction key as [|a key IH]; intros i Hi H.
  - rewrite append_nil. simpl. rewrite Ascii.eqb_refl. lia.
  - rewrite append_String. simpl in *.
    destruct (Ascii.eqb a c); [lia|].
    rewrite IH; [lia|lia|done].
Qed.

Lemma split_part_key_value (key value : string) :
  indexOf "=" key = -1 →
  split_part (key +:+ String "=" value) = (key, value).
Proof.
  intros H. unfold split_part, indexOf in *.
  rewrite indexOf_first by (done || lia).
  unfold substring_from, substring, clamp.
  rewrite string_length_app. simpl String.length.
  f_equal.
  - replace (Z.min (Z.min (Z.max 0 0) _) _) with 0 by lia.
    replace (Z.max (Z.min (Z.max 0 0) _) _) with (Z.of_nat (String.length key)) by lia.
    replace (Z.to_nat (Z.of_nat (String.length key) - 0)) with (String.length key) by lia.
    apply substring_prefix.
  - rewrite (append_cons key "=" value).
    match goal with
    | |- String.substring (Z.to_nat ?lo) (Z.to_nat ?len) _ = _ =>
        replace (Z.to_nat lo) with (String.length (key +:+ String "=" "")) by
          (rewrite string_length_app; simpl; lia);
        replace (Z.to_nat len) with (String.length value) by lia
    end.
    apply substring_suffix.
Qed.

(** A part without ['=']: the key is empty and the value is the part. *)
Lemma split_part_no_equals (part : string) :
  indexOf "=" part = -1 → split_part part = (""%string, part).
Proof.
  intros H. unfold split_part. rewrite H.
  unfold substring_from, substring, clamp. simpl.
  f_equal.
  - replace (Z.min _ _) with 0 by lia.
    replace (Z.to_nat (Z.max _ _ - 0)) with 0%nat by lia.
    by destruct part.
  - replace (Z.min _ _) with 0 by lia.
    replace (Z.to_nat (Z.max _ _ - 0)) with (String.length part) by lia.
    apply substring_all.
Qed.

(** [split] undoes a join of parts that hold no separator. *)
Lemma split_no_separator (sep : ascii) (s : string) :
  indexOf sep s = -1 → split sep s = [s].
Proof.
  unfold indexOf. induction s as [|a s IH]; simpl; [done|].
  destruct (Ascii.eqb a sep); [lia|].
  intros H. rewrite IH; [done|]. by apply (indexOf_from_absent sep s 1).
Qed.

Lemma split_cons (sep : ascii) (p rest : string) :
  indexOf sep p = -1 →
  split sep (p +:+ String sep rest) = p :: split sep rest.
Proof.
  unfold indexOf. induction p as [|a p IH].
  - intros _. rewrite append_nil. simpl. by rewrite Ascii.eqb_refl.
  - rewrite append_String. simpl.
    destruct (Ascii.eqb a sep); [lia|].
    intros H. rewrite IH; [done|]. by apply (indexOf_from_absent sep p 1).
Qed.

Lemma split_join (sep : ascii) (p : string) (parts : list string) :
  Forall (fun q => indexOf sep q = -1) (p :: parts) →
  split sep (String.concat (String sep "") (p :: parts)) = p :: parts.
Proof.
  revert p. induction parts as [|q parts IH]; intros p H.
  - simpl. apply split_no_separator. by inversion H.
  - inversion H as [|? ? Hp Hrest]; subst.
    change (String.concat (String sep "") (p :: q :: parts))
      with (p +:+ String sep (String.concat (String sep "") (q :: parts))).
    rewrite split_cons by done. f_equal. by apply IH.
Qed.

(** What the fold of [assign] leaves under a key: the value of the last
    pair with that key. *)
Lemma fold_assign_other (pairs : list (string * string)) (acc : gmap string string) (k : string) :
  Forall (fun kv => fst kv ≠ k) pairs →
  fold_left assign pairs acc !! k = acc !! k.
Proof.
  revert acc. induction pairs as [|[k' v'] pairs IH]; intros acc H; simpl; [done|].
  inversion H as [|? ? Hk Hrest]; subst. rewrite IH by done.
  unfold assign. simpl in *. destruct (String.eqb k' "__proto__"); [done|].
  by apply lookup_insert_ne.
Qed.

Lemma fold_assign_last (before after : list (string * string)) (k v : string) :
  k ≠ "__proto__"%string →
  Forall (fun kv => fst kv ≠ k) after →
  fold_left assign (before ++ (k, v) :: after) ∅ !! k = Some v.
Proof.
  intros Hk Hafter. rewrite fold_left_app. simpl.
  rewrite fold_assign_other by done.
  unfold assign. simpl. apply String.eqb_neq in Hk. rewrite Hk.
  apply lookup_insert_eq.
Qed.

(** C10.  Each part is split at its first ['='] only: in a part [key=value]
    whose key holds no ['='], the key is the text before it and the value
    is everything after it, further ['='] included.  Hence a connection
    string made of parts without [';'] maps a key to the whole value of the
    last part that carries it. *)
Theorem C10_split_at_first_equals :
  (∀ key value, indexOf "=" key = -1 →
     split_part (key +:+ String "=" value) = (key, value)) ∧
  (∀ (before after : list string) (key value : string),
     indexOf "=" key = -1 →
     key ≠ "__proto__"%string →
     Forall (fun q => indexOf ";" q = -1) (before ++ (key +:+ String "=" value) :: after) →
     Forall (fun q => fst (split_part q) ≠ key) after →
     parseConnectionString
       (String.concat ";" (before ++ (key +:+ String "=" value) :: after)) !! key
     = Some value).
Proof.
  split; [apply split_part_key_value|].
  intros before after key value Hkey Hproto Hparts Hafter.
  unfold parseConnectionString.
  assert (Hsplit : split ";" (String.concat ";" (before ++ (key +:+ String "=" value) :: after))
                   = before ++ (key +:+ String "=" value) :: after).
  { destruct before as [|b before]; simpl app in *; by apply split_join. }
  rewrite Hsplit, map_app. simpl map.
  rewrite split_part_key_value by done.
  apply fold_assign_last; [done|].
  by apply Forall_map.
Qed.

Lemma C10_split_at_first_equals_witness :
  SharedAccessKey
    (parseConnectionString
       "Endpoint=sb://sample.servicebus.windows.net;SharedAccessKeyName=root;SharedAccessKey=a=b+c/d==")
  = Some "a=b+c/d=="%string.
Proof.
  apply (proj2 C10_split_at_first_equals
           ["Endpoint=sb://sample.servicebus.windows.net"; "SharedAccessKeyName=root"]%string
           [] "SharedAccessKey"%string "a=b+c/d=="%string).
  - reflexivity.
  - discriminate.
  - repeat constructor.
  - constructor.
Defined.

End ConnectionStringProperties.

(** ** Sending *)

Section SenderProperties.
Import Sender.

(** A settled promise stays as it is, whatever the event loop delivers
    afterwards. *)
Lemma race_settled (messageId : JsValue) (events : list Event) (r : Race) :
  race_promise r ≠ Pending →
  race_promise (fold_left (race_step messageId) events r) = race_promise r.
Proof.
  revert r. induction events as [|ev events IH]; intros r Hr; [done|].
  simpl. rewrite IH.
  - destruct ev; simpl; [| |destruct (sendTimeout_armed r); simpl];
      by destruct (race_promise r).
  - destruct ev; simpl; [| |destruct (sendTimeout_armed r); simpl];
      by destruct (race_promise r).
Qed.

(** The first event decides the race. *)
Lemma race_first (messageId : JsValue) (ev : Event) (events : list Event) :
  race_promise (race messageId (ev :: events))
  = race_promise (race_step messageId race_start ev).
Proof.
  unfold race. simpl. apply race_settled. by destruct ev.
Qed.

(** A transport error rejects [send] with the error [wrapError] maps it
    to, and a sender link that cannot be created rejects it with the
    link's error. *)
Lemma send_transport_error (message : JsObject) (err : Thrown) (events : list Event) :
  send false message (Ok tt) (TransportRejected err :: events) = Rejected (wrapError err).
Proof. unfold send. by rewrite race_first. Qed.

Lemma send_link_error (message : JsObject) (e : ServiceBusError) (events : list Event) :
  send false message (Throw e) events = Rejected e.
Proof. reflexivity. Qed.

(** C7, the last case as it is stated: the transport rejects the send, no
    timer has come due and no delivery state has come back, and [send]
    rejects with what [wrapError] makes of the transport's error; and a
    sender link that cannot be created rejects [send] with its error. *)
Lemma C7_otherwise_resolves_counterexample :
  let message := BrokeredMessage.new (JStr "hello") 1%positive "m1" in
  let err := ThrownAmqp "amqp:not-found" (JStr "The entity was not found") in
  send false message (Ok tt) [TransportRejected err] = Rejected (wrapError err) ∧
  name (wrapError err) = ErrorNames.Amqp.NotFound ∧
  send false message (Throw (buildError ErrorNames.Link.Detach "Link detached" []))
    [TransportResolved {| descriptor := 0x24 |}]
  = Rejected (buildError ErrorNames.Link.Detach "Link detached" []) ∧
  ¬ otherwise_resolves.
Proof.
  intros message err. split; [reflexivity|]. split; [reflexivity|]. split; [reflexivity|].
  intros H. specialize (H message (Ok tt) (TransportRejected err) []).
  rewrite send_transport_error in H. discriminate H; [done|intros d Hd; discriminate Hd].
Qed.

(** C7 (amended).  [send] rejects with [Send.Disposed] on a disposed
    sender; otherwise with the error of the sender link when the link
    cannot be created; otherwise the first of the transport's answer and
    the timer decides: [Send.Timeout] when the timer comes due first, what
    [wrapError] makes of the error when the transport rejects the send,
    [Send.Rejected] when the transport returns a delivery state whose
    descriptor is 0x25; and it resolves exactly when the transport returns
    a delivery state with another descriptor.  While nothing has happened
    it is pending. *)
Theorem C7_send_outcomes (message : JsObject) :
  (∀ link events,
     send true message link events
     = Rejected (buildError ErrorNames.Send.Disposed "Message not sent. Sender is disposed" [])) ∧
  (∀ events,
     ∃ e, send false message (Ok tt) (TimeoutElapsed :: events) = Rejected e ∧
          name e = ErrorNames.Send.Timeout) ∧
  (∀ d events, descriptor d = 0x25 →
     send false message (Ok tt) (TransportResolved d :: events)
     = Rejected (buildError ErrorNames.Send.Rejected "Message send rejected" [])) ∧
  (∀ d events, descriptor d ≠ 0x25 →
     send false message (Ok tt) (TransportResolved d :: events) = Resolved tt) ∧
  (∀ err events,
     send false message (Ok tt) (TransportRejected err :: events) = Rejected (wrapError err)) ∧
  (∀ e events, send false message (Throw e) events = Rejected e) ∧
  send false message (Ok tt) [] = Pending ∧
  (∀ _disposed link events,
     send _disposed message link events = Resolved tt ↔
     _disposed = false ∧ link = Ok tt ∧
     ∃ d events', events = TransportResolved d :: events' ∧ descriptor d ≠ 0x25).
Proof.
  assert (∀ d events, descriptor d ≠ 0x25 →
            send false message (Ok tt) (TransportResolved d :: events) = Resolved tt) as Hres.
  { intros d events Hd. unfold send. rewrite race_first. simpl.
    unfold AMQP_REJECTED_DESCRIPTOR.
    destruct (descriptor d =? 37) eqn:E; [|done].
    apply Z.eqb_eq in E. done. }
  assert (∀ d events, descriptor d = 0x25 →
            send false message (Ok tt) (TransportResolved d :: events)
            = Rejected (buildError ErrorNames.Send.Rejected "Message send rejected" [])) as Hrej.
  { intros d events Hd. unfold send. rewrite race_first. simpl.
    unfold AMQP_REJECTED_DESCRIPTOR. by rewrite Hd. }
  split; [done|]. split; [|split; [done|split; [done|]]].
  - intros events. unfold send. rewrite race_first. simpl. eauto.
  - split; [intros err events; apply send_transport_error|].
    split; [done|]. split; [done|].
    intros _disposed link events. split.
    + destruct _disposed; [done|]. destruct link as [[]|e]; [|done].
      destruct events as [|[d|err|] events].
      * done.
      * intros H. split; [done|]. split; [done|]. exists d, events. split; [done|].
        intros Hd. by rewrite (Hrej d events Hd) in H.
      * by rewrite send_transport_error.
      * unfold send. rewrite race_first. done.
    + intros (-> & -> & d & events' & -> & Hd). by apply Hres.
Qed.

Lemma C7_send_outcomes_witness :
  send false (BrokeredMessage.new (JStr "hello") 1%positive "m1") (Ok tt)
    [TransportResolved {| descriptor := 0x25 |}; TimeoutElapsed]
  = Rejected (buildError ErrorNames.Send.Rejected "Message send rejected" []) ∧
  send false (BrokeredMessage.new (JStr "hello") 1%positive "m1") (Ok tt)
    [TransportResolved {| descriptor := 0x24 |}; TimeoutElapsed]
  = Resolved tt.
Proof.
  destruct (C7_send_outcomes (BrokeredMessage.new (JStr "hello") 1%positive "m1"))
    as (_ & _ & H3 & H4 & _).
  split; [apply H3; reflexivity|apply H4; discriminate].
Defined.

End SenderProperties.

(** ** The outbound and inbound field mapping *)

Section FieldMappingProperties.
Import BrokeredMessage.

Lemma get_insert_eq (o : JsObject) (k : string) (v : JsValue) : get (<[k := v]> o) k = v.
Proof. unfold get. by rewrite lookup_insert_eq. Qed.

Lemma get_insert_ne (o : JsObject) (k k' : string) (v : JsValue) :
  k ≠ k' → get (<[k := v]> o) k' = get o k'.
Proof. intros H. unfold get. by rewrite lookup_insert_ne. Qed.

Lemma get_setIfDefined_ne (o : JsObject) (k k' : string) (v : JsValue) :
  k ≠ k' → get (setIfDefined o k v) k' = get o k'.
Proof. intros H. destruct v; simpl; try done; by apply get_insert_ne. Qed.

(** A key that was undefined before reads as the value afterwards, also
    when the value is [undefined] and nothing was stored. *)
Lemma get_setIfDefined_eq (o : JsObject) (k : string) (v : JsValue) :
  get o k = JUndefined → get (setIfDefined o k v) k = v.
Proof. intros H. destruct v; simpl; try done; by apply get_insert_eq. Qed.

Lemma get_empty (k : string) : get ∅ k = JUndefined.
Proof. reflexivity. Qed.

Lemma get_singleton_ne (k k' : string) (v : JsValue) :
  k ≠ k' → get {[ k := v ]} k' = JUndefined.
Proof. intros H. unfold get. by rewrite lookup_singleton_ne. Qed.

Lemma get_singleton_eq (k : string) (v : JsValue) : get {[ k := v ]} k = v.
Proof. unfold get. by rewrite lookup_singleton_eq. Qed.

Ltac simpl_get :=
  repeat first
    [ rewrite get_insert_eq
    | rewrite get_insert_ne by discriminate
    | rewrite get_setIfDefined_ne by discriminate
    | rewrite get_singleton_eq
    | rewrite get_singleton_ne by discriminate
    | rewrite get_empty ].

(** What the inbound message shows for each field of the outbound one. *)
Lemma inbound_reads_outbound (f : Field) (m : JsObject) deliveryTag fp fd fu :
  read f (inbound_of_outbound m deliveryTag fp fd fu) =
  match f with
  | body => js_or (read body m) JNull
  | scheduledEnqueueTimeUtc => JUndefined
  | _ => read f m
  end.
Proof.
  unfold inbound_of_outbound, InternalBrokeredMessage.new, _brokeredMessageToAmqpMessage,
    BrokeredMessage.new.
  cbn [InternalBrokeredMessage.fields amqp_body amqp_header amqp_messageAnnotations
       amqp_properties amqp_applicationProperties default from_option id].
  destruct f; unfold read; cbn [slot]; simpl_get; try reflexivity;
    rewrite get_setIfDefined_eq; simpl_get; reflexivity.
Qed.

Lemma read_write (f : Field) (v : JsValue) (m m' : JsObject) :
  write f v m = Ok m' → read f m' = v.
Proof.
  unfold write. destruct (verify f v); [|done].
  intros [= <-]. apply get_insert_eq.
Qed.

(** C5, as stated, fails: the inbound constructor never reads the
    [x-opt-scheduled-enqueue-time] annotation, so [scheduledEnqueueTimeUtc]
    comes back undefined; and a body that is falsy ([0], here) comes back
    as [null]. *)
Lemma C5_round_trip_counterexample :
  let m := BrokeredMessage.new (JNum 0) 1%positive "m1" in
  write scheduledEnqueueTimeUtc (JDate 1000) m
    = Ok (<["_scheduledEnqueueTimeUtc" := JDate 1000]> m) ∧
  read scheduledEnqueueTimeUtc
    (inbound_of_outbound (<["_scheduledEnqueueTimeUtc" := JDate 1000]> m)
       Examples.deliveryTag 2%positive 3%positive "m2") = JUndefined ∧
  read body m = JNum 0 ∧
  read body (inbound_of_outbound m Examples.deliveryTag 2%positive 3%positive "m2") = JNull ∧
  ¬ every_field_round_trips.
Proof.
  intros m. split; [reflexivity|]. split; [by rewrite inbound_reads_outbound|].
  split; [reflexivity|]. split; [by rewrite inbound_reads_outbound|].
  intros H.
  specialize (H scheduledEnqueueTimeUtc (JDate 1000) m _
                Examples.deliveryTag 2%positive 3%positive "m2"%string eq_refl).
  rewrite inbound_reads_outbound in H. discriminate H.
Qed.

(** C5, amended.  Every field of the outbound table other than
    [scheduledEnqueueTimeUtc], once set on a message, reads the same on the
    inbound message rebuilt from the outbound translation; for [body] this
    holds when the body is truthy or [null]. *)
Theorem C5_fields_round_trip (f : Field) (v : JsValue) (m m' : JsObject)
    (deliveryTag : list Byte.byte) (fp fd : positive) (fu : string) :
  write f v m = Ok m' →
  f ≠ scheduledEnqueueTimeUtc →
  (f = body → truthy v = true ∨ v = JNull) →
  read f (inbound_of_outbound m' deliveryTag fp fd fu) = v.
Proof.
  intros Hw Hf Hb. rewrite inbound_reads_outbound.
  pose proof (read_write f v m m' Hw) as Hr.
  destruct f; try done.
  rewrite Hr. unfold js_or.
  destruct (Hb eq_refl) as [Ht| ->]; [by rewrite Ht|done].
Qed.

Lemma C5_fields_round_trip_witness :
  let m := BrokeredMessage.new (JStr "hello") 1%positive "m1" in
  read partitionKey
    (inbound_of_outbound (<["_partitionKey" := JStr "pk"]> m)
       Examples.deliveryTag 2%positive 3%positive "m2") = JStr "pk".
Proof.
  intros m.
  apply (C5_fields_round_trip partitionKey (JStr "pk") m); [reflexivity|discriminate|discriminate].
Defined.

End FieldMappingProperties.

(** ** The connection pool *)

Section ClientManagerProperties.
Import ClientManager.

Lemma handle_cleared_init : handle_cleared init.
Proof. intros r c H. change (store init) with (∅ : gmap nat AMQPClientState) in H. by rewrite lookup_empty in H. Qed.

Lemma handle_cleared_getAMQPClient (n : Z) (s : ClientManager.t) :
  handle_cleared s → handle_cleared (getAMQPClient n s).1.
Proof.
  intros Inv. unfold getAMQPClient, _getAMQPClient.
  destruct (find_client (store s) n (_clients s)) as [r0|]; simpl.
  - destruct (store s !! r0) as [c0|] eqn:E0; simpl; [|done].
    intros r c; simpl. destruct (decide (r = r0)) as [->|Hne].
    + rewrite lookup_insert_eq. by intros [= <-].
    + rewrite lookup_insert_ne by done. apply Inv.
  - intros r c; simpl. destruct (decide (r = fresh_ref s)) as [->|Hne].
    + rewrite lookup_insert_eq. by intros [= <-].
    + rewrite lookup_insert_ne by done. apply Inv.
Qed.

Lemma handle_cleared_scheduleCleanup (r0 : ClientRef) (s : ClientManager.t) :
  (∀ c, store s !! r0 = Some c → linksCount c = 0) →
  handle_cleared s → handle_cleared (_scheduleCleanup r0 s).
Proof.
  intros H0 Inv. unfold _scheduleCleanup.
  destruct (store s !! r0) as [c0|] eqn:E0; [|done].
  destruct (cleanupTimer c0); [done|]. simpl.
  intros r c; simpl. destruct (decide (r = r0)) as [->|Hne].
  - rewrite lookup_insert_eq. intros [= <-]. simpl.
    rewrite (H0 c0 eq_refl). lia.
  - rewrite lookup_insert_ne by done. apply Inv.
Qed.

Lemma handle_cleared_dispose_lease (l : Lease) (s : ClientManager.t) :
  0 <= lease_numLinks l →
  handle_cleared s → handle_cleared (dispose_lease l s).
Proof.
  intros Hn Inv. unfold dispose_lease.
  destruct (store s !! lease_client l) as [c0|] eqn:E0; [|done].
  set (n := if 0 <=? _ then _ else 0).
  assert (Hs1 : handle_cleared
                  (update_client (lease_client l)
                     {| linksCount := n; cleanupTimer := cleanupTimer c0 |} s)).
  { intros r c; simpl. destruct (decide (r = lease_client l)) as [->|Hne].
    - rewrite lookup_insert_eq. intros [= <-]. simpl. intros Hpos.
      apply (Inv _ _ E0). subst n.
      destruct (0 <=? linksCount c0 - lease_numLinks l); lia.
    - rewrite lookup_insert_ne by done. apply Inv. }
  destruct (n =? 0) eqn:En; [|done].
  apply handle_cleared_scheduleCleanup; [|done].
  intros c. simpl. rewrite lookup_insert_eq. intros [= <-]. simpl.
  by apply Z.eqb_eq.
Qed.

Lemma cleanupClient_store (r : ClientRef) (s : ClientManager.t) :
  store (_cleanupClient r s) = store s.
Proof.
  unfold _cleanupClient. destruct (store s !! r); [|done].
  by destruct (_ && _).
Qed.

Lemma handle_cleared_step (s : ClientManager.t) (op : Op) :
  op_ok op → handle_cleared s → handle_cleared (step s op).
Proof.
  intros Hok Inv. destruct op as [n|l|tid|i b|]; simpl in *.
  - by apply handle_cleared_getAMQPClient.
  - by apply handle_cleared_dispose_lease.
  - unfold fire_timer. destruct (event_loop s !! tid); [|done].
    intros r c. rewrite cleanupClient_store. apply Inv.
  - unfold resume. destruct (continuations s !! i) as [[r0 stage]|]; [|done].
    destruct (negb b); [done|]. destruct stage; [done|].
    intros r c; simpl. destruct (store s !! r0) as [c0|] eqn:E0; [|apply Inv].
    destruct (decide (r = r0)) as [->|Hne].
    + rewrite lookup_insert_eq. by intros [= <-].
    + rewrite lookup_insert_ne by done. apply Inv.
  - done.
Qed.

(** In every interleaving of acquisitions, releases, timer firings and
    disposals, a client with a positive link count has a cleared handle. *)
Lemma handle_cleared_run (ops : list Op) :
  Forall op_ok ops → handle_cleared (run ops).
Proof.
  unfold run. generalize init handle_cleared_init.
  induction ops as [|op ops IH]; intros s Inv Hok; [done|].
  inversion Hok; subst. simpl. apply IH; [|done].
  by apply handle_cleared_step.
Qed.

(** A cleanup timer that fires while its client holds links changes
    neither the pool nor the client states, and disconnects nothing. *)
Lemma fire_timer_while_leased (tid : TimerId) (r : ClientRef) (c : AMQPClientState)
    (s : ClientManager.t) :
  event_loop s !! tid = Some r → store s !! r = Some c → 0 < linksCount c →
  let s' := fire_timer tid s in
  _clients s' = _clients s ∧ store s' = store s ∧
  continuations s' = continuations s ∧ disconnect_calls s' = disconnect_calls s ∧
  event_loop s' = delete tid (event_loop s).
Proof.
  intros Ht Hr Hpos. unfold fire_timer. rewrite Ht.
  unfold _cleanupClient. simpl. rewrite Hr.
  replace (linksCount c =? 0) with false by (symmetry; apply Z.eqb_neq; lia).
  by rewrite andb_false_r.
Qed.

(** Taking a client again clears its handle and leaves the event loop as
    it is: [clearTimeout] is not called. *)
Lemma getAMQPClient_keeps_timers (n : Z) (s : ClientManager.t) :
  event_loop (getAMQPClient n s).1 = event_loop s.
Proof.
  unfold getAMQPClient, _getAMQPClient.
  destruct (find_client (store s) n (_clients s)) as [r0|]; simpl; [|done].
  by destruct (store s !! r0).
Qed.

(** C4 on the code.  After [getAMQPClient(1)], [dispose()] and
    [getAMQPClient(1)] the client holds one link, its [cleanupTimer] field
    is [null], and the timer that [dispose()] armed is still in the event
    loop.  One more [dispose()] arms a second timer; when the first one
    then comes due it takes the client out of the pool although the idle
    delay of the last release has only begun. *)
Theorem C4_cleanup_timer_not_cancelled :
  let lease := {| lease_client := 0%nat; lease_numLinks := 1 |} in
  let leased := run [Acquire 1; Release lease; Acquire 1] in
  let reaped := run [Acquire 1; Release lease; Acquire 1; Release lease; Fire 0%nat] in
  store leased !! 0%nat = Some {| linksCount := 1; cleanupTimer := None |} ∧
  event_loop leased !! 0%nat = Some 0%nat ∧
  timer_running 0%nat leased ∧
  ¬ no_timer_while_leased ∧
  _clients reaped = [] ∧
  store reaped !! 0%nat = Some {| linksCount := 0; cleanupTimer := Some 1%nat |} ∧
  event_loop reaped !! 1%nat = Some 0%nat.
Proof.
  intros lease leased reaped.
  assert (H1 : store leased !! 0%nat = Some {| linksCount := 1; cleanupTimer := None |})
    by (vm_compute; reflexivity).
  assert (H2 : event_loop leased !! 0%nat = Some 0%nat) by (vm_compute; reflexivity).
  split; [exact H1|]. split; [exact H2|].
  split; [by exists 0%nat|]. split.
  - intros H.
    apply (H [Acquire 1; Release lease; Acquire 1]) with (r := 0%nat)
      (c := {| linksCount := 1; cleanupTimer := None |}).
    + repeat constructor; simpl; lia.
    + exact H1.
    + simpl. lia.
    + by exists 0%nat.
  - repeat split; vm_compute; reflexivity.
Qed.

End ClientManagerProperties.

(** ** The management request client *)

Section RequestClientProperties.
Import AmqpRequestClient.

Lemma view_finish_other (m0 m : string) (o : Outcome) (s : AmqpRequestClient.t) :
  m ≠ m0 → view m (finish m0 o s) = view m s.
Proof.
  intros H. unfold view, finish. simpl.
  rewrite lookup_insert_ne by done.
  rewrite lookup_alter_ne by done.
  by rewrite !lookup_delete_ne by done.
Qed.

Lemma finish_open (m : string) (o : Outcome) (s : AmqpRequestClient.t) :
  fired s !! m = None → results s !! m = Some Pending →
  closed m o (finish m o s).
Proof.
  intros Hf Hr. unfold closed, view, finish. simpl.
  rewrite lookup_insert_eq, Hf. simpl.
  rewrite lookup_alter_eq, Hr. simpl.
  rewrite !lookup_delete_eq.
  by destruct (settlement m o).
Qed.

Lemma event_loop_finish (m : string) (o : Outcome) (s : AmqpRequestClient.t) :
  event_loop (finish m o s) =
  match _requestTimeouts s !! m with
  | Some tid => delete tid (event_loop s)
  | None => event_loop s
  end.
Proof. reflexivity. Qed.

(** A callback on an open request closes it and keeps the bookkeeping. *)
Lemma consistent_finish (m0 : string) (o : Outcome) (s : AmqpRequestClient.t) :
  consistent s →
  fired s !! m0 = None → results s !! m0 = Some Pending →
  consistent (finish m0 o s).
Proof.
  intros [T1 J B2 N S] Hf Hr. split.
  - intros tid m. rewrite event_loop_finish.
    change (_requestTimeouts (finish m0 o s)) with (delete m0 (_requestTimeouts s)).
    destruct (_requestTimeouts s !! m0) as [tid0|] eqn:E0.
    + intros H. apply lookup_delete_Some in H as [Hne H].
      pose proof (T1 _ _ H) as Ht.
      assert (m0 ≠ m) by (intros Heq; subst m; congruence).
      by rewrite lookup_delete_ne.
    + intros H. pose proof (T1 _ _ H) as Ht.
      assert (m0 ≠ m) by (intros Heq; subst m; congruence).
      by rewrite lookup_delete_ne.
  - intros m1 m2 tid.
    change (_requestTimeouts (finish m0 o s)) with (delete m0 (_requestTimeouts s)).
    intros H1 H2. apply lookup_delete_Some in H1 as [_ H1].
    apply lookup_delete_Some in H2 as [_ H2]. eauto.
  - intros m tid.
    change (_requestTimeouts (finish m0 o s)) with (delete m0 (_requestTimeouts s)).
    intros H. apply lookup_delete_Some in H as [_ H]. by apply (B2 m).
  - intros m Hm.
    change (results (finish m0 o s)) with
      (alter (fun p => match p, settlement m0 o with Pending, q => q | p, _ => p end)
         m0 (results s)).
    rewrite lookup_alter. case_decide; [subst m|by apply N].
    rewrite Hr. simpl. by destruct (settlement m0 o).
  - intros m. destruct (decide (m = m0)) as [->|Hne].
    + right. right. exists o. by apply finish_open.
    + unfold idle, open, closed. rewrite (view_finish_other m0 m o s Hne). apply S.
Qed.

Lemma timeouts_armed_finish (m0 : string) (o : Outcome) (s : AmqpRequestClient.t) :
  consistent s → timeouts_armed s → timeouts_armed (finish m0 o s).
Proof.
  intros [T1 J B2 N S] A m tid.
  change (_requestTimeouts (finish m0 o s)) with (delete m0 (_requestTimeouts s)).
  intros H. apply lookup_delete_Some in H as [Hne H].
  rewrite event_loop_finish.
  destruct (_requestTimeouts s !! m0) as [tid0|] eqn:E0; [|by apply A].
  rewrite lookup_delete_ne; [by apply A|].
  intros Heq. subst tid0. apply Hne. by apply (J m0 m tid).
Qed.

Lemma advances_refl m s : advances m s s.
Proof. by left. Qed.

Lemma advances_trans m s1 s2 s3 :
  advances m s1 s2 → advances m s2 s3 → advances m s1 s3.
Proof.
  intros [H1|[Ho1 [o1 Hc1]]] [H2|[Ho2 [o2 Hc2]]].
  - left. congruence.
  - right. split; [|by exists o2]. destruct Ho2 as [tid Ht]. exists tid. congruence.
  - right. split; [done|]. exists o1. unfold closed in *. congruence.
  - exfalso. destruct Ho2 as [tid Ht]. unfold closed in Hc1. congruence.
Qed.

(** Invariants only read the maps, the timers and the log of sent ids. *)
Lemma consistent_same (s s' : AmqpRequestClient.t) :
  (∀ m, view m s' = view m s) →
  (∀ tid m, event_loop s' !! tid = Some m → event_loop s !! tid = Some m) →
  next_timer s' = next_timer s → sent s' = sent s →
  consistent s → consistent s'.
Proof.
  intros Hv He Hn Hs [T1 J B2 N S].
  assert (Ht : ∀ m, _requestTimeouts s' !! m = _requestTimeouts s !! m).
  { intros m. specialize (Hv m). unfold view in Hv. congruence. }
  assert (Hr : ∀ m, results s' !! m = results s !! m).
  { intros m. specialize (Hv m). unfold view in Hv. congruence. }
  split.
  - intros tid m H. rewrite Ht. eauto.
  - intros m1 m2 tid. rewrite !Ht. eauto.
  - intros m tid. rewrite Ht, Hn. eauto.
  - intros m. rewrite Hs, Hr. eauto.
  - intros m. unfold idle, open, closed. rewrite Hv. apply S.
Qed.

Lemma stage_of_timeout (s : AmqpRequestClient.t) (m : string) (tid : TimerId) :
  consistent s → _requestTimeouts s !! m = Some tid →
  fired s !! m = None ∧ results s !! m = Some Pending ∧ open m s.
Proof.
  intros C H. destruct (stages s C m) as [Hi|[Ho|[o Hc]]].
  - unfold idle, view in Hi. congruence.
  - destruct Ho as [tid' Hv]. unfold view in Hv.
    repeat split; [congruence..|]. by exists tid'.
  - unfold closed, view in Hc. congruence.
Qed.

Lemma stage_of_pending (s : AmqpRequestClient.t) (m h : string) :
  consistent s → _pendingRequests s !! m = Some h →
  h = m ∧ fired s !! m = None ∧ results s !! m = Some Pending ∧ open m s.
Proof.
  intros C H. destruct (stages s C m) as [Hi|[Ho|[o Hc]]].
  - unfold idle, view in Hi. congruence.
  - destruct Ho as [tid' Hv]. unfold view in Hv.
    repeat split; [congruence..|]. by exists tid'.
  - unfold closed, view in Hc. congruence.
Qed.

Lemma stage_of_termination (s : AmqpRequestClient.t) (m h : string) :
  consistent s → _requestTerminations s !! m = Some h →
  h = m ∧ fired s !! m = None ∧ results s !! m = Some Pending ∧ open m s.
Proof.
  intros C H. destruct (stages s C m) as [Hi|[Ho|[o Hc]]].
  - unfold idle, view in Hi. congruence.
  - destruct Ho as [tid' Hv]. unfold view in Hv.
    repeat split; [congruence..|]. by exists tid'.
  - unfold closed, view in Hc. congruence.
Qed.

Lemma advances_finish (m0 m : string) (o : Outcome) (s : AmqpRequestClient.t) :
  open m0 s → advances m s (finish m0 o s).
Proof.
  intros Ho. destruct (decide (m = m0)) as [->|Hne].
  - right. split; [done|]. exists o. destruct Ho as [tid Hv]. unfold view in Hv.
    apply finish_open; congruence.
  - left. by apply view_finish_other.
Qed.

(** *** Admission *)

Lemma sendRequest_admitted (m : string) (s : AmqpRequestClient.t) :
  consistent s → timeouts_armed s → idle m s →
  let s' := (_sendRequest m s).1 in
  consistent s' ∧ timeouts_armed s' ∧
  (∀ m', m' ≠ m → view m' s' = view m' s) ∧
  (s' = s ∨ (open m s' ∧ m ∈ sent s')).
Proof.
  intros C A Hi. unfold _sendRequest.
  destruct (negb (sender_canSend s) || negb (String.eqb (receiver_state s) "attached")).
  { simpl. split; [done|]. split; [done|]. split; [done|]. by left. }
  simpl. destruct C as [T1 J B2 N S].
  unfold idle, view in Hi.
  assert (Hto : _requestTimeouts s !! m = None) by congruence.
  assert (Hfresh : ∀ tid m', event_loop s !! tid = Some m' → (tid < next_timer s)%nat).
  { intros tid m' H. apply (B2 m'). by apply T1. }
  split; [split|split; [|split]]; simpl.
  - intros tid m'. destruct (decide (tid = next_timer s)) as [->|Hne].
    + rewrite lookup_insert_eq. intros [= <-]. by rewrite lookup_insert_eq.
    + rewrite lookup_insert_ne by done. intros H.
      assert (m ≠ m') by (intros Heq; subst m'; apply T1 in H; congruence).
      rewrite lookup_insert_ne by done. by apply T1.
  - intros m1 m2 tid.
    destruct (decide (m = m1)) as [<-|H1]; destruct (decide (m = m2)) as [<-|H2]; try done.
    + rewrite lookup_insert_eq, lookup_insert_ne by done.
      intros [= <-] H. apply B2 in H. lia.
    + rewrite lookup_insert_eq, lookup_insert_ne by done.
      intros H [= <-]. apply B2 in H. lia.
    + rewrite !lookup_insert_ne by done. apply J.
  - intros m' tid. destruct (decide (m = m')) as [<-|H1].
    + rewrite lookup_insert_eq. intros [= <-]. lia.
    + rewrite lookup_insert_ne by done. intros H. apply B2 in H. lia.
  - intros m' Hm'. destruct (decide (m = m')) as [<-|H1].
    + by rewrite lookup_insert_eq.
    + rewrite lookup_insert_ne by done. apply N.
      apply elem_of_app in Hm' as [Hm'|Hm']; [done|].
      apply list_elem_of_singleton in Hm'. congruence.
  - intros m'. destruct (decide (m = m')) as [<-|H1].
    + right. left. exists (next_timer s). unfold view. simpl.
      rewrite !lookup_insert_eq. by replace (fired s !! m) with (@None (list Outcome)) by congruence.
    + unfold idle, open, closed, view. simpl.
      rewrite !lookup_insert_ne by done. apply S.
  - unfold timeouts_armed. simpl.
    intros m' tid. destruct (decide (m = m')) as [<-|H1].
    + rewrite lookup_insert_eq. intros [= <-]. by rewrite lookup_insert_eq.
    + rewrite lookup_insert_ne by done. intros H.
      pose proof (B2 _ _ H). rewrite lookup_insert_ne by lia. by apply A.
  - intros m' Hne. unfold view. simpl. by rewrite !lookup_insert_ne by done.
  - right. split.
    + exists (next_timer s). unfold view. simpl.
      rewrite !lookup_insert_eq. by replace (fired s !! m) with (@None (list Outcome)) by congruence.
    + apply elem_of_app. right. by apply list_elem_of_singleton.
Qed.

(** *** The three callbacks *)

Lemma turn_refl s : consistent s → timeouts_armed s → turn s s.
Proof.
  intros C A. split; [done|]. split; [done|]. split; [|done].
  intros m. apply advances_refl.
Qed.

Lemma turn_trans s1 s2 s3 : turn s1 s2 → turn s2 s3 → turn s1 s3.
Proof.
  intros (C2 & A2 & H2 & S2) (C3 & A3 & H3 & S3).
  split; [done|]. split; [done|]. split; [|congruence].
  intros m. eapply advances_trans; eauto.
Qed.

Lemma turn_finish (m0 : string) (o : Outcome) (s : AmqpRequestClient.t) :
  consistent s → timeouts_armed s → open m0 s → turn s (finish m0 o s).
Proof.
  intros C A Ho. destruct Ho as [tid Hv]. pose proof Hv as Hv'. unfold view in Hv'.
  split; [|split; [|split]].
  - apply consistent_finish; [done|congruence..].
  - by apply timeouts_armed_finish.
  - intros m. apply advances_finish. by exists tid.
  - done.
Qed.

(** A state that differs in the listeners, the link states, the returned
    promises or the emitted errors only. *)
Lemma turn_same (s s' : AmqpRequestClient.t) :
  consistent s → timeouts_armed s →
  (∀ m, view m s' = view m s) →
  event_loop s' = event_loop s → next_timer s' = next_timer s → sent s' = sent s →
  turn s s'.
Proof.
  intros C A Hv He Hn Hs. split; [|split; [|split]].
  - apply (consistent_same s s'); try done. intros tid m. by rewrite He.
  - intros m tid H. rewrite He. apply A.
    specialize (Hv m). unfold view in Hv. congruence.
  - intros m. left. apply Hv.
  - done.
Qed.

Lemma response_listener_finish (response : AmqpResponse) (s : AmqpRequestClient.t) :
  consistent s →
  response_listener response s =
  match _pendingRequests s !! correlationId response with
  | Some _ => finish (correlationId response) (ByResponse response) s
  | None =>
      emit_error (buildError ErrorNames.Internal.OrphanedResponse
                    "Received an orphaned response on request client" []) s
  end.
Proof.
  intros C. unfold response_listener.
  destruct (_pendingRequests s !! correlationId response) as [h|] eqn:E; [|done].
  destruct (stage_of_pending s _ _ C E) as (-> & _).
  unfold handler, finish, cleanupRequest. simpl.
  by rewrite delete_delete_eq.
Qed.

Lemma turn_response_listener (response : AmqpResponse) (s : AmqpRequestClient.t) :
  consistent s → timeouts_armed s → turn s (response_listener response s).
Proof.
  intros C A. rewrite response_listener_finish by done.
  destruct (_pendingRequests s !! correlationId response) as [h|] eqn:E.
  - destruct (stage_of_pending s _ _ C E) as (_ & _ & _ & Ho). by apply turn_finish.
  - by apply turn_same.
Qed.

Lemma turn_on_message (response : AmqpResponse) (s : AmqpRequestClient.t) :
  consistent s → timeouts_armed s → turn s (on_message response s).
Proof.
  intros C A. unfold on_message.
  induction (message_listeners s) as [|n IH]; simpl; [by apply turn_refl|].
  eapply turn_trans; [exact IH|].
  destruct IH as (C' & A' & _). by apply turn_response_listener.
Qed.

Lemma fire_timer_finish (tid : TimerId) (s : AmqpRequestClient.t) :
  consistent s →
  fire_timer tid s =
  match event_loop s !! tid with
  | Some m => finish m ByTimeout s
  | None => s
  end.
Proof.
  intros C. unfold fire_timer.
  destruct (event_loop s !! tid) as [m|] eqn:E; [|done].
  pose proof (timers_registered s C _ _ E) as Ht.
  unfold on_timeout, finish, cleanupRequest. simpl. rewrite Ht.
  by rewrite delete_delete_eq.
Qed.

Lemma turn_fire_timer (tid : TimerId) (s : AmqpRequestClient.t) :
  consistent s → timeouts_armed s → turn s (fire_timer tid s).
Proof.
  intros C A. rewrite fire_timer_finish by done.
  destruct (event_loop s !! tid) as [m|] eqn:E; [|by apply turn_refl].
  pose proof (timers_registered s C _ _ E) as Ht.
  destruct (stage_of_timeout s _ _ C Ht) as (_ & _ & Ho). by apply turn_finish.
Qed.

(** *** Termination of every pending request

    While the terminators run, timers may already be cleared (as in
    [dispose()]): the fold is stated without [timeouts_armed]. *)

Lemma terminate_fold (l : list (string * string)) (acc : AmqpRequestClient.t) :
  consistent acc → NoDup l.*2 → (∀ kv, kv ∈ l → open kv.2 acc) →
  let r := fold_left (fun acc kv => terminationFn kv.2 acc) l acc in
  consistent r ∧
  (∀ m, m ∈ l.*2 → closed m ByTerminator r) ∧
  (∀ m, m ∉ l.*2 → view m r = view m acc) ∧
  next_timer r = next_timer acc ∧ sent r = sent acc ∧
  (∀ tid m, event_loop r !! tid = Some m → event_loop acc !! tid = Some m).
Proof.
  revert acc. induction l as [|kv l IH]; intros acc C Hnd Hopen.
  { simpl. split; [done|]. split; [|done]. intros m H. by apply elem_of_nil in H. }
  simpl. rewrite fmap_cons in Hnd. apply NoDup_cons in Hnd as [Hnotin Hnd].
  assert (Ho : open kv.2 acc) by (apply Hopen; by left).
  assert (C' : consistent (finish kv.2 ByTerminator acc)).
  { destruct Ho as [tid Hv]. unfold view in Hv. apply consistent_finish; [done|congruence..]. }
  assert (Hopen' : ∀ kv', kv' ∈ l → open kv'.2 (finish kv.2 ByTerminator acc)).
  { intros kv' Hin. assert (kv'.2 ≠ kv.2).
    { intros Heq. apply Hnotin. rewrite <- Heq. apply list_elem_of_fmap. by exists kv'. }
    unfold open. rewrite view_finish_other by done. apply Hopen. by right. }
  destruct (IH (finish kv.2 ByTerminator acc) C' Hnd Hopen')
    as (Cr & Hcl & Hfr & Hn & Hs & He).
  change (terminationFn kv.2 acc) with (finish kv.2 ByTerminator acc).
  split; [done|]. split; [|split; [|split; [|split]]].
  - intros m Hm. apply elem_of_cons in Hm as [->|Hm]; [|by apply Hcl].
    unfold closed. rewrite Hfr by done.
    destruct Ho as [tid Hv]. unfold view in Hv. apply finish_open; congruence.
  - intros m Hm. apply not_elem_of_cons in Hm as [Hne Hm].
    rewrite Hfr by done. by apply view_finish_other.
  - done.
  - done.
  - intros tid m H. apply He in H. rewrite event_loop_finish in H.
    destruct (_requestTimeouts acc !! kv.2); [|done].
    by apply lookup_delete_Some in H as [_ H].
Qed.

(** Running every terminator closes every open request and leaves no
    request open. *)
Lemma terminateRequests_closes (s : AmqpRequestClient.t) :
  consistent s →
  let r := _terminateRequests s in
  consistent r ∧
  (∀ m, open m s → closed m ByTerminator r) ∧
  (∀ m, ¬ open m s → view m r = view m s) ∧
  next_timer r = next_timer s ∧ sent r = sent s ∧
  (∀ tid m, event_loop r !! tid = Some m → event_loop s !! tid = Some m).
Proof.
  intros C. unfold _terminateRequests.
  set (l := map_to_list (_requestTerminations s)).
  assert (Hl : ∀ kv, kv ∈ l → kv.2 = kv.1 ∧ open kv.1 s).
  { intros [k h] Hin. apply elem_of_map_to_list in Hin.
    destruct (stage_of_termination s _ _ C Hin) as (-> & _ & _ & Ho). done. }
  assert (H21 : l.*2 = l.*1).
  { clear -Hl. induction l as [|kv l IH]; [done|].
    rewrite !fmap_cons. f_equal; [apply Hl; by left|].
    apply IH. intros kv' H. apply Hl. by right. }
  assert (Hnd : NoDup l.*2) by (rewrite H21; apply NoDup_fst_map_to_list).
  assert (Hopen : ∀ kv, kv ∈ l → open kv.2 s).
  { intros kv Hin. destruct (Hl kv Hin) as [-> Ho]. done. }
  destruct (terminate_fold l s C Hnd Hopen) as (Cr & Hcl & Hfr & Hn & Hs & He).
  split; [done|]. split; [|split; [|done]].
  - intros m [tid Hv]. apply Hcl. apply list_elem_of_fmap. exists (m, m). split; [done|].
    apply elem_of_map_to_list. unfold view in Hv. congruence.
  - intros m Hno. apply Hfr. rewrite H21. intros Hin.
    apply list_elem_of_fmap in Hin as ([k h] & -> & Hin). by destruct (Hl _ Hin).
Qed.

Lemma turn_terminateRequests (s0 s : AmqpRequestClient.t) :
  consistent s0 → timeouts_armed s0 →
  consistent s →
  (∀ m, view m s = view m s0) → sent s = sent s0 →
  turn s0 (_terminateRequests s).
Proof.
  intros C0 A0 C Hv Hs.
  destruct (terminateRequests_closes s C) as (Cr & Hcl & Hfr & Hn & Hsent & He).
  assert (Hopen : ∀ m, open m s ↔ open m s0).
  { intros m. unfold open. by rewrite Hv. }
  split; [done|]. split; [|split].
  - intros m tid H. exfalso.
    destruct (stage_of_timeout _ _ _ Cr H) as (_ & _ & [tid' Hv']).
    destruct (stages s C m) as [Hi|[Ho|[o Hc]]].
    + rewrite Hfr in Hv'; [unfold idle in Hi; congruence|].
      intros [t Ht]. unfold idle in Hi. congruence.
    + specialize (Hcl m Ho). unfold closed in Hcl. congruence.
    + rewrite Hfr in Hv'; [unfold closed in Hc; congruence|].
      intros [t Ht]. unfold closed in Hc. congruence.
  - intros m. destruct (stages s C m) as [Hi|[Ho|[o Hc]]].
    + left. rewrite Hfr; [apply Hv|]. intros [t Ht]. unfold idle in Hi. congruence.
    + right. split; [by apply Hopen|]. exists ByTerminator. by apply Hcl.
    + left. rewrite Hfr; [apply Hv|]. intros [t Ht]. unfold closed in Hc. congruence.
  - congruence.
Qed.

(** *** One event-loop turn *)

Lemma cleared_timers_subset (l : list (string * TimerId)) (el : gmap nat string) tid m :
  fold_left (fun el kv => delete kv.2 el) l el !! tid = Some m → el !! tid = Some m.
Proof.
  revert el. induction l as [|kv l IH]; intros el H; [done|].
  simpl in H. apply IH in H. by apply lookup_delete_Some in H as [_ H].
Qed.

Lemma turn_step (s : AmqpRequestClient.t) (ev : Event) :
  consistent s → timeouts_armed s →
  (∀ m, ev ≠ SendRequest m) →
  turn s (step s ev).
Proof.
  intros C A Hev. destruct ev as [m|r|tid|m err|b| | |]; simpl.
  - by destruct (Hev m).
  - by apply turn_on_message.
  - by apply turn_fire_timer.
  - by apply turn_same.
  - by apply turn_same.
  - unfold on_receiver_detached. destruct (message_listeners s); [by apply turn_same|].
    apply turn_terminateRequests; try done.
    by apply (consistent_same s).
  - unfold on_receiver_attached. destruct (message_listeners s); [by apply turn_same|].
    destruct (_isListening s); by apply turn_same.
  - unfold dispose.
    set (cleared := {| _isListening := _ |}).
    assert (Cc : consistent cleared).
    { apply (consistent_same s); try done. intros tid m. apply cleared_timers_subset. }
    pose proof (turn_terminateRequests s cleared C A Cc (fun _ => eq_refl) eq_refl) as T.
    eapply turn_trans; [exact T|].
    destruct T as (C1 & A1 & _). by apply turn_same.
Qed.

(** *** Traces *)

Lemma run_snoc (evs : list Event) (ev : Event) :
  run (evs ++ [ev]) = step (run evs) ev.
Proof. unfold run. by rewrite fold_left_app. Qed.

Lemma request_ids_snoc (evs : list Event) (ev : Event) :
  request_ids (evs ++ [ev]) =
  request_ids evs ++ match ev with SendRequest m => [m] | _ => [] end.
Proof. unfold request_ids. rewrite omap_app. f_equal. by destruct ev. Qed.

Lemma idle_not_open m s : idle m s → ¬ open m s.
Proof. intros Hi [tid Ho]. unfold idle in Hi. congruence. Qed.

Lemma closed_not_open m o s : closed m o s → ¬ open m s.
Proof. intros Hc [tid Ho]. unfold closed in Hc. congruence. Qed.

Lemma send_request_or_not (ev : Event) :
  (∃ m, ev = SendRequest m) ∨ (∀ m, ev ≠ SendRequest m).
Proof. destruct ev; eauto. Qed.

Lemma idle_new (m : string) : idle m new.
Proof. unfold idle, view. simpl. by rewrite !lookup_empty. Qed.

Lemma consistent_new : consistent new.
Proof.
  split; simpl.
  - intros tid m H. by rewrite lookup_empty in H.
  - intros m1 m2 tid H. by rewrite lookup_empty in H.
  - intros m tid H. by rewrite lookup_empty in H.
  - intros m H. by apply elem_of_nil in H.
  - intros m. left. apply idle_new.
Qed.

Lemma timeouts_armed_new : timeouts_armed new.
Proof. intros m tid H. simpl in H. by rewrite lookup_empty in H. Qed.

Lemma run_invariant (evs : list Event) :
  NoDup (request_ids evs) →
  consistent (run evs) ∧ timeouts_armed (run evs) ∧
  (∀ m, m ∉ request_ids evs → idle m (run evs)).
Proof.
  induction evs as [|ev evs IH] using rev_ind; intros Hnd.
  { split; [apply consistent_new|]. split; [apply timeouts_armed_new|].
    intros m _. apply idle_new. }
  rewrite request_ids_snoc in Hnd. apply NoDup_app in Hnd as (Hnd & Hdisj & _).
  destruct (IH Hnd) as (C & A & Hidle).
  rewrite run_snoc, request_ids_snoc.
  destruct (send_request_or_not ev) as [[m ->]|Hev].
  - assert (Hm : m ∉ request_ids evs).
    { intros Hin. apply (Hdisj m Hin). by left. }
    destruct (sendRequest_admitted m (run evs) C A (Hidle m Hm)) as (C' & A' & Hv & _).
    simpl. split; [done|]. split; [done|].
    intros m' Hm'. apply not_elem_of_app in Hm' as [Hm1 Hm2].
    apply not_elem_of_cons in Hm2 as [Hne _].
    unfold idle. rewrite Hv by done. by apply Hidle.
  - destruct (turn_step (run evs) ev C A Hev) as (C' & A' & Hadv & _).
    split; [done|]. split; [done|].
    intros m Hm.
    assert (Hm' : m ∉ request_ids evs).
    { intros Hin. apply Hm. apply elem_of_app. by left. }
    destruct (Hadv m) as [Hv|[Ho _]].
    + unfold idle. rewrite Hv. by apply Hidle.
    + by destruct (idle_not_open m (run evs) (Hidle m Hm')).
Qed.



(** The stages in the terms of the three maps. *)
Lemma open_waiting (m : string) (s : AmqpRequestClient.t) :
  timeouts_armed s → open m s → waiting m s.
Proof.
  intros A [tid Hv]. unfold view in Hv. unfold waiting.
  repeat split; [congruence..|].
  exists tid. split; [congruence|]. apply A. congruence.
Qed.

Lemma waiting_open (m : string) (s : AmqpRequestClient.t) : waiting m s → open m s.
Proof.
  intros (H1 & H2 & H3 & H4 & tid & H5 & _). exists tid. unfold view. congruence.
Qed.

Lemma closed_completed (m : string) (o : Outcome) (s : AmqpRequestClient.t) :
  consistent s → closed m o s → completed m o s.
Proof.
  intros C Hc. unfold closed, view in Hc. unfold completed.
  repeat split; [congruence..| |congruence].
  intros tid H. apply (timers_registered s C) in H. congruence.
Qed.

Lemma completed_closed (m : string) (o : Outcome) (s : AmqpRequestClient.t) :
  completed m o s → closed m o s.
Proof. intros (H1 & H2 & H3 & H4 & _ & H6). unfold closed, view. congruence. Qed.

(** *** The three paths out of the open stage *)

Lemma advances_closed (m : string) (o : Outcome) (s s' : AmqpRequestClient.t) :
  advances m s s' → closed m o s → closed m o s'.
Proof.
  intros [Hv|[Ho _]] Hc.
  - unfold closed. by rewrite Hv.
  - by destruct (closed_not_open m o s Hc).
Qed.

Lemma turn_listeners (n : nat) (response : AmqpResponse) (s : AmqpRequestClient.t) :
  consistent s → timeouts_armed s →
  turn s (Nat.iter n (response_listener response) s).
Proof.
  intros C A. induction n as [|n IH]; simpl; [by apply turn_refl|].
  eapply turn_trans; [exact IH|].
  destruct IH as (C' & A' & _). by apply turn_response_listener.
Qed.

Lemma path_response (response : AmqpResponse) (s : AmqpRequestClient.t) :
  consistent s → timeouts_armed s →
  open (correlationId response) s → message_listeners s ≠ 0%nat →
  closed (correlationId response) (ByResponse response) (on_message response s).
Proof.
  intros C A Ho Hn. unfold on_message.
  destruct (message_listeners s) as [|n]; [done|].
  rewrite Nat.iter_succ_r.
  pose proof Ho as [tid Hv]. unfold view in Hv.
  assert (Hp : _pendingRequests s !! correlationId response = Some (correlationId response))
    by congruence.
  rewrite (response_listener_finish response s C), Hp.
  destruct (turn_finish (correlationId response) (ByResponse response) s C A Ho)
    as (C1 & A1 & _).
  destruct (turn_listeners n response _ C1 A1) as (_ & _ & Hadv & _).
  apply (advances_closed _ _ _ _ (Hadv _)).
  apply finish_open; congruence.
Qed.


Lemma path_terminate (m : string) (s : AmqpRequestClient.t) :
  consistent s → open m s →
  message_listeners s ≠ 0%nat →
  closed m ByTerminator (on_receiver_detached s).
Proof.
  intros C Ho Hn. unfold on_receiver_detached.
  destruct (message_listeners s) as [|n] eqn:E; [done|].
  set (s1 := set_links _ _ _ _ s).
  assert (C1 : consistent s1) by (by apply (consistent_same s)).
  destruct (terminateRequests_closes s1 C1) as (_ & Hcl & _).
  by apply Hcl.
Qed.

Lemma path_dispose (m : string) (s : AmqpRequestClient.t) :
  consistent s → open m s → closed m ByTerminator (dispose s).
Proof.
  intros C Ho. unfold dispose.
  set (cleared := {| _isListening := _ |}).
  assert (Cc : consistent cleared).
  { apply (consistent_same s); try done. intros tid m'. apply cleared_timers_subset. }
  destruct (terminateRequests_closes cleared Cc) as (_ & Hcl & _).
  by apply (Hcl m).
Qed.

(** *** The promise the caller holds *)

Lemma follows_refl (s : AmqpRequestClient.t) : follows s s.
Proof. by intros failed m H. Qed.

Lemma follows_trans (s1 s2 s3 : AmqpRequestClient.t) :
  follows s1 s2 → follows s2 s3 → follows s1 s3.
Proof. intros H1 H2 failed m H. by apply H2, H1. Qed.

Lemma follows_same (s s' : AmqpRequestClient.t) :
  results s' = results s → returned s' = returned s → follows s s'.
Proof. intros H1 H2 failed m H. unfold caller_sees in *. by rewrite H1, H2. Qed.

(** [result.then(resolve).catch(reject)]: a callback settles the caller's
    promise as it settles [result], unless the caller's promise is settled
    already. *)
Lemma follows_settle (m : string) (o : Outcome) (s : AmqpRequestClient.t) :
  follows s (settle m o s).
Proof.
  intros failed m' H. unfold caller_sees in *. simpl.
  destruct (decide (m = m')) as [->|Hne].
  - rewrite !lookup_alter_eq. destruct H as [->|(err & Hf & -> & Hr)]; [by left|].
    right. exists err. split; [done|]. split; [done|].
    destruct Hr as [q ->]. by eexists.
  - by rewrite !lookup_alter_ne.
Qed.

Lemma follows_finish (m : string) (o : Outcome) (s : AmqpRequestClient.t) :
  follows s (finish m o s).
Proof.
  apply (follows_trans _ (cleanupRequest m s)); [by apply follows_same|].
  apply follows_settle.
Qed.

Lemma follows_response_listener (response : AmqpResponse) (s : AmqpRequestClient.t) :
  follows s (response_listener response s).
Proof.
  unfold response_listener.
  destruct (_pendingRequests s !! correlationId response) as [h|]; [|by apply follows_same].
  eapply follows_trans; [|apply (follows_finish h (ByResponse response))].
  by apply follows_same.
Qed.

Lemma follows_on_message (response : AmqpResponse) (s : AmqpRequestClient.t) :
  follows s (on_message response s).
Proof.
  unfold on_message. induction (message_listeners s) as [|n IH]; [apply follows_refl|].
  simpl. eapply follows_trans; [exact IH|]. apply follows_response_listener.
Qed.

Lemma follows_terminateRequests (s : AmqpRequestClient.t) :
  follows s (_terminateRequests s).
Proof.
  unfold _terminateRequests. generalize (map_to_list (_requestTerminations s)).
  intros l. revert s. induction l as [|kv l IH]; intros s; [apply follows_refl|].
  simpl. eapply follows_trans; [|apply IH].
  apply (follows_finish kv.2 ByTerminator).
Qed.

Lemma follows_sendRequest (m : string) (s : AmqpRequestClient.t) :
  follows s (_sendRequest m s).1.
Proof.
  unfold _sendRequest. destruct (_ || _); [apply follows_refl|].
  intros failed m' H. unfold caller_sees in *. simpl.
  destruct (decide (m = m')) as [->|Hne].
  - left. by rewrite !lookup_insert_eq.
  - by rewrite !lookup_insert_ne.
Qed.

Lemma follows_step (s : AmqpRequestClient.t) (ev : Event) :
  (∀ m err, ev ≠ SendFailed m err) → follows s (step s ev).
Proof.
  intros Hev. destruct ev as [m|response|tid|m err|b| | |]; simpl.
  - apply follows_sendRequest.
  - apply follows_on_message.
  - unfold fire_timer. destruct (event_loop s !! tid) as [m|]; [|apply follows_refl].
    eapply follows_trans; [|apply (follows_finish m ByTimeout)].
    by apply follows_same.
  - by destruct (Hev m err).
  - by apply follows_same.
  - unfold on_receiver_detached. destruct (message_listeners s); [by apply follows_same|].
    eapply follows_trans; [|apply follows_terminateRequests]. by apply follows_same.
  - unfold on_receiver_attached. destruct (message_listeners s); [by apply follows_same|].
    destruct (_isListening s); by apply follows_same.
  - unfold dispose.
    eapply follows_trans; [|by apply follows_same].
    eapply follows_trans; [|apply follows_terminateRequests]. by apply follows_same.
Qed.

Lemma caller_sees_mono (failed failed' : Thrown → Prop) (m : string)
    (s : AmqpRequestClient.t) :
  (∀ err, failed err → failed' err) → caller_sees failed m s → caller_sees failed' m s.
Proof.
  intros Hsub [H|(err & Hf & H)]; [by left|]. right. exists err. split; [by apply Hsub|done].
Qed.

(** The [.catch] of the send: it rejects a caller's promise that is still
    pending and changes nothing else. *)
Lemma caller_sees_send_failed (failed : Thrown → Prop) (m m0 : string) (err : Thrown)
    (s : AmqpRequestClient.t) :
  caller_sees failed m s →
  caller_sees (fun e => failed e ∨ (m0 = m ∧ e = err)) m (on_send_failed m0 err s).
Proof.
  intros H. unfold caller_sees in *. simpl.
  destruct (decide (m0 = m)) as [->|Hne].
  - rewrite lookup_alter_eq. destruct H as [H|(e & Hf & -> & Hr)].
    + rewrite H. destruct (results s !! m) as [[|a|e]|] eqn:E; simpl; [|by left..].
      right. exists err. split; [by right|]. split; [done|]. by eexists.
    + right. exists e. split; [by left|]. by split.
  - rewrite lookup_alter_ne by done.
    destruct H as [H|(e & Hf & H)]; [by left|]. right. exists e. split; [by left|done].
Qed.

Lemma caller_sees_run (evs : list Event) (m : string) :
  caller_sees (fun err => SendFailed m err ∈ evs) m (run evs).
Proof.
  induction evs as [|ev evs IH] using rev_ind; [by left|].
  rewrite run_snoc.
  assert ((∃ m0 err, ev = SendFailed m0 err) ∨ (∀ m0 err, ev ≠ SendFailed m0 err))
    as [(m0 & err & ->)|Hno] by (destruct ev; eauto; by right).
  - simpl. apply (caller_sees_send_failed _ m m0 err) in IH.
    revert IH. apply caller_sees_mono. intros e [He|[-> ->]].
    + apply elem_of_app. by left.
    + apply elem_of_app. right. by left.
  - apply (follows_step (run evs) ev Hno).
    revert IH. apply caller_sees_mono. intros e He. apply elem_of_app. by left.
Qed.






End RequestClientProperties.

(** ** Lock renewal *)

Section RenewalProperties.
Import Receiver.




(** On a settled or settle-failed message the entry is dropped and no
    timer is armed. *)
Lemma scheduleRenewal_settled (config : OnMessageOptions) (now : Z) (r : MessageRef)
    (m : InternalBrokeredMessage.t) (s : Receiver.t) :
  messages s !! r = Some m →
  InternalBrokeredMessage.isSettled m || is_SettleFailed m = true →
  _scheduleRenewal r config now s = drop_entry (token m) s.
Proof. intros Hm Hs. unfold _scheduleRenewal. by rewrite Hm, Hs. Qed.

(** *** The listener's cleanup *)

Lemma cleared_subset (timers : list RenewTimer) (el : gmap nat MessageRef) (t : TimerId)
    (r : MessageRef) :
  foldr (fun rt el => delete (timer rt) el) el timers !! t = Some r → el !! t = Some r.
Proof.
  induction timers as [|rt timers IH]; simpl; [done|].
  intros H. apply lookup_delete_Some in H as [_ H]. by apply IH.
Qed.

Lemma cleared_timer (timers : list RenewTimer) (el : gmap nat MessageRef) (rt : RenewTimer) :
  rt ∈ timers →
  foldr (fun rt el => delete (timer rt) el) el timers !! timer rt = None.
Proof.
  induction timers as [|rt' timers IH]; simpl; [by intros H%elem_of_nil|].
  intros [->|H]%elem_of_cons; [apply lookup_delete_eq|].
  destruct (decide (timer rt' = timer rt)) as [->|Hne]; [apply lookup_delete_eq|].
  rewrite lookup_delete_ne by done. by apply IH.
Qed.

Lemma listeners_removed (timers : list RenewTimer)
    (ms : gmap nat InternalBrokeredMessage.t) (r : MessageRef) :
  let ms' := foldr (fun rt ms =>
                      alter InternalBrokeredMessage.removeAllListeners (message_of rt) ms)
               ms timers in
  ms' !! r = ms !! r ∨ ms' !! r = InternalBrokeredMessage.removeAllListeners <$> ms !! r.
Proof.
  induction timers as [|rt timers IH]; simpl; [by left|].
  destruct (decide (message_of rt = r)) as [->|Hne].
  - right. rewrite lookup_alter_eq. simpl in IH. destruct IH as [->| ->]; [done|].
    by destruct (ms !! r).
  - by rewrite lookup_alter_ne.
Qed.

(** The cleanup clears every timer that [renewalTimers] records, arms
    none, empties both maps, and leaves the messages in the state they
    are in. *)
Lemma cleanupCallback_effect (s : Receiver.t) :
  let s' := cleanupCallback s in
  renewalTimers s' = ∅ ∧ renewalTimeouts s' = ∅ ∧
  (∀ tok rt, renewalTimers s !! tok = Some rt → event_loop s' !! timer rt = None) ∧
  (∀ t r, event_loop s' !! t = Some r → event_loop s !! t = Some r) ∧
  next_timer s' = next_timer s ∧ renewing s' = renewing s ∧
  renewLock_calls s' = renewLock_calls s ∧ receiverErrors s' = receiverErrors s ∧
  (∀ r, messages s' !! r = messages s !! r ∨
        messages s' !! r = InternalBrokeredMessage.removeAllListeners <$> messages s !! r).
Proof.
  simpl. split; [done|]. split; [done|]. split; [|split; [|by repeat split; try apply listeners_removed]].
  - intros tok rt H. apply cleared_timer.
    apply list_elem_of_fmap. exists (tok, rt). split; [done|]. by apply elem_of_map_to_list.
  - intros t r. apply cleared_subset.
Qed.

(** *** [autoRenewTimeout = 0] *)




(** *** [autoRenewTimeout = Infinity] *)







(** *** The renewal of a message never forks *)

Lemma length_filter_delete {A} (P : A → Prop) `{!∀ x, Decision (P x)}
    (l : list A) (i : nat) (x : A) :
  l !! i = Some x → P x →
  S (length (filter P (delete i l))) = length (filter P l).
Proof.
  revert i. induction l as [|y l IH]; intros i Hi Hx; [done|].
  destruct i as [|i]; simpl in *.
  - injection Hi as ->. rewrite filter_cons. by rewrite decide_True.
  - rewrite !filter_cons. destruct (decide _); simpl; rewrite <- (IH i Hi Hx); done.
Qed.

Lemma filter_sublist_mono {A} (P : A → Prop) `{!∀ x, Decision (P x)} (l1 l2 : list A) :
  l1 `sublist_of` l2 → filter P l1 `sublist_of` filter P l2.
Proof.
  induction 1 as [|x l1 l2 Hs IH|x l1 l2 Hs IH]; [done|..]; rewrite ?filter_cons.
  - destruct (decide _); [by constructor|done].
  - destruct (decide _); [by constructor|done].
Qed.

Lemma filter_none {A} (P : A → Prop) `{!∀ x, Decision (P x)} (l : list A) :
  (∀ x, x ∈ l → ¬ P x) → filter P l = [].
Proof.
  intros Hn. destruct (filter P l) as [|x l'] eqn:E; [done|].
  assert (x ∈ filter P l) as Hx by (rewrite E; by left).
  apply list_elem_of_filter in Hx as [Hp Hx]. by destruct (Hn x Hx).
Qed.

(** [_scheduleRenewal] leaves messages and suspended callbacks alone and
    arms one fresh timer at most, for its message. *)
Lemma scheduleRenewal_shape (config : OnMessageOptions) (now : Z) (r : MessageRef)
    (s : Receiver.t) :
  let s' := _scheduleRenewal r config now s in
  messages s' = messages s ∧ renewing s' = renewing s ∧
  ((event_loop s' = event_loop s ∧ next_timer s' = next_timer s) ∨
   (is_Some (messages s !! r) ∧
    event_loop s' = <[next_timer s := r]> (event_loop s) ∧
    next_timer s' = S (next_timer s))).
Proof.
  unfold _scheduleRenewal.
  destruct (messages s !! r) as [m|] eqn:Hm; [|by auto].
  destruct (_ || _); [by auto|].
  destruct (num_gtb _ _); simpl; [|by auto].
  split; [done|]. split; [done|]. right. by eauto.
Qed.

(** Arming: a message with no timer and no suspended callback gets one
    timer at most from [_scheduleRenewal]. *)
Lemma chain_scheduleRenewal (config : OnMessageOptions) (now : Z) (r : MessageRef)
    (s : Receiver.t) :
  chain_facts s →
  (∀ t, event_loop s !! t ≠ Some r) → renewals_of r s = [] →
  chain_facts (_scheduleRenewal r config now s).
Proof.
  intros (Ha & (Hd1 & Hd2) & Hone) Hnt Hnr.
  destruct (scheduleRenewal_shape config now r s) as (Em & Er & [[Ee En]|(Hs & Ee & En)]).
  - unfold chain_facts, handles_allocated, renewals_delivered, one_renewal_at_a_time,
      renewals_of. rewrite Em, Er, Ee, En. done.
  - assert (event_loop s !! next_timer s = None) as Hfresh.
    { destruct (event_loop s !! next_timer s) as [r'|] eqn:E; [|done].
      apply Ha in E. lia. }
    split; [|split; [split|]].
    + intros t r'. rewrite Ee, En. destruct (decide (t = next_timer s)) as [->|Hne].
      * lia.
      * rewrite lookup_insert_ne by done. intros H. apply Ha in H. lia.
    + intros t r'. rewrite Ee, Em. destruct (decide (t = next_timer s)) as [->|Hne].
      * rewrite lookup_insert_eq. by intros [= <-].
      * rewrite lookup_insert_ne by done. apply Hd1.
    + rewrite Er, Em. apply Hd2.
    + intros r'. destruct (Hone r') as (H1 & H2 & H3).
      unfold renewals_of in *. rewrite Er, Ee. split; [|split; [done|]].
      * intros t1 t2.
        destruct (decide (t1 = next_timer s)) as [->|N1];
          destruct (decide (t2 = next_timer s)) as [->|N2]; [done|..].
        -- rewrite lookup_insert_eq, lookup_insert_ne by done.
           intros [= <-] H. by destruct (Hnt t2).
        -- rewrite lookup_insert_eq, lookup_insert_ne by done.
           intros H [= <-]. by destruct (Hnt t1).
        -- rewrite !lookup_insert_ne by done. apply H1.
      * intros t. destruct (decide (t = next_timer s)) as [->|N].
        -- rewrite lookup_insert_eq. by intros [= <-].
        -- rewrite lookup_insert_ne by done. apply H3.
Qed.

Lemma chain_messages (s s' : Receiver.t) :
  chain_facts s →
  (∀ r, is_Some (messages s !! r) → is_Some (messages s' !! r)) →
  event_loop s' = event_loop s → next_timer s' = next_timer s →
  renewing s' = renewing s →
  chain_facts s'.
Proof.
  intros (Ha & (Hd1 & Hd2) & Hone) Hm Ee En Er.
  unfold chain_facts, handles_allocated, renewals_delivered, one_renewal_at_a_time,
    renewals_of. rewrite Ee, En, Er.
  split; [done|]. split; [|done]. split.
  - intros t r H. by apply Hm, (Hd1 t).
  - intros k H. by apply Hm, Hd2.
Qed.

(** Dropping a timer or a suspended callback. *)
Lemma chain_drop (s s' : Receiver.t) :
  chain_facts s →
  messages s' = messages s → next_timer s' = next_timer s →
  event_loop s' ⊆ event_loop s →
  renewing s' `sublist_of` renewing s →
  chain_facts s'.
Proof.
  intros (Ha & (Hd1 & Hd2) & Hone) Em En He Hr.
  assert (∀ t r, event_loop s' !! t = Some r → event_loop s !! t = Some r) as Hsub.
  { intros t r H. by apply (lookup_weaken _ _ _ _ H He). }
  assert (∀ r, renewals_of r s' `sublist_of` renewals_of r s) as Hrs.
  { intros r. unfold renewals_of. by apply filter_sublist_mono. }
  split; [|split; [split|]].
  - intros t r H. rewrite En. by apply (Ha t r), Hsub.
  - intros t r H. rewrite Em. by apply (Hd1 t), Hsub.
  - intros k H. rewrite Em. apply Hd2. by apply (elem_of_sublist _ _ _ H Hr).
  - intros r. destruct (Hone r) as (H1 & H2 & H3). split; [|split].
    + intros t1 t2 A B. apply H1; by apply Hsub.
    + pose proof (sublist_length _ _ (Hrs r)). lia.
    + intros t A. apply Hsub, H3 in A. specialize (Hrs r). rewrite A in Hrs.
      by apply sublist_nil_r in Hrs.
Qed.

Lemma chain_step (config : OnMessageOptions) (s : Receiver.t) (ev : Event) :
  chain_facts s → chain_facts (step config s ev).
Proof.
  intros Hc. destruct ev as [m now|tid|i failure now|r st|]; simpl.
  - unfold deliver. set (r := fresh (dom (messages s))).
    assert (messages s !! r = None) as Hr.
    { apply not_elem_of_dom, is_fresh. }
    destruct Hc as (Ha & (Hd1 & Hd2) & Hone).
    apply chain_scheduleRenewal.
    + apply (chain_messages s); [done| |done..].
      intros r' H. simpl. destruct (decide (r' = r)) as [->|N].
      * by rewrite lookup_insert_eq.
      * by rewrite lookup_insert_ne.
    + simpl. intros t H. apply Hd1 in H. rewrite Hr in H. by destruct H.
    + unfold renewals_of. simpl. apply filter_none.
      intros k Hk Hrk. apply Hd2 in Hk. rewrite Hrk, Hr in Hk. by destruct Hk.
  - unfold fire_timer. destruct (event_loop s !! tid) as [r|] eqn:Et; [|done].
    set (s1 := Build_t _ _ _ (delete tid (event_loop s)) _ _ _ _).
    assert (chain_facts s1) as Hc1.
    { apply (chain_drop s); [done..|apply delete_subseteq|done]. }
    destruct (messages s !! r) as [m|] eqn:Hm; [|done].
    destruct (negb (InternalBrokeredMessage.isSettled m));
      [|by apply (chain_drop s1)].
    destruct Hc as (_ & _ & Hone).
    destruct Hc1 as (Ha1 & (Hd1 & Hd2) & Hone1).
    set (k := {| renewing_message := r; called := renewLock_calls_client m |}).
    assert (∀ r', renewals_of r' s1 = renewals_of r' s) as Hsame by done.
    split; [done|]. split; [split; [done|]|].
    + simpl. intros k' [Hk| ->%list_elem_of_singleton]%elem_of_app.
      * by apply Hd2.
      * simpl. by rewrite Hm.
    + intros r'. destruct (Hone1 r') as (H1 & H2 & H3).
      destruct (Hone r') as (G1 & _ & G3).
      split; [done|]. unfold renewals_of. simpl.
      rewrite filter_app, filter_cons, filter_nil. fold (renewals_of r' s).
      destruct (decide (renewing_message k = r')) as [<-|Hne]; simpl.
      * rewrite (G3 tid Et : renewals_of r s = []). simpl. split; [lia|].
        intros t [Hne Ht]%lookup_delete_Some. destruct Hne. by apply G1.
      * rewrite app_nil_r. split; [done|]. exact H3.
  - unfold renew_done. destruct (renewing s !! i) as [k|] eqn:Ei; [|done].
    set (s1 := Build_t _ _ _ _ _ (delete i (renewing s)) _ _).
    assert (chain_facts s1) as Hc1.
    { apply (chain_drop s); [done..|apply sublist_delete]. }
    assert (chain_facts (_scheduleRenewal (renewing_message k) config now s1)) as Hsched.
    { destruct Hc as (_ & _ & Hone).
      destruct (Hone (renewing_message k)) as (_ & G2 & G3).
      pose proof (length_filter_delete (fun k' => renewing_message k' = renewing_message k)
                    (renewing s) i k Ei eq_refl) as Hlen.
      fold (renewals_of (renewing_message k) s) in Hlen.
      apply chain_scheduleRenewal; [done|..].
      - intros t Ht. simpl in Ht. apply G3 in Ht. rewrite Ht in Hlen. done.
      - unfold renewals_of. simpl.
        destruct (filter _ (delete i (renewing s))); [done|]. simpl in Hlen. lia. }
    destruct failure as [e|]; [|done].
    destruct (called k); [|done].
    destruct (messages s !! renewing_message k) as [m|]; [|done].
    by apply (chain_drop s1).
  - unfold set_state. destruct (messages s !! r) as [m|] eqn:Hm; [|done].
    destruct (legal_transition _ _); [|done].
    apply (chain_messages s); [done| |done..].
    intros r' H. simpl. destruct (decide (r' = r)) as [->|N].
    + by rewrite lookup_insert_eq.
    + by rewrite lookup_insert_ne.
  - destruct (cleanupCallback_effect s) as (_ & _ & _ & E4 & E5 & E6 & _ & _ & E9).
    set (s1 := Build_t (messages (cleanupCallback s)) (renewalTimers s) (renewalTimeouts s)
                 (event_loop s) (next_timer s) (renewing s) (renewLock_calls s)
                 (receiverErrors s)).
    assert (chain_facts s1) as Hc1.
    { apply (chain_messages s); [done| |done..].
      intros r [m Hm]. change (is_Some (messages (cleanupCallback s) !! r)).
      destruct (E9 r) as [-> | ->]; by rewrite Hm. }
    apply (chain_drop s1); [done..| |done].
    apply map_subseteq_spec. intros t r. apply E4.
Qed.

Lemma chain_run (config : OnMessageOptions) (evs : list Event) :
  chain_facts (run config evs).
Proof.
  unfold run.
  assert (chain_facts init) as Hinit.
  { split; [|split; [split|]].
    - intros t r H. simpl in H. by rewrite lookup_empty in H.
    - intros t r H. simpl in H. by rewrite lookup_empty in H.
    - intros k H. simpl in H. by apply elem_of_nil in H.
    - intros r. split; [|split].
      + intros t1 t2 H. simpl in H. by rewrite lookup_empty in H.
      + simpl. lia.
      + done. }
  revert Hinit. generalize init. induction evs as [|ev evs IH]; intros s Hs; [done|].
  simpl. apply IH. by apply chain_step.
Qed.

(** *** The renewals of a message, on concrete traces *)

(** With [autoRenewTimeout] twice the delivery timeout the lock is renewed
    at 22.5 s and at 45 s, and not a third time. *)
Example renewal_window_of_one_minute :
  renewLock_calls (run (renew_for 60000) two_renewals)
    = [token Examples.message; token Examples.message] ∧
  event_loop (run (renew_for 60000) two_renewals) = ∅ ∧
  renewalTimeouts (run (renew_for 60000) two_renewals) = ∅ ∧
  next_timer (run (renew_for 60000) two_renewals) = 2%nat.
Proof. by vm_compute. Qed.






End RenewalProperties.

(* ===================================================================== *)
(** * Part III: further properties of the code *)
(* ===================================================================== *)

(** ** errors.ts: [wrapError] *)

Section ErrorProperties.

Lemma wrapError_known (e : ServiceBusError) :
  startsWith "ServiceBus:" (name e) = true → wrapError (ThrownError e) = e.
Proof. intros H. unfold wrapError. by rewrite H. Qed.

Lemma wrapError_prefix (error : Thrown) :
  startsWith "ServiceBus:" (name (wrapError error)) = true.
Proof.
  destruct error as [e|sym d|json]; unfold wrapError; [| |reflexivity].
  - destruct (startsWith "ServiceBus:" (name e)) eqn:E; [exact E|reflexivity].
  - repeat (destruct (String.eqb sym _); [reflexivity|]). reflexivity.
Qed.

(** X1.  Whatever [wrapError] is given, the error it returns carries a
    [ServiceBus:] name; an error that already carries one is returned as it
    is, so wrapping twice is wrapping once; and an AMQP error condition
    becomes a [ServiceBus:Amqp:] error with the server's description as its
    context. *)
Theorem X1_wrapError_normal_form :
  (∀ error, startsWith "ServiceBus:" (name (wrapError error)) = true) ∧
  (∀ e, startsWith "ServiceBus:" (name e) = true → wrapError (ThrownError e) = e) ∧
  (∀ error, wrapError (ThrownError (wrapError error)) = wrapError error) ∧
  (∀ sym d, sym ≠ ""%string →
     startsWith "ServiceBus:Amqp:" (name (wrapError (ThrownAmqp sym d))) = true ∧
     context (wrapError (ThrownAmqp sym d)) = [("message"%string, d)]).
Proof.
  split; [exact wrapError_prefix|]. split; [exact wrapError_known|].
  split; [intros error; apply wrapError_known, wrapError_prefix|].
  intros sym d Hsym. apply String.eqb_neq in Hsym.
  unfold wrapError. rewrite Hsym.
  repeat (destruct (String.eqb sym _); [by split|]). by split.
Qed.

End ErrorProperties.

(** ** internalBrokeredMessage.ts and receiver.ts: a failed [renewLock] *)

Section RenewalFailure.
Import Receiver.

Lemma renewLock_error_name (m : InternalBrokeredMessage.t) (e0 : ServiceBusError) :
  name (renewLock_error m (ThrownError e0)) =
  if String.eqb (name e0) ErrorNames.Internal.RequestTimeout
  then ErrorNames.Message.LockRenewalTimeout
  else ErrorNames.Message.LockRenewalFailure.
Proof.
  simpl. destruct (String.eqb (name e0) ErrorNames.Internal.RequestTimeout); [done|].
  by destruct (String.eqb (name e0) ErrorNames.Internal.RequestFailure).
Qed.

(** X2.  When the request client rejects the [renewLock] of a renewal timer
    with an error [e0], the subscription gets exactly one [receiverError]:
    the error [renewLock] throws, unchanged by [wrapError], named
    [LockRenewalTimeout] when [e0] is the request timeout and
    [LockRenewalFailure] for every other error.  No renewal timer is armed
    afterwards and [renewLock] is not called again. *)
Theorem X2_renewLock_failure_surfaces (i : nat) (k : Renewing) (m : InternalBrokeredMessage.t)
    (e0 : ServiceBusError) (config : OnMessageOptions) (now : Z) (s : Receiver.t) :
  renewing s !! i = Some k →
  called k = true →
  messages s !! renewing_message k = Some m →
  let s' := renew_done i (Some (ThrownError e0)) config now s in
  receiverErrors s' = receiverErrors s ++ [renewLock_error m (ThrownError e0)] ∧
  name (renewLock_error m (ThrownError e0)) =
    (if String.eqb (name e0) ErrorNames.Internal.RequestTimeout
     then ErrorNames.Message.LockRenewalTimeout
     else ErrorNames.Message.LockRenewalFailure) ∧
  event_loop s' = event_loop s ∧
  next_timer s' = next_timer s ∧
  renewing s' = delete i (renewing s) ∧
  renewLock_calls s' = renewLock_calls s.
Proof.
  intros Hk Hc Hm. unfold renew_done. rewrite Hk, Hc, Hm.
  cbn [receiverErrors event_loop next_timer renewing renewLock_calls].
  split; [|by rewrite renewLock_error_name].
  f_equal. f_equal. apply wrapError_known.
  rewrite renewLock_error_name.
  by destruct (String.eqb (name e0) ErrorNames.Internal.RequestTimeout).
Qed.

Lemma X2_renewLock_failure_surfaces_witness :
  name <$> receiverErrors
    (renew_done 0
       (Some (ThrownError (buildError ErrorNames.Internal.RequestTerminated "terminated" [])))
       renew_forever 22500
       (run renew_forever [Deliver Examples.message 0; TimerDue 0%nat]))
  = [ErrorNames.Message.LockRenewalFailure].
Proof.
  pose proof (X2_renewLock_failure_surfaces 0
    {| renewing_message := 0%nat; called := true |} Examples.message
    (buildError ErrorNames.Internal.RequestTerminated "terminated" [])
    renew_forever 22500 (run renew_forever [Deliver Examples.message 0; TimerDue 0%nat])) as H.
  destruct H as (H & _); [by vm_compute..|].
  rewrite H. reflexivity.
Defined.

End RenewalFailure.

(** ** sender.ts: the outbound translation *)

Section OutboundProperties.
Import BrokeredMessage.

Lemma lookup_setIfDefined_ne (o : JsObject) (k k' : string) (v : JsValue) :
  k ≠ k' → setIfDefined o k v !! k' = o !! k'.
Proof. intros H. destruct v; simpl; try done; by apply lookup_insert_ne. Qed.

Lemma lookup_setIfDefined_eq (o : JsObject) (k : string) (v : JsValue) :
  o !! k = None → setIfDefined o k v !! k = entry_of v.
Proof. intros H. destruct v; simpl; try done; by apply lookup_insert_eq. Qed.

(** [setIfDefined] stores no [undefined]. *)
Lemma setIfDefined_defined (P : string → Prop) (o : JsObject) (k0 : string) (v : JsValue) :
  (∀ k, P k → o !! k ≠ Some JUndefined) →
  ∀ k, P k → setIfDefined o k0 v !! k ≠ Some JUndefined.
Proof.
  intros Ho k Hk. destruct (decide (k0 = k)) as [->|Hne].
  - destruct v; simpl; rewrite ?lookup_insert_eq; try done. by apply Ho.
  - rewrite lookup_setIfDefined_ne by done. by apply Ho.
Qed.

Ltac outbound_lookup :=
  repeat first
    [ rewrite lookup_setIfDefined_ne by discriminate
    | rewrite lookup_setIfDefined_eq
    | rewrite lookup_singleton_ne by discriminate
    | rewrite lookup_empty ];
  try reflexivity.

(** X3.  The AMQP message [send] puts on the wire has the body, the
    application properties and the message id of the brokered message, no
    header, and one annotation or property for each optional field that is
    set: a field that is [undefined] gets no key at all, a field that is
    [null] is sent as [null].  No annotation and no property other than
    [messageId] is ever [undefined]. *)
Theorem X3_outbound_keys (message : JsObject) :
  ∃ annotations props : JsObject,
    amqp_messageAnnotations (_brokeredMessageToAmqpMessage message) = Some annotations ∧
    amqp_properties (_brokeredMessageToAmqpMessage message) = Some props ∧
    amqp_header (_brokeredMessageToAmqpMessage message) = None ∧
    amqp_body (_brokeredMessageToAmqpMessage message) = Some (read body message) ∧
    amqp_applicationProperties (_brokeredMessageToAmqpMessage message)
      = Some (read properties message) ∧
    props !! "messageId" = Some (read messageId message) ∧
    (∀ f k, annotation_key f = Some k → annotations !! k = entry_of (read f message)) ∧
    (∀ f k, property_key f = Some k → props !! k = entry_of (read f message)) ∧
    (∀ k, annotations !! k ≠ Some JUndefined) ∧
    (∀ k, k ≠ "messageId"%string → props !! k ≠ Some JUndefined).
Proof.
  unfold _brokeredMessageToAmqpMessage. eexists _, _.
  cbn [amqp_messageAnnotations amqp_properties amqp_header amqp_body amqp_applicationProperties].
  split; [reflexivity|]. split; [reflexivity|]. split; [reflexivity|].
  split; [reflexivity|]. split; [reflexivity|].
  split; [outbound_lookup; apply lookup_singleton_eq|].
  split; [|split; [|split]].
  - intros f k Hk. destruct f; simplify_eq/=; outbound_lookup.
  - intros f k Hk. destruct f; simplify_eq/=; outbound_lookup.
  - intros k. apply (setIfDefined_defined (fun _ => True)); [|done].
    do 3 (apply setIfDefined_defined). intros k' _. by rewrite lookup_empty.
  - intros k. apply (setIfDefined_defined (fun k => k ≠ "messageId"%string)).
    do 6 (apply setIfDefined_defined). intros k' Hk'. by rewrite lookup_singleton_ne.
Qed.

End OutboundProperties.

(** ** sender.ts: the race of [send] *)

Section SendRace.
Import Sender.

Lemma timer_stays_cleared (messageId : JsValue) (events : list Event) (r : Race) :
  sendTimeout_armed r = false →
  sendTimeout_armed (fold_left (race_step messageId) events r) = false.
Proof.
  revert r. induction events as [|ev events IH]; intros r Hr; [done|].
  simpl. apply IH. destruct ev; simpl; [done|done|by rewrite Hr].
Qed.

(** X4.  Once the transport send is under way, the first thing that
    happens settles [send] and nothing that happens later changes it: a
    timer that comes due after the transport has answered, or an answer
    after the timeout, is without effect, and the timer is no longer
    armed.  A send the transport rejects is rejected with what [wrapError]
    makes of the transport's error; a sender link that could not be created
    rejects [send] with the link's error; and while nothing has happened
    [send] is pending. *)
Theorem X4_send_first_settlement_wins (message : JsObject) (ev : Event) (events : list Event) :
  send false message (Ok tt) (ev :: events) = send false message (Ok tt) [ev] ∧
  send false message (Ok tt) (ev :: events) ≠ Pending ∧
  sendTimeout_armed (race (BrokeredMessage.read BrokeredMessage.messageId message) (ev :: events))
    = false ∧
  (∀ err, send false message (Ok tt) (TransportRejected err :: events)
          = Rejected (wrapError err)) ∧
  (∀ e, send false message (Throw e) events = Rejected e) ∧
  send false message (Ok tt) [] = Pending.
Proof.
  split; [|split; [|split; [|split; [|split]]]].
  - unfold send. by rewrite !race_first.
  - unfold send. rewrite race_first.
    destruct ev as [d| |]; simpl; [|done|done].
    by destruct (descriptor d =? AMQP_REJECTED_DESCRIPTOR).
  - unfold race. simpl. apply timer_stays_cleared. by destruct ev.
  - intros err. apply send_transport_error.
  - intros e. apply send_link_error.
  - reflexivity.
Qed.

End SendRace.

(** ** utility.ts: connection strings that are not of the form [key=value;...] *)

Section ConnectionStringEdges.
Import utility.

(** X5.  A part without ['='] is not dropped and raises no error: it is
    stored under the empty key, whole.  So a connection string that holds
    neither [';'] nor ['='] (the empty string among them) parses to the one
    entry [{ '': string }], in which [Endpoint], [SharedAccessKeyName] and
    [SharedAccessKey] are undefined; and a connection string that ends in
    [';'] gets the entry [{ '': '' }] from its empty last part. *)
Theorem X5_part_without_equals :
  (∀ part, indexOf "=" part = -1 → split_part part = (""%string, part)) ∧
  (∀ s, indexOf ";" s = -1 → indexOf "=" s = -1 →
     parseConnectionString s = {[ ""%string := s ]} ∧
     Endpoint (parseConnectionString s) = None ∧
     SharedAccessKeyName (parseConnectionString s) = None ∧
     SharedAccessKey (parseConnectionString s) = None) ∧
  parseConnectionString "" = {[ ""%string := ""%string ]} ∧
  (∀ parts, Forall (fun q => indexOf ";" q = -1) parts →
     parseConnectionString (String.concat ";" (parts ++ [""%string])) !! ""%string
     = Some ""%string).
Proof.
  split; [exact split_part_no_equals|].
  assert (Hone : ∀ s, indexOf ";" s = -1 → indexOf "=" s = -1 →
                      parseConnectionString s = {[ ""%string := s ]}).
  { intros s Hs He. unfold parseConnectionString.
    rewrite split_no_separator by done. simpl.
    rewrite split_part_no_equals by done. unfold assign. simpl.
    apply insert_empty. }
  split; [|split].
  - intros s Hs He. rewrite (Hone s Hs He).
    unfold Endpoint, SharedAccessKeyName, SharedAccessKey.
    by rewrite !lookup_singleton_ne.
  - by apply Hone.
  - intros parts Hparts. unfold parseConnectionString.
    assert (Hsplit : split ";" (String.concat ";" (parts ++ [""%string]))
                     = parts ++ [""%string]).
    { assert (Hall : Forall (fun q => indexOf ";" q = -1) (parts ++ [""%string])).
      { apply Forall_app. split; [done|]. by constructor. }
      destruct parts as [|p parts]; simpl app in *; by apply split_join. }
    rewrite Hsplit, map_app. simpl map.
    rewrite split_part_no_equals by done.
    by apply fold_assign_last.
Qed.

End ConnectionStringEdges.

(** ** brokeredMessage.ts: the setters *)

Section SetterProperties.
Import BrokeredMessage.

Lemma slot_inj (f g : Field) : slot f = slot g → f = g.
Proof. by destruct f, g. Qed.

(** X6.  A setter of a brokered message either throws a [TypeError] or
    stores its argument; this holds of the setters of the twelve outbound
    fields that have one, of an assignment to the public field
    [properties] (which checks nothing), and of the setter of
    [timeToLive].  [null] and [undefined] are always accepted; a string
    field accepts every string and refuses numbers and dates; the sequence
    number and [timeToLive] accept every number and refuse strings and
    dates; the two time fields accept every [Date] and refuse strings and
    numbers.  After an accepted assignment the getter returns the value and
    every other own property of the message, so every other getter, reads
    as before. *)
Theorem X6_setters (f : Field) (m : JsObject) :
  f ≠ body →
  (∀ v, not_nullish v = false → write f v m = Ok (<[slot f := v]> m)) ∧
  (∀ v, refused (write f v m) ∨ write f v m = Ok (<[slot f := v]> m)) ∧
  (∀ v m', write f v m = Ok m' →
     read f m' = v ∧ (∀ g, g ≠ f → read g m' = read g m) ∧
     timeToLive m' = timeToLive m ∧
     ∀ k, k ≠ slot f → get m' k = get m k) ∧
  (f ∉ [properties; enqueuedSequenceNumber; enqueuedTimeUtc; scheduledEnqueueTimeUtc] →
     ∀ s n ms, write f (JStr s) m = Ok (<[slot f := JStr s]> m) ∧
               refused (write f (JNum n) m) ∧ refused (write f (JDate ms) m)) ∧
  (f = enqueuedSequenceNumber →
     ∀ s n ms, write f (JNum n) m = Ok (<[slot f := JNum n]> m) ∧
               refused (write f (JStr s) m) ∧ refused (write f (JDate ms) m)) ∧
  (f = enqueuedTimeUtc ∨ f = scheduledEnqueueTimeUtc →
     ∀ s n ms, write f (JDate ms) m = Ok (<[slot f := JDate ms]> m) ∧
               refused (write f (JStr s) m) ∧ refused (write f (JNum n) m)) ∧
  (∀ v, not_nullish v = false →
     set_timeToLive v m = Ok (<["_timeToLive" := v]> m)) ∧
  (∀ v, refused (set_timeToLive v m) ∨
        set_timeToLive v m = Ok (<["_timeToLive" := v]> m)) ∧
  (∀ s n ms, set_timeToLive (JNum n) m = Ok (<["_timeToLive" := JNum n]> m) ∧
             refused (set_timeToLive (JStr s) m) ∧
             refused (set_timeToLive (JDate ms) m)) ∧
  (∀ v m', set_timeToLive v m = Ok m' →
     timeToLive m' = v ∧ (∀ g, read g m' = read g m) ∧
     ∀ k, k ≠ "_timeToLive" → get m' k = get m k).
Proof.
  intros Hf.
  split; [|split; [|split; [|split; [|split; [|split; [|split; [|split; [|split]]]]]]]].
  - intros v Hv. unfold write. by destruct f, v.
  - intros v. unfold write, refused.
    destruct f, v; simpl; try (by right); left; eexists; by split.
  - intros v m' Hw. split; [by apply (read_write f v m)|].
    unfold write in Hw. destruct (verify f v); [|done].
    injection Hw as <-. split; [|split].
    + intros g Hg. unfold read. apply get_insert_ne.
      intros Heq. apply Hg. by apply slot_inj.
    + unfold timeToLive. apply get_insert_ne. by destruct f.
    + intros k Hk. by apply get_insert_ne.
  - intros Hs s n ms. unfold refused.
    destruct f; try done;
      try (exfalso; apply Hs; set_solver);
      (split; [done|]); split; eexists; by split.
  - intros -> s n ms. unfold refused. split; [done|]. split; eexists; by split.
  - intros [-> | ->] s n ms; unfold refused; (split; [done|]); split; eexists; by split.
  - intros v Hv. unfold set_timeToLive. by destruct v.
  - intros v. unfold set_timeToLive, refused.
    destruct v; simpl; try (by right); left; eexists; by split.
  - intros s n ms. unfold refused. split; [done|]. split; eexists; by split.
  - intros v m' Hw. unfold set_timeToLive in Hw.
    destruct (verifyType v "number"); [|done]. injection Hw as <-.
    split; [apply get_insert_eq|]. split.
    + intros g. unfold read. apply get_insert_ne. by destruct g.
    + intros k Hk. by apply get_insert_ne.
Qed.

Lemma X6_setters_witness :
  refused (write to (JNum 5) (BrokeredMessage.new (JStr "hello") 1%positive "m1")) ∧
  write to JNull (BrokeredMessage.new (JStr "hello") 1%positive "m1")
    = Ok (<[slot to := JNull]> (BrokeredMessage.new (JStr "hello") 1%positive "m1")) ∧
  refused (set_timeToLive (JStr "60") (BrokeredMessage.new (JStr "hello") 1%positive "m1")).
Proof.
  destruct (X6_setters to (BrokeredMessage.new (JStr "hello") 1%positive "m1"))
    as (Hnull & _ & _ & Hstr & _ & _ & _ & _ & Httl & _); [discriminate|].
  split; [|split].
  - apply (fun H => Hstr H ""%string 5 0).
    intros H. repeat (apply elem_of_cons in H as [H|H]; [discriminate H|]).
    by apply elem_of_nil in H.
  - by apply Hnull.
  - apply (Httl "60"%string 0 0).
Defined.

End SetterProperties.

(** ** clientManager.ts: the pool over every interleaving *)

Section PoolProperties.
Import ClientManager.

Lemma op_bounded_ok (op : Op) : op_bounded op → op_ok op.
Proof. destruct op; simpl; lia || done. Qed.

(** What the loop of [_getAMQPClient] finds. *)
Lemma find_client_spec (st : gmap nat AMQPClientState) (numLinks : Z) (pool : list ClientRef) :
  match find_client st numLinks pool with
  | Some r =>
      ∃ before after, pool = before ++ r :: after ∧
        (∀ x, x ∈ before → ¬ has_room st numLinks x) ∧ has_room st numLinks r
  | None => ∀ x, x ∈ pool → ¬ has_room st numLinks x
  end.
Proof.
  induction pool as [|x pool IH]; simpl.
  - intros x Hx. by apply elem_of_nil in Hx.
  - assert (Hskip : ¬ has_room st numLinks x →
              match find_client st numLinks pool with
              | Some r =>
                  ∃ before after, x :: pool = before ++ r :: after ∧
                    (∀ y, y ∈ before → ¬ has_room st numLinks y) ∧ has_room st numLinks r
              | None => ∀ y, y ∈ x :: pool → ¬ has_room st numLinks y
              end).
    { intros Hx. destruct (find_client st numLinks pool) as [r|].
      - destruct IH as (before & after & -> & Hb & Hr).
        exists (x :: before), after. split; [done|]. split; [|done].
        intros y Hy. apply elem_of_cons in Hy as [->|Hy]; [done|by apply Hb].
      - intros y Hy. apply elem_of_cons in Hy as [->|Hy]; [done|by apply IH]. }
    destruct (st !! x) as [c|] eqn:Ex.
    + destruct (linksCount c + numLinks <=? constants.handleMax) eqn:El.
      * exists [], pool. split; [done|]. split.
        -- intros y Hy. by apply elem_of_nil in Hy.
        -- exists c. split; [done|]. by apply Z.leb_le.
      * apply Hskip. intros (c' & Hc' & Hle). simplify_eq.
        apply Z.leb_gt in El. lia.
    + apply Hskip. intros (c' & Hc' & _). congruence.
Qed.

Lemma fresh_ref_unused (s : ClientManager.t) : store s !! fresh_ref s = None.
Proof. apply not_elem_of_dom. unfold fresh_ref. apply is_fresh. Qed.

(** The two ways [getAMQPClient] goes. *)
Lemma getAMQPClient_cases (n : Z) (s : ClientManager.t) :
  let s' := (getAMQPClient n s).1 in
  let r := lease_client (getAMQPClient n s).2 in
  lease_numLinks (getAMQPClient n s).2 = n ∧
  ((∃ before after c,
      _clients s = before ++ r :: after ∧
      (∀ x, x ∈ before → ¬ has_room (store s) n x) ∧
      store s !! r = Some c ∧ linksCount c + n <= constants.handleMax ∧
      store s' = <[r := {| linksCount := linksCount c + n; cleanupTimer := None |}]> (store s) ∧
      _clients s' = _clients s ∧ connect_calls s' = connect_calls s)
   ∨
   ((∀ x, x ∈ _clients s → ¬ has_room (store s) n x) ∧
    store s !! r = None ∧
    store s' = <[r := {| linksCount := n; cleanupTimer := None |}]> (store s) ∧
    _clients s' = _clients s ++ [r] ∧ connect_calls s' = connect_calls s ++ [r])) ∧
  continuations s' = continuations s ∧ disconnect_calls s' = disconnect_calls s.
Proof.
  unfold getAMQPClient, _getAMQPClient.
  pose proof (find_client_spec (store s) n (_clients s)) as Hf.
  destruct (find_client (store s) n (_clients s)) as [r0|].
  - destruct Hf as (before & after & Hpool & Hb & c & Hc & Hle).
    rewrite Hc. simpl. split; [done|]. split; [|done].
    left. by exists before, after, c.
  - simpl. split; [done|]. split; [|done].
    right. split; [done|]. split; [apply fresh_ref_unused|done].
Qed.

Lemma counts_bounded_step (s : ClientManager.t) (op : Op) :
  op_bounded op → counts_bounded s → counts_bounded (step s op).
Proof.
  intros Hop Inv. destruct op as [n|l|tid|i b|]; simpl in *.
  - destruct (getAMQPClient_cases n s) as (_ & [H|H] & _).
    + destruct H as (before & after & c & _ & _ & Hc & Hle & Hst & _).
      intros r c'. rewrite Hst.
      destruct (decide (r = lease_client (getAMQPClient n s).2)) as [->|Hne].
      * rewrite lookup_insert_eq. intros [= <-]. simpl.
        pose proof (Inv _ _ Hc). lia.
      * rewrite lookup_insert_ne by done. apply Inv.
    + destruct H as (_ & _ & Hst & _).
      intros r c'. rewrite Hst.
      destruct (decide (r = lease_client (getAMQPClient n s).2)) as [->|Hne].
      * rewrite lookup_insert_eq. by intros [= <-].
      * rewrite lookup_insert_ne by done. apply Inv.
  - unfold dispose_lease.
    destruct (store s !! lease_client l) as [c0|] eqn:E0; [|done].
    set (k := if 0 <=? _ then _ else 0).
    assert (Hk : 0 <= k <= constants.handleMax).
    { pose proof (Inv _ _ E0). subst k.
      destruct (0 <=? linksCount c0 - lease_numLinks l) eqn:E;
        [apply Z.leb_le in E|]; unfold constants.handleMax in *; lia. }
    assert (Hs1 : counts_bounded
                    (update_client (lease_client l)
                       {| linksCount := k; cleanupTimer := cleanupTimer c0 |} s)).
    { intros r c; simpl. destruct (decide (r = lease_client l)) as [->|Hne].
      - rewrite lookup_insert_eq. by intros [= <-].
      - rewrite lookup_insert_ne by done. apply Inv. }
    destruct (k =? 0); [|exact Hs1].
    unfold _scheduleCleanup. cbn [update_client set_store store].
    rewrite lookup_insert_eq. cbn [cleanupTimer linksCount].
    destruct (cleanupTimer c0); [exact Hs1|].
    intros r c; simpl. destruct (decide (r = lease_client l)) as [->|Hne].
    + rewrite lookup_insert_eq. by intros [= <-].
    + rewrite lookup_insert_ne by done. apply Hs1.
  - unfold fire_timer. destruct (event_loop s !! tid); [|done].
    intros r c. rewrite cleanupClient_store. apply Inv.
  - unfold resume. destruct (continuations s !! i) as [[r0 stage]|]; [|done].
    destruct (negb b); [done|]. destruct stage; [done|].
    intros r c; simpl. destruct (store s !! r0) as [c0|] eqn:E0; [|apply Inv].
    destruct (decide (r = r0)) as [->|Hne].
    + rewrite lookup_insert_eq. intros [= <-]. simpl. by apply (Inv _ _ E0).
    + rewrite lookup_insert_ne by done. apply Inv.
  - done.
Qed.

(** X7.  However acquisitions, releases, timers and disposals interleave,
    as long as no caller asks for more than [handleMax] links at once or
    for a negative number: no client state ever counts fewer than 0 or more
    than [handleMax] (255) links, and a client state that counts links has
    its [cleanupTimer] field set to [null]. *)
Theorem X7_link_counts_bounded (ops : list Op) :
  Forall op_bounded ops →
  ∀ r c, store (run ops) !! r = Some c →
    0 <= linksCount c <= constants.handleMax ∧
    (0 < linksCount c → cleanupTimer c = None).
Proof.
  intros Hops r c Hc. split.
  - revert r c Hc. fold (counts_bounded (run ops)). unfold run.
    assert (H0 : counts_bounded init).
    { intros r c H. change (store init) with (∅ : gmap nat AMQPClientState) in H.
      by rewrite lookup_empty in H. }
    revert Hops H0. generalize init.
    induction ops as [|op ops IH]; intros s Hops Inv; [done|].
    inversion Hops; subst. simpl. apply IH; [done|].
    by apply counts_bounded_step.
  - assert (Hok : Forall op_ok ops).
    { eapply Forall_impl; [exact Hops|]. apply op_bounded_ok. }
    exact (handle_cleared_run ops Hok r c Hc).
Qed.

Lemma X7_link_counts_bounded_witness :
  Forall op_bounded
    [Acquire 200; Acquire 56; Release {| lease_client := 0%nat; lease_numLinks := 300 |}] ∧
  ∃ c, store (run [Acquire 200; Acquire 56;
                   Release {| lease_client := 0%nat; lease_numLinks := 300 |}]) !! 1%nat
       = Some c ∧
       0 <= linksCount c <= constants.handleMax ∧
       (0 < linksCount c → cleanupTimer c = None).
Proof.
  assert (H : Forall op_bounded
                [Acquire 200; Acquire 56;
                 Release {| lease_client := 0%nat; lease_numLinks := 300 |}]).
  { repeat constructor; unfold constants.handleMax; simpl; lia. }
  split; [exact H|].
  exists {| linksCount := 56; cleanupTimer := None |}.
  split; [by vm_compute|].
  apply (X7_link_counts_bounded _ H 1%nat). by vm_compute.
Defined.

(** X8.  [getAMQPClient(n)] hands out the first client of the pool that
    has room for [n] more links, adds [n] to its count and opens no
    connection; only when no client of the pool has room does it create a
    client state with [n] links, append it to the pool and connect once.
    The lease it returns gives back [n] links. *)
Theorem X8_getAMQPClient_reuses (n : Z) (s : ClientManager.t) :
  let s' := (getAMQPClient n s).1 in
  let r := lease_client (getAMQPClient n s).2 in
  lease_numLinks (getAMQPClient n s).2 = n ∧
  ((∃ before after c,
      _clients s = before ++ r :: after ∧
      (∀ x, x ∈ before → ¬ has_room (store s) n x) ∧
      store s !! r = Some c ∧ linksCount c + n <= constants.handleMax ∧
      store s' = <[r := {| linksCount := linksCount c + n; cleanupTimer := None |}]> (store s) ∧
      _clients s' = _clients s ∧ connect_calls s' = connect_calls s)
   ∨
   ((∀ x, x ∈ _clients s → ¬ has_room (store s) n x) ∧
    store s !! r = None ∧
    store s' = <[r := {| linksCount := n; cleanupTimer := None |}]> (store s) ∧
    _clients s' = _clients s ++ [r] ∧ connect_calls s' = connect_calls s ++ [r])) ∧
  continuations s' = continuations s ∧ disconnect_calls s' = disconnect_calls s.
Proof. exact (getAMQPClient_cases n s). Qed.

Lemma cleanup_idle_step (s : ClientManager.t) (op : Op) :
  op_ok op → cleanup_idle s → cleanup_idle (step s op).
Proof.
  intros Hop Inv. destruct op as [n|l|tid|i b|]; simpl in *.
  - destruct (getAMQPClient_cases n s) as (_ & Hcase & Hk & _).
    intros r stage Hr. rewrite Hk in Hr.
    destruct (Inv r stage Hr) as (Hpool & c & Hc & H0).
    destruct Hcase as [H|H].
    + destruct H as (before & after & c0 & Hin & _ & _ & _ & Hst & Hcl & _).
      rewrite Hcl, Hst. split; [done|].
      exists c. split; [|done]. rewrite lookup_insert_ne; [done|].
      intros Heq. apply Hpool. rewrite Hin, <- Heq.
      apply elem_of_app. right. by left.
    + destruct H as (_ & Hfresh & Hst & Hcl & _).
      rewrite Hcl, Hst.
      assert (Hne : lease_client (getAMQPClient n s).2 ≠ r) by congruence.
      split.
      * intros Hin. apply elem_of_app in Hin as [Hin|Hin]; [done|].
        apply list_elem_of_singleton in Hin. congruence.
      * exists c. split; [|done]. by rewrite lookup_insert_ne.
  - unfold dispose_lease.
    destruct (store s !! lease_client l) as [c0|] eqn:E0; [|done].
    set (k := if 0 <=? _ then _ else 0).
    assert (Hs1 : cleanup_idle
                    (update_client (lease_client l)
                       {| linksCount := k; cleanupTimer := cleanupTimer c0 |} s)).
    { intros r stage Hr. destruct (Inv r stage Hr) as (Hpool & c & Hc & H0).
      split; [done|]. simpl.
      destruct (decide (r = lease_client l)) as [->|Hne].
      - rewrite lookup_insert_eq. eexists. split; [done|]. simpl.
        assert (c0 = c) as -> by congruence. subst k. rewrite H0.
        destruct (0 <=? 0 - lease_numLinks l) eqn:E; [apply Z.leb_le in E|]; lia.
      - exists c. by rewrite lookup_insert_ne. }
    destruct (k =? 0); [|exact Hs1].
    unfold _scheduleCleanup. cbn [update_client set_store store].
    rewrite lookup_insert_eq. cbn [cleanupTimer linksCount].
    destruct (cleanupTimer c0); [exact Hs1|].
    intros r stage Hr. destruct (Hs1 r stage Hr) as (Hpool & c & Hc & H0).
    split; [done|]. simpl in *.
    destruct (decide (r = lease_client l)) as [->|Hne].
    + rewrite lookup_insert_eq in *. eexists. split; [done|]. simpl. by simplify_eq.
    + exists c. rewrite lookup_insert_ne in Hc by done.
      by rewrite !lookup_insert_ne by done.
  - unfold fire_timer. destruct (event_loop s !! tid) as [r0|]; [|done].
    unfold _cleanupClient. simpl.
    destruct (store s !! r0) as [c0|] eqn:E0; [|done].
    destruct (bool_decide (r0 ∈ _clients s) && (linksCount c0 =? 0)) eqn:Ec; [|done].
    apply andb_true_iff in Ec as [_ Ez]. apply Z.eqb_eq in Ez.
    intros r stage Hr. simpl in *.
    apply elem_of_app in Hr as [Hr|Hr].
    + destruct (Inv r stage Hr) as (Hpool & c & Hc & H0).
      split; [|by exists c]. intros Hin. apply list_elem_of_filter in Hin as [_ Hin]. done.
    + apply list_elem_of_singleton in Hr. injection Hr as -> ->.
      split; [|by exists c0]. intros Hin. apply list_elem_of_filter in Hin as [Hne _]. done.
  - unfold resume. destruct (continuations s !! i) as [[r0 stage0]|] eqn:Ei; [|done].
    assert (Hrest : ∀ x, x ∈ delete i (continuations s) → x ∈ continuations s)
      by (intros x; apply list_elem_of_delete_inv).
    assert (H0 : (r0, stage0) ∈ continuations s) by (by eapply list_elem_of_lookup_2).
    destruct (negb b).
    { intros r stage Hr. simpl in *. by apply (Inv r stage), Hrest. }
    destruct stage0.
    + intros r stage Hr. simpl in *. apply elem_of_app in Hr as [Hr|Hr].
      * by apply (Inv r stage), Hrest.
      * apply list_elem_of_singleton in Hr. injection Hr as -> ->.
        by apply (Inv r0 AwaitClient).
    + intros r stage Hr. simpl in *.
      destruct (Inv r stage (Hrest _ Hr)) as (Hpool & c & Hc & Hz).
      split; [done|].
      destruct (store s !! r0) as [c0|] eqn:E0; [|by exists c].
      destruct (decide (r = r0)) as [->|Hne].
      * rewrite lookup_insert_eq. eexists. split; [done|]. simpl. by simplify_eq.
      * exists c. by rewrite lookup_insert_ne.
  - intros r stage Hr. simpl in *. destruct (Inv r stage Hr) as (_ & Hc).
    split; [|done]. apply not_elem_of_nil.
Qed.

(** A client state that has left the pool stays out: no step puts a
    client state back, a new one gets a reference of its own, and a lease
    given back late leaves the count at 0. *)
Lemma retired_step (r : ClientRef) (s : ClientManager.t) (op : Op) :
  op_ok op → retired r s → retired r (step s op).
Proof.
  intros Hop (Hpool & c & Hc & H0). destruct op as [n|l|tid|i b|]; simpl in *.
  - destruct (getAMQPClient_cases n s) as (_ & Hcase & _).
    destruct Hcase as [H|H].
    + destruct H as (before & after & c0 & Hin & _ & _ & _ & Hst & Hcl & _).
      split; [by rewrite Hcl|]. rewrite Hst.
      exists c. split; [|done]. rewrite lookup_insert_ne; [done|].
      intros Heq. apply Hpool. rewrite Hin, <- Heq.
      apply elem_of_app. right. by left.
    + destruct H as (_ & Hfresh & Hst & Hcl & _).
      assert (Hne : lease_client (getAMQPClient n s).2 ≠ r) by congruence.
      split.
      * rewrite Hcl. intros Hin. apply elem_of_app in Hin as [Hin|Hin]; [done|].
        apply list_elem_of_singleton in Hin. congruence.
      * rewrite Hst. exists c. split; [|done]. by rewrite lookup_insert_ne.
  - unfold dispose_lease.
    destruct (store s !! lease_client l) as [c0|] eqn:E0; [|by split; [|exists c]].
    set (k := if 0 <=? _ then _ else 0).
    assert (Hs1 : retired r
                    (update_client (lease_client l)
                       {| linksCount := k; cleanupTimer := cleanupTimer c0 |} s)).
    { split; [done|]. simpl.
      destruct (decide (r = lease_client l)) as [->|Hne].
      - rewrite lookup_insert_eq. eexists. split; [done|]. simpl.
        assert (c0 = c) as -> by congruence. subst k. rewrite H0.
        destruct (0 <=? 0 - lease_numLinks l) eqn:E; [apply Z.leb_le in E|]; lia.
      - exists c. by rewrite lookup_insert_ne. }
    destruct (k =? 0); [|exact Hs1].
    unfold _scheduleCleanup. cbn [update_client set_store store].
    rewrite lookup_insert_eq. cbn [cleanupTimer linksCount].
    destruct (cleanupTimer c0); [exact Hs1|].
    destruct Hs1 as (Hpool1 & c1 & Hc1 & H1).
    split; [done|]. simpl in *.
    destruct (decide (r = lease_client l)) as [->|Hne].
    + rewrite lookup_insert_eq in *. eexists. split; [done|]. simpl. by simplify_eq.
    + exists c1. rewrite lookup_insert_ne in Hc1 by done.
      by rewrite !lookup_insert_ne by done.
  - unfold fire_timer. destruct (event_loop s !! tid) as [r0|]; [|by split; [|exists c]].
    unfold _cleanupClient. simpl.
    destruct (store s !! r0) as [c0|] eqn:E0; [|by split; [|exists c]].
    destruct (bool_decide (r0 ∈ _clients s) && (linksCount c0 =? 0));
      [|by split; [|exists c]].
    split; [|by exists c]. simpl.
    intros Hin. apply list_elem_of_filter in Hin as [_ Hin]. done.
  - unfold resume.
    destruct (continuations s !! i) as [[r0 stage0]|]; [|by split; [|exists c]].
    destruct (negb b); [by split; [|exists c]|].
    destruct stage0; [by split; [|exists c]|].
    split; [done|]. simpl.
    destruct (store s !! r0) as [c0|] eqn:E0; [|by exists c].
    destruct (decide (r = r0)) as [->|Hne].
    + rewrite lookup_insert_eq. eexists. split; [done|]. simpl. by simplify_eq.
    + exists c. by rewrite lookup_insert_ne.
  - split; [apply not_elem_of_nil|by exists c].
Qed.

(** X9.  However acquisitions, releases, timers and disposals interleave:
    a client that an idle-cleanup has begun to disconnect is out of the
    pool and counts no links, and this is for good: while the cleanup is
    suspended, after it has finished or failed, and after whatever
    follows, the client is not in the pool, counts no links, and
    [getAMQPClient] never hands it out again. *)
Theorem X9_cleanup_takes_idle_clients (ops later : list Op) :
  Forall op_ok (ops ++ later) →
  ∀ r stage, (r, stage) ∈ continuations (run ops) →
    (r ∉ _clients (run (ops ++ later))) ∧
    (∃ c, store (run (ops ++ later)) !! r = Some c ∧ linksCount c = 0) ∧
    ∀ n, lease_client (getAMQPClient n (run (ops ++ later))).2 ≠ r.
Proof.
  intros Hall. apply Forall_app in Hall as [Hops Hlater].
  assert (Inv : cleanup_idle (run ops)).
  { unfold run.
    assert (H0 : cleanup_idle init).
    { intros r stage H. by apply elem_of_nil in H. }
    revert Hops H0. generalize init.
    induction ops as [|op ops IH]; intros s Hops Inv; [done|].
    inversion Hops; subst. simpl. apply IH; [done|].
    by apply cleanup_idle_step. }
  intros r stage Hr.
  assert (Hret : retired r (run (ops ++ later))).
  { unfold run. rewrite fold_left_app. fold (run ops).
    pose proof (Inv r stage Hr) as H0. revert H0. generalize (run ops).
    induction later as [|op later IH]; intros s Hs; [done|].
    inversion Hlater; subst. simpl. apply IH; [done|].
    by apply retired_step. }
  destruct Hret as (Hpool & c & Hc & H0).
  split; [done|]. split; [by exists c|].
  intros n Heq.
  destruct (getAMQPClient_cases n (run (ops ++ later))) as (_ & [H|H] & _).
  - destruct H as (before & after & _ & Hin & _).
    apply Hpool. rewrite Hin, Heq. apply elem_of_app. right. by left.
  - destruct H as (_ & Hfresh & _). congruence.
Qed.

Lemma X9_cleanup_takes_idle_clients_witness :
  (0%nat, AwaitClient)
    ∈ continuations (run [Acquire 1; Release {| lease_client := 0%nat; lease_numLinks := 1 |};
                          Fire 0%nat]) ∧
  continuations
    (run ([Acquire 1; Release {| lease_client := 0%nat; lease_numLinks := 1 |}; Fire 0%nat]
          ++ [Resume 0%nat true; Resume 0%nat true])) = [] ∧
  lease_client
    (getAMQPClient 1
       (run ([Acquire 1; Release {| lease_client := 0%nat; lease_numLinks := 1 |}; Fire 0%nat]
             ++ [Resume 0%nat true; Resume 0%nat true]))).2 ≠ 0%nat.
Proof.
  assert (H : (0%nat, AwaitClient)
    ∈ continuations (run [Acquire 1; Release {| lease_client := 0%nat; lease_numLinks := 1 |};
                          Fire 0%nat])).
  { vm_compute. by left. }
  split; [exact H|]. split; [by vm_compute|].
  apply (X9_cleanup_takes_idle_clients
           [Acquire 1; Release {| lease_client := 0%nat; lease_numLinks := 1 |}; Fire 0%nat]
           [Resume 0%nat true; Resume 0%nat true])
    with (stage := AwaitClient); [|exact H].
  repeat constructor; simpl; lia.
Defined.

End PoolProperties.

(** ** amqpRequestClient.ts: detach, dispose and late responses *)

Section RequestClientEdges.
Import AmqpRequestClient.

Lemma stage_maps (m : string) (s : AmqpRequestClient.t) :
  consistent s → ¬ open m s →
  _pendingRequests s !! m = None ∧ _requestTimeouts s !! m = None ∧
  _requestTerminations s !! m = None.
Proof.
  intros C Hno. destruct (stages s C m) as [Hi|[Ho|[o Hc]]]; [|done|].
  - unfold idle, view in Hi. by simplify_eq.
  - unfold closed, view in Hc. by simplify_eq.
Qed.

Lemma no_open_nothing_outstanding (s : AmqpRequestClient.t) :
  consistent s → (∀ m, ¬ open m s) → nothing_outstanding s.
Proof.
  intros C Hno.
  assert (Ht : _requestTimeouts s = ∅).
  { apply map_empty. intros m. by apply (stage_maps m s C (Hno m)). }
  split; [|split; [done|split]].
  - apply map_empty. intros m. by apply (stage_maps m s C (Hno m)).
  - apply map_empty. intros m. by apply (stage_maps m s C (Hno m)).
  - apply map_empty. intros tid.
    destruct (event_loop s !! tid) as [m|] eqn:E; [|done].
    apply (timers_registered s C) in E. rewrite Ht in E. by rewrite lookup_empty in E.
Qed.

(** A promise settles once: no callback and no failed send changes a
    caller's promise that is settled. *)
Lemma keeps_refl (s : AmqpRequestClient.t) : keeps s s.
Proof. by intros m p H. Qed.

Lemma keeps_trans (s1 s2 s3 : AmqpRequestClient.t) :
  keeps s1 s2 → keeps s2 s3 → keeps s1 s3.
Proof. intros H1 H2 m p H Hp. apply H2; [|done]. by apply H1. Qed.

Lemma keeps_same (s s' : AmqpRequestClient.t) : returned s' = returned s → keeps s s'.
Proof. intros H m p Hm _. by rewrite H. Qed.

Lemma keeps_finish (m : string) (o : Outcome) (s : AmqpRequestClient.t) :
  keeps s (finish m o s).
Proof.
  intros m' p H Hp. simpl. destruct (decide (m = m')) as [->|Hne].
  - rewrite lookup_alter_eq, H. simpl. by destruct p.
  - by rewrite lookup_alter_ne.
Qed.

Lemma keeps_terminateRequests (s : AmqpRequestClient.t) : keeps s (_terminateRequests s).
Proof.
  unfold _terminateRequests. generalize (map_to_list (_requestTerminations s)).
  intros l. revert s. induction l as [|kv l IH]; intros s; [apply keeps_refl|].
  simpl. eapply keeps_trans; [|apply IH].
  apply (keeps_finish kv.2 ByTerminator).
Qed.

Lemma keeps_step (s : AmqpRequestClient.t) (ev : Event) :
  (∀ m, ev ≠ SendRequest m) → keeps s (step s ev).
Proof.
  intros Hev. destruct ev as [m|response|tid|m err|b| | |]; simpl.
  - by destruct (Hev m).
  - unfold on_message. induction (message_listeners s) as [|n IH]; [apply keeps_refl|].
    simpl. eapply keeps_trans; [exact IH|]. unfold response_listener.
    destruct (_pendingRequests _ !! correlationId response) as [h|]; [|by apply keeps_same].
    eapply keeps_trans; [|apply (keeps_finish h (ByResponse response))].
    by apply keeps_same.
  - unfold fire_timer. destruct (event_loop s !! tid) as [m|]; [|apply keeps_refl].
    eapply keeps_trans; [|apply (keeps_finish m ByTimeout)]. by apply keeps_same.
  - intros m' p H Hp. simpl. destruct (decide (m = m')) as [->|Hne].
    + rewrite lookup_alter_eq, H. simpl. by destruct p.
    + by rewrite lookup_alter_ne.
  - by apply keeps_same.
  - unfold on_receiver_detached. destruct (message_listeners s); [by apply keeps_same|].
    eapply keeps_trans; [|apply keeps_terminateRequests]. by apply keeps_same.
  - unfold on_receiver_attached. destruct (message_listeners s); [by apply keeps_same|].
    destruct (_isListening s); by apply keeps_same.
  - unfold dispose.
    eapply keeps_trans; [|by apply keeps_same].
    eapply keeps_trans; [|apply keeps_terminateRequests]. by apply keeps_same.
Qed.

(** X10.  When the response receiver detaches, or the client is disposed,
    the terminator of every request that is still waiting runs: the
    request is completed by it, and the promise its caller holds is rejected
    with [RequestTerminated], unless the acknowledgement of its send had
    failed before, in which case that promise stays rejected with
    [RequestFailure].  Every request completed before keeps its outcome,
    every caller's promise settled before stays as it is, and nothing is
    left behind: the maps of pending requests, of request timeouts and of
    terminators are empty and no request timer is armed. *)
Theorem X10_detach_terminates_everything (evs : list Event) (ev : Event) :
  NoDup (request_ids evs) →
  receiver_gone ev (run evs) →
  nothing_outstanding (run (evs ++ [ev])) ∧
  (∀ m, waiting m (run evs) → completed m ByTerminator (run (evs ++ [ev]))) ∧
  (∀ m o, completed m o (run evs) → completed m o (run (evs ++ [ev]))) ∧
  sent (run (evs ++ [ev])) = sent (run evs) ∧
  (∀ m, waiting m (run evs) →
     ((∀ err, SendFailed m err ∉ evs) →
      ∃ e, returned (run (evs ++ [ev])) !! m = Some (Rejected e) ∧
           name e = ErrorNames.Internal.RequestTerminated) ∧
     ∃ e, returned (run (evs ++ [ev])) !! m = Some (Rejected e) ∧
          (name e = ErrorNames.Internal.RequestTerminated ∨
           (name e = ErrorNames.Internal.RequestFailure ∧
            ∃ err, SendFailed m err ∈ evs ∧ e = send_failure err))) ∧
  (∀ m p, returned (run evs) !! m = Some p → p ≠ Pending →
          returned (run (evs ++ [ev])) !! m = Some p).
Proof.
  intros Hnd Hev.
  destruct (run_invariant evs Hnd) as (C & A & _).
  assert (Hnot : ∀ m, ev ≠ SendRequest m) by (by destruct Hev as [->|[-> _]]).
  assert (Hnof : ∀ m err, ev ≠ SendFailed m err) by (by destruct Hev as [->|[-> _]]).
  destruct (turn_step (run evs) ev C A Hnot) as (C' & A' & Hadv & Hsent).
  pose proof (keeps_step (run evs) ev Hnot) as Hkeeps.
  assert (Hsees : ∀ m, caller_sees (fun err => SendFailed m err ∈ evs) m (step (run evs) ev)).
  { intros m. apply (follows_step (run evs) ev Hnof). apply caller_sees_run. }
  rewrite run_snoc.
  assert (Hclose : ∀ m, open m (run evs) → closed m ByTerminator (step (run evs) ev)).
  { intros m Ho. destruct Hev as [->|[-> Hn]]; simpl.
    - by apply path_dispose.
    - by apply path_terminate. }
  assert (Hno : ∀ m, ¬ open m (step (run evs) ev)).
  { intros m Ho'. destruct (stages _ C m) as [Hi|[Ho|[o Hc]]].
    - destruct (Hadv m) as [Hv|[Ho _]].
      + apply (idle_not_open m (run evs) Hi). unfold open in *. by rewrite <- Hv.
      + by apply (idle_not_open m (run evs) Hi).
    - by apply (closed_not_open m ByTerminator _ (Hclose m Ho)).
    - by apply (closed_not_open m o _ (advances_closed m o _ _ (Hadv m) Hc)). }
  split; [by apply no_open_nothing_outstanding|].
  split; [|split; [|split; [done|split; [|done]]]].
  - intros m Hw. apply closed_completed; [done|]. by apply Hclose, waiting_open.
  - intros m o Hc. apply closed_completed; [done|].
    apply (advances_closed m o _ _ (Hadv m)). by apply completed_closed.
  - intros m Hw.
    pose proof (Hclose m (waiting_open m _ Hw)) as Hc.
    assert (results (step (run evs) ev) !! m = Some (settlement m ByTerminator)) as Hr.
    { unfold closed, view in Hc. congruence. }
    destruct (Hsees m) as [H|(err & Hf & H & _)].
    + rewrite H, Hr. split; [intros _|]; eexists; split; try reflexivity. by left.
    + split; [intros Hnone; by destruct (Hnone err)|].
      eexists. split; [exact H|]. right. split; [done|]. by exists err.
Qed.

Lemma X10_detach_terminates_everything_witness :
  nothing_outstanding (run [SendRequest "request-1"; SendRequest "request-2"; ReceiverDetached]) ∧
  completed "request-2" ByTerminator
    (run [SendRequest "request-1"; SendRequest "request-2"; ReceiverDetached]) ∧
  ∃ e, returned (run [SendRequest "request-1"; SendRequest "request-2"; ReceiverDetached])
         !! "request-2"%string = Some (Rejected e) ∧
       name e = ErrorNames.Internal.RequestTerminated.
Proof.
  assert (waiting "request-2" (run [SendRequest "request-1"; SendRequest "request-2"])) as Hw.
  { unfold waiting. split; [by vm_compute|]. split; [by vm_compute|].
    split; [by vm_compute|]. split; [by vm_compute|].
    exists 1%nat. split; by vm_compute. }
  destruct (X10_detach_terminates_everything
              [SendRequest "request-1"; SendRequest "request-2"] ReceiverDetached)
    as (H1 & H2 & _ & _ & H5 & _).
  - apply NoDup_cons. split; [|apply NoDup_singleton].
    intros H. apply list_elem_of_singleton in H. discriminate H.
  - right. split; [done|]. by vm_compute.
  - split; [exact H1|]. split; [by apply H2|].
    apply (H5 "request-2"%string Hw). intros err H.
    repeat (apply elem_of_cons in H as [H|H]; [discriminate H|]).
    by apply elem_of_nil in H.
Defined.

(** The terminators settle requests; the links, the listeners and the
    errors emitted so far are not theirs to change. *)
Lemma terminate_keeps_links (s : AmqpRequestClient.t) :
  receiver_state (_terminateRequests s) = receiver_state s ∧
  sender_canSend (_terminateRequests s) = sender_canSend s ∧
  message_listeners (_terminateRequests s) = message_listeners s ∧
  _isListening (_terminateRequests s) = _isListening s ∧
  emitted (_terminateRequests s) = emitted s.
Proof.
  unfold _terminateRequests. generalize (map_to_list (_requestTerminations s)).
  intros l. revert s. induction l as [|kv l IH]; intros s; [done|].
  simpl. destruct (IH (terminationFn kv.2 s)) as (-> & -> & -> & -> & ->). done.
Qed.

(** X11.  A request is refused, with [RequestFailure] and the status 503,
    whenever the request sender cannot send or the response receiver is not
    attached, and a refused request installs nothing: no handler, no timer,
    no terminator.  So every request made after the response receiver
    detached is refused, and once the receiver is attached again, with a
    sender that can send, requests are admitted again. *)
Theorem X11_requests_refused_while_detached (m : string) (s : AmqpRequestClient.t) :
  (sender_canSend s = false ∨ receiver_state s ≠ "attached"%string →
   ∃ e, _sendRequest m s = (s, Rejected e) ∧
        name e = ErrorNames.Internal.RequestFailure ∧
        context e = [("status"%string, JNum 503)]) ∧
  (∃ e, _sendRequest m (on_receiver_detached s) = (on_receiver_detached s, Rejected e) ∧
        name e = ErrorNames.Internal.RequestFailure) ∧
  (sender_canSend s = true →
   (_sendRequest m (on_receiver_attached s)).2 = Pending ∧
   _pendingRequests (_sendRequest m (on_receiver_attached s)).1 !! m = Some m ∧
   sent (_sendRequest m (on_receiver_attached s)).1 = sent s ++ [m]).
Proof.
  assert (Hpre : ∀ s0, sender_canSend s0 = false ∨ receiver_state s0 ≠ "attached"%string →
            ∃ e, _sendRequest m s0 = (s0, Rejected e) ∧
                 name e = ErrorNames.Internal.RequestFailure ∧
                 context e = [("status"%string, JNum 503)]).
  { intros s0 H. unfold _sendRequest.
    replace (negb (sender_canSend s0) || negb (String.eqb (receiver_state s0) "attached"))
      with true.
    - eexists. by split.
    - symmetry. destruct H as [-> | H]; [done|].
      apply String.eqb_neq in H. rewrite H. apply orb_true_r. }
  split; [apply Hpre|]. split.
  - destruct (Hpre (on_receiver_detached s)) as (e & He & Hn & _); [|by exists e].
    right. unfold on_receiver_detached.
    destruct (message_listeners s); [done|].
    destruct (terminate_keeps_links
                (set_links (sender_canSend s) "detached" false (S n) s)) as (-> & _).
    done.
  - intros Hs. unfold _sendRequest.
    assert (Hc : sender_canSend (on_receiver_attached s) = true ∧
                 receiver_state (on_receiver_attached s) = "attached"%string ∧
                 sent (on_receiver_attached s) = sent s).
    { unfold on_receiver_attached. destruct (message_listeners s); [done|].
      by destruct (_isListening s). }
    destruct Hc as (-> & -> & Hsent). simpl.
    by rewrite lookup_insert_eq, Hsent.
Qed.

Lemma orphans_reported (response : AmqpResponse) (k : nat) (s : AmqpRequestClient.t) :
  _pendingRequests s !! correlationId response = None →
  let r := Nat.iter k (response_listener response) s in
  name <$> emitted r
    = (name <$> emitted s) ++ replicate k ErrorNames.Internal.OrphanedResponse ∧
  _pendingRequests r = _pendingRequests s ∧
  (∀ m, view m r = view m s) ∧
  event_loop r = event_loop s.
Proof.
  intros Hp. induction k as [|k IH].
  { simpl. by rewrite app_nil_r. }
  rewrite Nat.iter_succ. destruct IH as (He & Hpend & Hv & Hel).
  unfold response_listener at 1. rewrite Hpend, Hp. simpl.
  split; [|done].
  rewrite fmap_app, He, replicate_cons_app. simpl. by rewrite <- app_assoc.
Qed.

(** X12.  The response listeners of the client only ever grow: a detach of
    the response receiver removes none, and the re-attach that follows
    installs one more.  Every listener looks a response up in the pending
    requests, so a response to a request that is not waiting (never sent,
    or completed already) is reported as an [OrphanedResponse] error once
    per listener and changes no request; and with [n + 1] listeners a
    response to a waiting request completes it and is reported as orphaned
    [n] times. *)
Theorem X12_listeners_accumulate (evs : list Event) (response : AmqpResponse) :
  NoDup (request_ids evs) →
  message_listeners (run (evs ++ [ReceiverDetached; ReceiverAttached]))
    = (match message_listeners (run evs) with
       | O => O
       | S n => S (S n)
       end) ∧
  (¬ waiting (correlationId response) (run evs) →
   name <$> emitted (run (evs ++ [Message response]))
     = (name <$> emitted (run evs))
       ++ replicate (message_listeners (run evs)) ErrorNames.Internal.OrphanedResponse ∧
   ∀ m, view m (run (evs ++ [Message response])) = view m (run evs)) ∧
  (waiting (correlationId response) (run evs) →
   ∀ n, message_listeners (run evs) = S n →
     completed (correlationId response) (ByResponse response)
       (run (evs ++ [Message response])) ∧
     name <$> emitted (run (evs ++ [Message response]))
       = (name <$> emitted (run evs)) ++ replicate n ErrorNames.Internal.OrphanedResponse).
Proof.
  intros Hnd. destruct (run_invariant evs Hnd) as (C & A & _).
  split; [|split].
  - replace (evs ++ [ReceiverDetached; ReceiverAttached])
      with ((evs ++ [ReceiverDetached]) ++ [ReceiverAttached]) by (by rewrite <- app_assoc).
    rewrite !run_snoc. simpl. unfold on_receiver_detached.
    destruct (message_listeners (run evs)) as [|n] eqn:E; [done|].
    unfold on_receiver_attached.
    destruct (terminate_keeps_links
                (set_links (sender_canSend (run evs)) "detached" false (S n) (run evs)))
      as (_ & _ & -> & -> & _).
    done.
  - intros Hw. rewrite run_snoc. simpl. unfold on_message.
    assert (Hp : _pendingRequests (run evs) !! correlationId response = None).
    { apply stage_maps; [done|]. intros Ho. apply Hw. by apply open_waiting. }
    destruct (orphans_reported response (message_listeners (run evs)) (run evs) Hp)
      as (He & _ & Hv & _).
    done.
  - intros Hw n Hn. pose proof (waiting_open _ _ Hw) as Ho.
    assert (Hev : ∀ m, Message response ≠ SendRequest m) by done.
    destruct (turn_step (run evs) (Message response) C A Hev) as (C' & _).
    rewrite run_snoc. split.
    + apply closed_completed; [done|]. simpl. apply path_response; try done.
      by rewrite Hn.
    + simpl. unfold on_message. rewrite Hn, Nat.iter_succ_r.
      rewrite (response_listener_finish response _ C).
      destruct Hw as (_ & _ & -> & _).
      destruct (orphans_reported response n
                  (finish (correlationId response) (ByResponse response) (run evs)))
        as (He & _).
      { unfold finish. simpl. apply lookup_delete_eq. }
      rewrite He. done.
Qed.

Lemma X12_listeners_accumulate_witness :
  completed "request-1"
    (ByResponse {| correlationId := "request-1"; statusCode := 200; statusDescription := "OK";
                   errorCondition := JUndefined; trackingId := JUndefined |})
    (run [ReceiverDetached; ReceiverAttached; SendRequest "request-1";
          Message {| correlationId := "request-1"; statusCode := 200; statusDescription := "OK";
                     errorCondition := JUndefined; trackingId := JUndefined |}]) ∧
  name <$> emitted
    (run [ReceiverDetached; ReceiverAttached; SendRequest "request-1";
          Message {| correlationId := "request-1"; statusCode := 200; statusDescription := "OK";
                     errorCondition := JUndefined; trackingId := JUndefined |}])
  = [ErrorNames.Internal.OrphanedResponse].
Proof.
  destruct (X12_listeners_accumulate
              [ReceiverDetached; ReceiverAttached; SendRequest "request-1"]
              {| correlationId := "request-1"; statusCode := 200; statusDescription := "OK";
                 errorCondition := JUndefined; trackingId := JUndefined |})
    as (_ & _ & H).
  - apply NoDup_singleton.
  - apply (H ltac:(unfold waiting; repeat split; try (by vm_compute);
                   exists 0%nat; split; by vm_compute) 1%nat).
    by vm_compute.
Defined.

End RequestClientEdges.

(** ** creditManager.ts: any interleaving of the settlements of messages *)

Section CreditConservation.
Import CreditManager.

Ltac set_facts := set_unfold; intuition (subst; eauto).

Lemma size_new_token (t : string) (X T : gset string) :
  t ∉ T → size (({[t]} ∪ X) ∖ T) = S (size (X ∖ ({[t]} ∪ T))).
Proof.
  intros Ht.
  replace (({[t]} ∪ X) ∖ T) with ({[t]} ∪ (X ∖ ({[t]} ∪ T))).
  - rewrite size_union, size_singleton; [done|].
    apply disjoint_singleton_l. rewrite elem_of_difference, elem_of_union, elem_of_singleton.
    tauto.
  - apply set_eq. intros x.
    rewrite elem_of_union, !elem_of_difference, !elem_of_union, !elem_of_singleton.
    destruct (decide (x = t)) as [->|Hne]; tauto.
Qed.

Lemma size_known_token (t : string) (X T : gset string) :
  t ∈ T → ({[t]} ∪ X) ∖ T = X ∖ T.
Proof.
  intros Ht. apply set_eq. intros x.
  rewrite !elem_of_difference, elem_of_union, elem_of_singleton.
  split; [|tauto]. intros [[->|Hx] Hn]; [done|tauto].
Qed.

Lemma settleMessage_fresh t cm links :
  t ∉ _pendingSettles cm →
  let '(cm', links', _) := settleMessage t cm links in
  credits_counted cm' links' = credits_counted cm links + 1 ∧
  _pendingSettles cm' = _pendingSettles cm.
Proof.
  intros H. unfold settleMessage. rewrite decide_False by done.
  set (cm1 := set_additionalCredits _ _).
  pose proof (refreshCredits_counted cm1 links) as Hc.
  pose proof (refreshCredits_pending cm1 links) as Hp.
  destruct (refreshCredits cm1 links) as [[cm' links'] res]. simpl in *.
  split; [|done]. rewrite Hc. apply counted_incr.
Qed.

(** The count and the pending set along a sequence of calls that has
    reached the tokens [T], of which [D] are settled. *)
Lemma credit_run_counts (ops : list CreditOp) :
  ∀ cm links (T D : gset string),
    _pendingSettles cm = T ∖ D → D ⊆ T → settle_protocol D ops →
    credits_counted (credit_run ops (cm, links)).1 (credit_run ops (cm, links)).2
      = credits_counted cm links + Z.of_nat (size (tokens ops ∖ T)) ∧
    _pendingSettles (credit_run ops (cm, links)).1
      = (T ∪ tokens ops) ∖ (D ∪ settled_tokens ops).
Proof.
  induction ops as [|op ops IH]; intros cm links T D Hp HD Hproto.
  { simpl. replace (∅ ∖ T) with (∅ : gset string) by (apply set_eq; intros x; set_facts).
    rewrite size_empty, Hp. split; [lia|]. apply set_eq. intros x. set_facts. }
  destruct op as [t|t|]; simpl in Hproto |- *.
  - destruct Hproto as [HtD Hproto].
    destruct (decide (t ∈ T)) as [HtT|HtT].
    + assert (Hin : t ∈ _pendingSettles cm) by (rewrite Hp; set_facts).
      rewrite (scheduleMessageSettle_pending t cm links Hin). simpl.
      destruct (IH cm links T D Hp HD Hproto) as [Hc Hq].
      rewrite size_known_token by done. split; [done|].
      rewrite Hq. apply set_eq. intros x. set_facts.
    + assert (Hnot : t ∉ _pendingSettles cm) by (rewrite Hp; set_facts).
      pose proof (scheduleMessageSettle_fresh t cm links Hnot) as Hf.
      destruct (scheduleMessageSettle t cm links) as [[cm1 links1] res]. simpl.
      destruct Hf as [Hc1 Hp1].
      destruct (IH cm1 links1 ({[t]} ∪ T) D) as [Hc Hq]; [| |done|].
      * rewrite Hp1, Hp. apply set_eq. intros x. set_facts.
      * set_facts.
      * rewrite size_new_token by done. split; [rewrite Hc, Hc1; lia|].
        rewrite Hq. apply set_eq. intros x. set_facts.
  - destruct Hproto as [HtD Hproto].
    destruct (decide (t ∈ T)) as [HtT|HtT].
    + assert (Hin : t ∈ _pendingSettles cm) by (rewrite Hp; set_facts).
      rewrite (settleMessage_pending t cm links Hin). simpl.
      destruct (IH (set_pendingSettles (_pendingSettles cm ∖ {[t]}) cm) links T ({[t]} ∪ D))
        as [Hc Hq]; [| |done|].
      * simpl. rewrite Hp. apply set_eq. intros x. set_facts.
      * set_facts.
      * rewrite size_known_token by done. split; [done|].
        rewrite Hq. apply set_eq. intros x. set_facts.
    + assert (Hnot : t ∉ _pendingSettles cm) by (rewrite Hp; set_facts).
      pose proof (settleMessage_fresh t cm links Hnot) as Hf.
      destruct (settleMessage t cm links) as [[cm1 links1] res]. simpl.
      destruct Hf as [Hc1 Hp1].
      destruct (IH cm1 links1 ({[t]} ∪ T) ({[t]} ∪ D)) as [Hc Hq]; [| |done|].
      * rewrite Hp1, Hp. apply set_eq. intros x. set_facts.
      * set_facts.
      * rewrite size_new_token by done. split; [rewrite Hc, Hc1; lia|].
        rewrite Hq. apply set_eq. intros x. set_facts.
  - pose proof (refreshCredits_counted cm links) as Hc1.
    pose proof (refreshCredits_pending cm links) as Hp1.
    destruct (refreshCredits cm links) as [[cm1 links1] res]. simpl in *.
    destruct (IH cm1 links1 T D) as [Hc Hq]; [congruence|done|done|].
    split; [by rewrite Hc, Hc1|done].
Qed.

(** X13.  On a credit manager with nothing pending, in any interleaving of
    the settlements of any number of messages (each settled at most once,
    none scheduled after it was settled, scheduled any number of times
    before, with [refreshCredits] in between), the credits counted grow by
    exactly one for each message the calls name, wherever they are by then
    (in the counter or handed to the link); and the tokens left pending are
    those scheduled and not yet settled, [pendingSettleCount] being their
    number. *)
Theorem X13_one_credit_per_message (ops : list CreditOp) (cm : CreditManager.t)
    (links : LinkStore) :
  _pendingSettles cm = ∅ →
  settle_protocol ∅ ops →
  credits_counted (credit_run ops (cm, links)).1 (credit_run ops (cm, links)).2
    = credits_counted cm links + Z.of_nat (size (tokens ops)) ∧
  _pendingSettles (credit_run ops (cm, links)).1 = tokens ops ∖ settled_tokens ops ∧
  pendingSettleCount (credit_run ops (cm, links)).1 = size (tokens ops ∖ settled_tokens ops).
Proof.
  intros Hp Hproto.
  destruct (credit_run_counts ops cm links ∅ ∅) as [Hc Hq]; [by rewrite Hp, difference_diag_L|done|done|].
  rewrite difference_empty_L in Hc.
  replace ((∅ ∪ tokens ops) ∖ (∅ ∪ settled_tokens ops))
    with (tokens ops ∖ settled_tokens ops) in Hq by (apply set_eq; intros x; set_facts).
  split; [done|]. split; [done|].
  unfold pendingSettleCount. by rewrite Hq.
Qed.

Lemma X13_one_credit_per_message_witness :
  credits_counted
    (credit_run [Schedule "a"; Schedule "b"; Schedule "a"; Settle "b"; Settle "c"; Refresh;
                 Settle "a"] (Examples.creditManager, {[ 0%nat := Examples.link ]})).1
    (credit_run [Schedule "a"; Schedule "b"; Schedule "a"; Settle "b"; Settle "c"; Refresh;
                 Settle "a"] (Examples.creditManager, {[ 0%nat := Examples.link ]})).2
  = credits_counted Examples.creditManager {[ 0%nat := Examples.link ]} + 3.
Proof.
  destruct (X13_one_credit_per_message
              [Schedule "a"; Schedule "b"; Schedule "a"; Settle "b"; Settle "c"; Refresh;
               Settle "a"] Examples.creditManager {[ 0%nat := Examples.link ]}) as [H _].
  - reflexivity.
  - simpl. repeat split; set_unfold; intuition discriminate.
  - rewrite H. f_equal.
Defined.

(** On a link that is not attached [refreshCredits] returns at once. *)
Lemma refreshCredits_detached cm links r l :
  _link cm = Some r → links !! r = Some l → state l ≠ "attached"%string →
  refreshCredits cm links = (cm, links, Ok tt).
Proof.
  intros Hr Hl Hs. unfold refreshCredits. rewrite Hr, Hl.
  unfold is_attached. apply String.eqb_neq in Hs. by rewrite Hs.
Qed.

Lemma credit_step_detached (op : CreditOp) cm links r l :
  _link cm = Some r → links !! r = Some l → state l ≠ "attached"%string →
  (credit_step (cm, links) op).2 = links ∧
  _link (credit_step (cm, links) op).1 = Some r ∧
  _threshold (credit_step (cm, links) op).1 = _threshold cm.
Proof.
  intros Hr Hl Hs. destruct op as [t|t|]; simpl.
  - unfold scheduleMessageSettle. destruct (decide (t ∈ _pendingSettles cm)); [done|].
    by rewrite (refreshCredits_detached _ links r l).
  - unfold settleMessage. destruct (decide (t ∈ _pendingSettles cm)); [done|].
    by rewrite (refreshCredits_detached _ links r l).
  - by rewrite (refreshCredits_detached _ links r l).
Qed.

Lemma credit_run_detached (ops : list CreditOp) cm links r l :
  _link cm = Some r → links !! r = Some l → state l ≠ "attached"%string →
  (credit_run ops (cm, links)).2 = links ∧
  _link (credit_run ops (cm, links)).1 = Some r ∧
  _threshold (credit_run ops (cm, links)).1 = _threshold cm.
Proof.
  revert cm. induction ops as [|op ops IH]; intros cm Hr Hl Hs; [done|].
  simpl. destruct (credit_step_detached op cm links r l Hr Hl Hs) as (H2 & Hr' & Ht).
  destruct (credit_step (cm, links) op) as [cm1 links1]. simpl in *. subst links1.
  destruct (IH cm1 Hr' Hl Hs) as (-> & -> & ->). done.
Qed.

(** X14.  While the receiver link is not attached the credit manager never
    touches it, whatever is scheduled and settled: no [addCredits] is
    called and the credits wait in the counter, one for each message.  The
    first [refreshCredits] after the link is attached again, with its
    credit below the threshold, hands all of them over in one [addCredits]
    call and resets the counter. *)
Theorem X14_credits_wait_for_the_link (ops : list CreditOp) (cm : CreditManager.t)
    (links : LinkStore) (r : LinkRef) (l : ReceiverLink) :
  _link cm = Some r → links !! r = Some l → state l ≠ "attached"%string →
  (credit_run ops (cm, links)).2 = links ∧
  (_pendingSettles cm = ∅ → settle_protocol ∅ ops →
   _additionalCredits (credit_run ops (cm, links)).1
     = _additionalCredits cm + Z.of_nat (size (tokens ops))) ∧
  (∀ l', state l' = "attached"%string → linkCredit l' < _threshold cm →
     0 < _additionalCredits (credit_run ops (cm, links)).1 →
     refreshCredits (credit_run ops (cm, links)).1 (<[r := l']> links)
     = (set_additionalCredits 0 (credit_run ops (cm, links)).1,
        <[r := addCredits (_additionalCredits (credit_run ops (cm, links)).1) l']>
          (<[r := l']> links),
        Ok tt)).
Proof.
  intros Hr Hl Hs.
  destruct (credit_run_detached ops cm links r l Hr Hl Hs) as (H2 & Hr' & Ht).
  split; [done|]. split.
  - intros Hp Hproto.
    destruct (credit_run_counts ops cm links ∅ ∅) as [Hc _];
      [by rewrite Hp, difference_diag_L|done|done|].
    rewrite difference_empty_L in Hc.
    unfold credits_counted, bound_link in Hc. rewrite H2, Hr', Hr in Hc.
    simpl in Hc. rewrite Hl in Hc. lia.
  - intros l' Hs' Hlt Hpos. unfold refreshCredits.
    rewrite Hr', lookup_insert_eq, Ht. unfold is_attached. rewrite Hs'. simpl.
    replace (0 <? _additionalCredits (credit_run ops (cm, links)).1) with true
      by (symmetry; by apply Z.ltb_lt).
    replace (linkCredit l' <? _threshold cm) with true by (symmetry; by apply Z.ltb_lt).
    done.
Qed.

Lemma X14_credits_wait_for_the_link_witness :
  (credit_run [Schedule "a"; Settle "b"; Refresh; Settle "a"]
     (Examples.creditManager,
      {[ 0%nat := {| link_name := "receiver"; state := "detached"; linkCredit := 0;
                     addCredits_calls := []; disposition_calls := [] |} ]})).2
  = {[ 0%nat := {| link_name := "receiver"; state := "detached"; linkCredit := 0;
                   addCredits_calls := []; disposition_calls := [] |} ]}.
Proof.
  by apply (X14_credits_wait_for_the_link [Schedule "a"; Settle "b"; Refresh; Settle "a"]
              Examples.creditManager _ 0%nat
              {| link_name := "receiver"; state := "detached"; linkCredit := 0;
                 addCredits_calls := []; disposition_calls := [] |}).
Defined.

End CreditConservation.

(** ** messageListener.ts: disposing a listener *)

Section ListenerProperties.
Import MessageListenerImpl.

(** The callbacks that ran are among those given, in order; the one given
    last is the only one that can still run. *)
Lemma cleanup_calls_step (ops : list Op) :
  ∃ given : list nat,
    initialized ops = given ++ from_option (fun cb => [cb]) [] (_cleanupCallback (run ops)) ∧
    cleanup_calls (run ops) `sublist_of`
      (if _isListening (run ops) then given else initialized ops).
Proof.
  induction ops as [|op ops IH] using rev_ind.
  { exists []. by split. }
  destruct IH as (given & Hg & Hs). unfold run, initialized in *.
  rewrite fold_left_app, omap_app. simpl.
  set (s := fold_left step ops new) in *.
  destruct op as [cb cm|ev l| |]; simpl.
  - exists (given ++ from_option (fun cb => [cb]) [] (_cleanupCallback s)).
    rewrite <- Hg. split; [done|].
    destruct (_isListening s); [|done].
    etrans; [exact Hs|]. rewrite Hg. by apply sublist_inserts_r.
  - exists given. rewrite app_nil_r. by split.
  - exists given. rewrite app_nil_r. unfold dispose, disposeInternals, isListening. simpl.
    destruct (_isListening s) eqn:E; simpl; [|by rewrite E].
    split; [done|]. rewrite Hg. by apply sublist_app.
  - exists given. rewrite app_nil_r. unfold disposeInternals, isListening.
    destruct (_isListening s) eqn:E; simpl; [|by rewrite E].
    split; [done|]. rewrite Hg. by apply sublist_app.
Qed.

(** X15.  However often [dispose] and [disposeInternals] are called on a
    message listener, and whenever, a cleanup callback runs at most once
    for each [initialize] that registered it: the callbacks that ran are a
    sub-sequence of the callbacks given.  [dispose] leaves the listener not
    listening and without event listeners, and a second [dispose] changes
    nothing.  A listener that was never initialized reports no pending
    settlements. *)
Theorem X15_cleanup_runs_once (ops : list Op) :
  cleanup_calls (run ops) `sublist_of` initialized ops ∧
  isListening (dispose (run ops)) = false ∧
  listeners (dispose (run ops)) = [] ∧
  dispose (dispose (run ops)) = dispose (run ops) ∧
  (∀ creditManagers, pendingSettleCount new creditManagers = 0%nat).
Proof.
  split; [|split; [|split; [|split]]].
  - destruct (cleanup_calls_step ops) as (given & Hg & Hs).
    destruct (_isListening (run ops)); [|done].
    etrans; [exact Hs|]. rewrite Hg. by apply sublist_inserts_r.
  - unfold dispose, disposeInternals, isListening. simpl.
    by destruct (_isListening (run ops)) eqn:E.
  - unfold dispose, disposeInternals, isListening. simpl.
    by destruct (_isListening (run ops)).
  - unfold dispose, disposeInternals, isListening. simpl.
    by destruct (_isListening (run ops)) eqn:E; simpl; [|rewrite E].
  - done.
Qed.

End ListenerProperties.

(** ** receiver.ts: [receiveBatch] *)

Section BatchProperties.
Import ReceiveBatch.

Lemma deliveries_snoc (r : LinkRef) (evs : list Event) (ev : Event) :
  deliveries r (evs ++ [ev]) =
  deliveries r evs ++ match ev with Message d => [received r d] | _ => [] end.
Proof. unfold deliveries. rewrite omap_app. f_equal. by destruct ev. Qed.

Lemma batch_inv_run (r : LinkRef) (n : Z) (timeout : option Z) (evs : list Event) :
  batch_inv r n timeout (deliveries r evs) (run r n timeout evs).
Proof.
  induction evs as [|ev evs IH] using rev_ind.
  { split; try done. simpl. repeat split; try done. by right. }
  unfold run in *. rewrite fold_left_app, deliveries_snoc. simpl.
  set (s := fold_left step evs (start r n timeout)) in *.
  destruct IH as [Hr Hn Hc Ht Harm Hpre Hst].
  destruct ev as [d|info|]; simpl; rewrite ?app_nil_r.
  - destruct (listening s) eqn:El;
      [|split; [done|done|done|done|by rewrite Harm, El|by apply prefix_app_r|by rewrite El]].
    destruct Hst as (Ho & Hd & Hm & Hlen). simpl.
    rewrite Hr, Hn, length_app. simpl.
    assert (Hlen' : Z.of_nat (length (messages s) + 1) <= Z.max 1 n).
    { destruct Hlen as [Hlt|Hnil]; [lia|]. rewrite Hnil. simpl. lia. }
    destruct (n <=? Z.of_nat (length (messages s) + 1)) eqn:E.
    + apply Z.leb_le in E.
      split; simpl; [done|done|done|done|done|by rewrite Hm|].
      rewrite Ho, Hd, length_app. simpl. split; [done|]. split; [by left|done].
    + apply Z.leb_gt in E.
      split; simpl; [done|done|done|done|by rewrite Harm, El|by rewrite Hm|].
      rewrite El, length_app. simpl.
      split; [done|]. split; [done|]. split; [by rewrite Hm|by left].
  - destruct (listening s) eqn:El;
      [|split; [done|done|done|done|by rewrite Harm, El|done|by rewrite El]].
    destruct Hst as (Ho & Hd & Hm & Hlen).
    split; simpl; [done|done|done|done|done|done|].
    rewrite Ho, Hd. split; [done|]. split; [right; by exists info|].
    destruct Hlen as [Hlt|Hnil]; [lia|]. rewrite Hnil. simpl. lia.
  - rewrite Harm. destruct (listening s) eqn:El;
      [|split; [done|done|done|done|by rewrite Harm, El|done|by rewrite El]].
    destruct Hst as (Ho & Hd & Hm & Hlen).
    split; simpl; [done|done|done|done|done|done|].
    rewrite Ho, Hd. split; [done|]. split; [by left|].
    destruct Hlen as [Hlt|Hnil]; [lia|]. rewrite Hnil. simpl. lia.
Qed.

(** X16.  [receiveBatch(n, timeoutMs)] waits, without a timeout given, for
    [serviceBusServerTimeout], and grants the link [n] credits once.  While
    it waits it has kept every message delivered, and these are fewer than
    [n] (none at all for [n < 1]).  From waiting, the timer resolves it
    with the messages it has by then, possibly none; a detach of the link
    rejects it with what the event carries; a delivery resolves it when it
    makes the [n] messages full and leaves it waiting otherwise.  It
    settles exactly once, releases the link exactly when it settles, and
    nothing that happens afterwards changes the batch or the outcome.  The
    batch holds the first messages delivered, in order, and never more
    than [n] (for [n < 1]: one). *)
Theorem X16_receiveBatch_settles_once (r : LinkRef) (n : Z) (timeout : option Z)
    (evs : list Event) :
  timeoutMs (run r n timeout evs) = default constants.serviceBusServerTimeout timeout ∧
  addCredits_calls (run r n timeout evs) = [n] ∧
  messages (run r n timeout evs) `prefix_of` deliveries r evs ∧
  Z.of_nat (length (messages (run r n timeout evs))) <= Z.max 1 n ∧
  (outcome (run r n timeout evs) = Waiting →
     disposeReceiver_calls (run r n timeout evs) = 0%nat ∧
     messages (run r n timeout evs) = deliveries r evs ∧
     (Z.of_nat (length (deliveries r evs)) < n ∨ deliveries r evs = []) ∧
     outcome (run r n timeout (evs ++ [TimeoutDue])) = Returned (deliveries r evs) ∧
     (∀ info, outcome (run r n timeout (evs ++ [Detached info])) = Failed info) ∧
     (∀ d, outcome (run r n timeout (evs ++ [Message d]))
           = if n <=? Z.of_nat (length (deliveries r evs)) + 1
             then Returned (deliveries r evs ++ [received r d])
             else Waiting)) ∧
  (outcome (run r n timeout evs) ≠ Waiting →
     disposeReceiver_calls (run r n timeout evs) = 1%nat ∧
     listening (run r n timeout evs) = false ∧
     receiveTimeout_armed (run r n timeout evs) = false ∧
     (∀ batch, outcome (run r n timeout evs) = Returned batch →
               batch = messages (run r n timeout evs)) ∧
     ∀ evs', run r n timeout (evs ++ evs') = run r n timeout evs).
Proof.
  destruct (batch_inv_run r n timeout evs) as [Hr Hn Hc Ht Harm Hpre Hst].
  split; [done|]. split; [done|]. split; [done|].
  destruct (listening (run r n timeout evs)) eqn:El.
  - destruct Hst as (Ho & Hd & Hm & Hlen).
    split; [destruct Hlen as [Hlt|Hnil]; [lia|rewrite Hnil; simpl; lia]|].
    split; [|by rewrite Ho].
    intros _. split; [done|]. split; [done|]. split; [by rewrite <- Hm|].
    unfold run in *.
    set (s := fold_left step evs (start r n timeout)) in *.
    split; [|split].
    + rewrite fold_left_app. simpl. fold s. rewrite Harm. simpl. by rewrite Ho, Hm.
    + intros info. rewrite fold_left_app. simpl. fold s. rewrite El. simpl. by rewrite Ho.
    + intros d. rewrite fold_left_app. simpl. fold s. rewrite El. simpl.
      rewrite Hn, Hr, Hm, length_app. simpl.
      replace (Z.of_nat (length (deliveries r evs) + 1))
        with (Z.of_nat (length (deliveries r evs)) + 1) by lia.
      destruct (n <=? Z.of_nat (length (deliveries r evs)) + 1); simpl; by rewrite Ho.
  - destruct Hst as (Hd & Ho & Hlen).
    split; [done|]. split.
    + intros Hw. destruct Ho as [Ho|[info Ho]]; congruence.
    + intros _. split; [done|]. split; [done|]. split; [by rewrite Harm|]. split.
      * intros batch Hb. destruct Ho as [Ho|[info Ho]]; congruence.
      * intros evs'. unfold run. rewrite fold_left_app.
        fold (run r n timeout evs).
        assert (Hstep : ∀ ev, step (run r n timeout evs) ev = run r n timeout evs).
        { intros ev. destruct ev; unfold step; by rewrite ?Harm, ?El. }
        induction evs' as [|ev evs' IH]; [done|].
        simpl. by rewrite Hstep.
Qed.

(** X17.  A message that [receiveBatch] returns is final: it was created
    settled, with no credit manager and no request client.  Whatever the
    link does, [abandon], [complete] and [deadLetter] on it throw
    [CreditManagerMissing] and change nothing, sending no disposition; and
    [renewLock] does not go to the request client. *)
Theorem X17_batch_messages_are_final (r : LinkRef) (n : Z) (timeout : option Z)
    (evs : list Event) (m : InternalBrokeredMessage.t) :
  m ∈ messages (run r n timeout evs) →
  InternalBrokeredMessage.isSettled m = true ∧
  InternalBrokeredMessage._creditManager m = None ∧
  InternalBrokeredMessage._receiver m = r ∧
  Receiver.renewLock_calls_client m = false ∧
  ∀ (w : Settlement.World) (ref : nat) (settle : Disposition) (delayMs : option Z)
    (transport_throws : option ServiceBusError),
    Settlement.messages w !! ref = Some m →
    ∃ e, Settlement._scheduleSettle ref settle delayMs transport_throws w = (w, Throw e) ∧
         name e = ErrorNames.Link.CreditManagerMissing.
Proof.
  intros Hm.
  assert (Hd : ∃ d, m = received r d).
  { destruct (batch_inv_run r n timeout evs) as [_ _ _ _ _ [k Hk] _].
    assert (Hin : m ∈ deliveries r evs) by (rewrite Hk; apply elem_of_app; by left).
    unfold deliveries in Hin. apply list_elem_of_omap in Hin as (ev & _ & Hev).
    destruct ev as [d| |]; [|done|done]. exists d. by injection Hev. }
  destruct Hd as [d ->].
  split; [done|]. split; [done|]. split; [done|]. split; [done|].
  intros w ref settle delayMs transport_throws Hw.
  unfold Settlement._scheduleSettle. rewrite Hw. simpl.
  eexists. by split.
Qed.

Lemma X17_batch_messages_are_final_witness :
  ∃ e, Settlement.complete 0%nat None None
         (Settlement.set_message 0%nat
            (received 0%nat {| delivered := Examples.amqpMessage;
                               deliveryTag := Examples.deliveryTag;
                               fresh_properties := 1%positive; fresh_default := 2%positive;
                               fresh_uuid := "u1" |})
            Examples.world)
       = (Settlement.set_message 0%nat
            (received 0%nat {| delivered := Examples.amqpMessage;
                               deliveryTag := Examples.deliveryTag;
                               fresh_properties := 1%positive; fresh_default := 2%positive;
                               fresh_uuid := "u1" |})
            Examples.world, Throw e) ∧
       name e = ErrorNames.Link.CreditManagerMissing.
Proof.
  destruct (X17_batch_messages_are_final 0%nat 1 None
              [Message {| delivered := Examples.amqpMessage;
                          deliveryTag := Examples.deliveryTag;
                          fresh_properties := 1%positive; fresh_default := 2%positive;
                          fresh_uuid := "u1" |}]
              (received 0%nat {| delivered := Examples.amqpMessage;
                                 deliveryTag := Examples.deliveryTag;
                                 fresh_properties := 1%positive; fresh_default := 2%positive;
                                 fresh_uuid := "u1" |})) as (_ & _ & _ & _ & H).
  - simpl. by left.
  - apply H. simpl. apply lookup_insert_eq.
Defined.

End BatchProperties.

(** ** receiver.ts: what the receiver does with a message after its handler *)

Section HandlerProperties.
Import InternalBrokeredMessage Settlement MessageHandling.

Lemma settle_refused (r : MessageRef) (m : InternalBrokeredMessage.t) (c : nat)
    (settle : Disposition) (delayMs : option Z) (transport_throws : option ServiceBusError)
    (w : World) :
  messages w !! r = Some m → _creditManager m = Some c →
  processingState m ≠ ProcessingState.Active →
  ∃ e, _scheduleSettle r settle delayMs transport_throws w = (w, Throw e) ∧
       name e = ErrorNames.Message.SettleFailure ∧
       context e = [("messageId"%string, messageId m)].
Proof.
  intros Hm Hc Hs. unfold _scheduleSettle. rewrite Hm, Hc.
  replace (negb (ProcessingState.eqb (processingState m) ProcessingState.Active)) with true
    by (by destruct (processingState m)).
  eexists. by split.
Qed.

Lemma settle_now (r : MessageRef) (m : InternalBrokeredMessage.t) (c : nat)
    (settle : Disposition) (transport_throws : option ServiceBusError) (w : World) :
  messages w !! r = Some m → _creditManager m = Some c →
  processingState m = ProcessingState.Active →
  _scheduleSettle r settle None transport_throws w = settleWrap r settle transport_throws w.
Proof.
  intros Hm Hc Hs. unfold _scheduleSettle. rewrite Hm, Hc, Hs. done.
Qed.

(** X18.  After the handler of a message with a credit manager:
    a message whose handler returned a promise that was rejected is
    abandoned at once when it is still [Active]; a message whose handler
    returned is completed at once when it is still [Active] and
    [autoComplete] is on; with [autoComplete] off, or on a message the
    handler has settled, a handler that returned leaves everything as it
    is.  In the remaining cases of these two (the promise was rejected, or
    the handler returned under [autoComplete], and the message is
    [Settling], [SettleFailed], or was received already settled and the
    promise was rejected) no disposition is sent and the subscription gets
    one [receiverError] named [SettleFailure].  A handler that throws
    before it returns is not abandoned: the world stays as it is, the
    message with it, and the subscription gets what [wrapError] makes of
    the thrown value, [Internal.Unknown] for an error of another name. *)
Theorem X18_after_the_handler (r : MessageRef) (m : InternalBrokeredMessage.t) (c : nat)
    (autoComplete : bool) (transport_throws : option ServiceBusError) (w : World) :
  messages w !! r = Some m → _creditManager m = Some c →
  (processingState m = ProcessingState.Active →
     after_handler r PromiseRejected autoComplete transport_throws w
       = ((settleWrap r modify transport_throws w).1,
          caught (settleWrap r modify transport_throws w).2) ∧
     after_handler r Returned true transport_throws w
       = ((settleWrap r accept transport_throws w).1,
          caught (settleWrap r accept transport_throws w).2)) ∧
  after_handler r Returned false transport_throws w = (w, []) ∧
  (processingState m = ProcessingState.Settled →
     after_handler r Returned autoComplete transport_throws w = (w, [])) ∧
  (processingState m ≠ ProcessingState.Active →
     (∃ e, after_handler r PromiseRejected autoComplete transport_throws w = (w, [e]) ∧
           name e = ErrorNames.Message.SettleFailure) ∧
     (processingState m ≠ ProcessingState.Settled →
      ∃ e, after_handler r Returned true transport_throws w = (w, [e]) ∧
           name e = ErrorNames.Message.SettleFailure)) ∧
  (∀ e, after_handler r (Threw e) autoComplete transport_throws w = (w, [wrapError e])) ∧
  (∀ e0, startsWith "ServiceBus:" (name e0) = false →
     ∃ e, after_handler r (Threw (ThrownError e0)) autoComplete transport_throws w = (w, [e]) ∧
          name e = ErrorNames.Internal.Unknown).
Proof.
  intros Hm Hc. split; [|split; [|split; [|split; [|split]]]].
  - intros Hs. split.
    + unfold after_handler, abandon. simpl.
      rewrite (settle_now r m c) by done.
      destruct (settleWrap r modify transport_throws w) as [w1 [[]|e]]; simpl; [|done].
      destruct (messages w1 !! r) as [m1|]; [|done].
      by rewrite andb_false_r.
    + unfold after_handler, complete. simpl. rewrite Hm.
      unfold isSettled. unfold processingState in Hs. rewrite Hs. simpl.
      rewrite (settle_now r m c) by done.
      by destruct (settleWrap r accept transport_throws w) as [w1 [[]|e]].
  - unfold after_handler. simpl. rewrite Hm. by rewrite andb_false_r.
  - intros Hs. unfold after_handler. simpl. rewrite Hm.
    unfold isSettled. unfold processingState in Hs. by rewrite Hs.
  - intros Hs. split.
    + destruct (settle_refused r m c modify None transport_throws w Hm Hc Hs)
        as (e & He & Hn & _).
      exists e. unfold after_handler, abandon. simpl. rewrite He.
      split; [|done]. f_equal. f_equal. apply wrapError_known. by rewrite Hn.
    + intros Hs'.
      destruct (settle_refused r m c accept None transport_throws w Hm Hc Hs)
        as (e & He & Hn & _).
      exists e. unfold after_handler, complete. simpl. rewrite Hm.
      replace (isSettled m) with false
        by (unfold isSettled, processingState in *; by destruct (_processingState m)).
      simpl. rewrite He.
      split; [|done]. f_equal. f_equal. apply wrapError_known. by rewrite Hn.
  - done.
  - intros e0 He0. eexists. split; [reflexivity|]. simpl. by rewrite He0.
Qed.

Lemma X18_after_the_handler_witness :
  (∃ l, links (after_handler 0%nat PromiseRejected true None Examples.world).1 !! 0%nat = Some l ∧
        disposition_calls l = [(modify, "m1"%string)]) ∧
  (after_handler 0%nat PromiseRejected true None Examples.world).2 = [] ∧
  after_handler 0%nat Returned false None Examples.world = (Examples.world, []) ∧
  after_handler 0%nat (Threw (ThrownError (buildError "Error" "boom" []))) true None
    Examples.world
  = (Examples.world, [buildError ErrorNames.Internal.Unknown "Encountered unknown error: boom" []]).
Proof.
  destruct (X18_after_the_handler 0%nat Examples.message 0%nat true None Examples.world)
    as (H1 & H2 & _ & _ & H5 & _); [reflexivity..|].
  destruct (H1 eq_refl) as [-> _].
  split; [|split; [by vm_compute|split; [exact H2|by rewrite H5]]].
  eexists. split; by vm_compute.
Defined.

End HandlerProperties.


(** ** A message is dispositioned at most once *)

Section SettleOnceProperties.
Import InternalBrokeredMessage Settlement.

Lemma sent_for_ext k id w w' :
  disposition_calls <$> links w' !! k = disposition_calls <$> links w !! k →
  sent_for k id w' = sent_for k id w.
Proof.
  unfold sent_for. intros H.
  destruct (links w' !! k), (links w !! k); simpl in H; congruence.
Qed.

Lemma refreshCredits_sent cm (ls : LinkStore) k :
  disposition_calls <$> (CreditManager.refreshCredits cm ls).1.2 !! k
  = disposition_calls <$> ls !! k.
Proof.
  unfold CreditManager.refreshCredits.
  destruct (CreditManager._link cm) as [r0|]; simpl; [|done].
  destruct (ls !! r0) as [l0|] eqn:E0; simpl; [|done].
  destruct (negb (is_attached l0)); simpl; [done|].
  destruct (_ && _); simpl; [|done].
  destruct (decide (r0 = k)) as [->|Hne].
  - by rewrite lookup_insert_eq, E0.
  - by rewrite lookup_insert_ne.
Qed.

Lemma call_settleMessage_sent c tok w :
  let w' := (call_settleMessage c tok w).1 in
  messages w' = messages w ∧ timers w' = timers w ∧
  ∀ k id, sent_for k id w' = sent_for k id w.
Proof.
  unfold call_settleMessage. simpl.
  destruct (creditManagers w !! c) as [cm|] eqn:E; simpl; [|done].
  unfold CreditManager.settleMessage.
  destruct (decide _); simpl; [done|].
  pose proof (refreshCredits_sent
                (CreditManager.set_additionalCredits (CreditManager._additionalCredits cm + 1) cm)
                (links w)) as Hd.
  destruct (CreditManager.refreshCredits _ (links w)) as [[cm' ls'] res].
  simpl in *. repeat split. intros k id. by apply sent_for_ext.
Qed.

Lemma call_scheduleMessageSettle_sent c tok w :
  let w' := (call_scheduleMessageSettle c tok w).1 in
  messages w' = messages w ∧ timers w' = timers w ∧
  ∀ k id, sent_for k id w' = sent_for k id w.
Proof.
  unfold call_scheduleMessageSettle.
  destruct (creditManagers w !! c) as [cm|] eqn:E; simpl; [|done].
  unfold CreditManager.scheduleMessageSettle.
  destruct (decide _); simpl; [done|].
  set (cm2 := CreditManager.set_pendingSettles _ _).
  pose proof (refreshCredits_sent cm2 (links w)) as Hd.
  destruct (CreditManager.refreshCredits cm2 (links w)) as [[cm' ls'] res].
  simpl in *. repeat split. intros k id. by apply sent_for_ext.
Qed.

Lemma same_message_refl m : same_message m m.
Proof. by repeat split. Qed.

Lemma same_message_state s m : same_message m (set_processingState s m).
Proof. by repeat split. Qed.

(** One run of [settleWrap] on a message: it sends at most one disposition,
    under the name and on the link of the message, and one it has sent
    leaves the message settled or failed. *)
Lemma settleWrap_effect r settle transport_throws w m :
  messages w !! r = Some m →
  let w' := (settleWrap r settle transport_throws w).1 in
  timers w' = timers w ∧
  (∀ r', r' ≠ r → messages w' !! r' = messages w !! r') ∧
  ∃ m' (sent : bool),
    messages w' !! r = Some m' ∧ same_message m m' ∧
    (if sent
     then processingState m' = ProcessingState.Settled ∨
          processingState m' = ProcessingState.SettleFailed
     else m' = m ∨ processingState m' = ProcessingState.SettleFailed) ∧
    ∀ k id, sent_for k id w'
            = (sent_for k id w +
               if sent && bool_decide (k = _receiver m ∧ id = wire_id m) then 1 else 0)%nat.
Proof.
  intros Hm. unfold settleWrap. rewrite Hm. unfold settle_try.
  destruct (links w !! _receiver m) as [l|] eqn:Hl.
  - destruct (negb (is_attached l)) eqn:Ha; simpl.
    + set (w1 := set_message r _ w).
      set (w2 := emit r _ _ w1).
      assert (timers w2 = timers w ∧ messages w2 = messages w1 ∧ links w2 = links w)
        as (Ht & Hms & Hls).
      { subst w2. unfold emit. by destruct (messages w1 !! r). }
      assert (∀ k id, sent_for k id w2 = sent_for k id w) as Hs.
      { intros k id. apply sent_for_ext. by rewrite Hls. }
      destruct (_creditManager m) as [c|]; simpl.
      * destruct (call_settleMessage_sent c (lockToken m) w2) as (H1 & H2 & H3).
        rewrite H1, H2, Hms, Ht. split; [done|]. split.
        { intros r' Hr. subst w1. simpl. by rewrite lookup_insert_ne. }
        exists (set_processingState ProcessingState.SettleFailed m), false.
        split; [subst w1; simpl; apply lookup_insert_eq|].
        split; [apply same_message_state|]. split; [by right|].
        intros k id. rewrite H3, Hs. simpl. lia.
      * rewrite Hms, Ht. split; [done|]. split.
        { intros r' Hr. subst w1. simpl. by rewrite lookup_insert_ne. }
        exists (set_processingState ProcessingState.SettleFailed m), false.
        split; [subst w1; simpl; apply lookup_insert_eq|].
        split; [apply same_message_state|]. split; [by right|].
        intros k id. rewrite Hs. simpl. lia.
    + set (w1 := set_links _ w).
      assert (∀ k id, sent_for k id w1
                = (sent_for k id w +
                   if bool_decide (k = _receiver m ∧ id = wire_id m) then 1 else 0)%nat) as Hs.
      { intros k id. subst w1. unfold sent_for. simpl.
        destruct (decide (k = _receiver m)) as [->|Hk].
        - rewrite lookup_insert_eq, Hl. simpl.
          rewrite filter_app, length_app. f_equal.
          rewrite filter_cons, filter_nil. simpl.
          destruct (decide (js_to_string (messageId m) = id)) as [<-|Hid].
          + rewrite bool_decide_eq_true_2; done.
          + rewrite bool_decide_eq_false_2; [done|]. intros [_ ->]. by apply Hid.
        - rewrite lookup_insert_ne by done.
          rewrite bool_decide_eq_false_2 by (by intros [-> _]).
          destruct (links w !! k); lia. }
      destruct transport_throws as [err|]; simpl.
      * set (w2 := set_message r _ w1).
        set (w3 := emit r _ _ w2).
        assert (timers w3 = timers w ∧ messages w3 = messages w2 ∧ links w3 = links w1)
          as (Ht & Hms & Hls).
        { subst w3. unfold emit. by destruct (messages w2 !! r). }
        assert (∀ k id, sent_for k id w3 = sent_for k id w1) as Hs3.
        { intros k id. apply sent_for_ext. by rewrite Hls. }
        assert (∀ r', r' ≠ r → messages w2 !! r' = messages w !! r') as Hfr.
        { intros r' Hr. subst w2 w1. simpl. by rewrite lookup_insert_ne. }
        assert (messages w2 !! r = Some (set_processingState ProcessingState.SettleFailed m))
          as Hr2 by (subst w2; simpl; apply lookup_insert_eq).
        destruct (_creditManager m) as [c|]; simpl.
        -- destruct (call_settleMessage_sent c (lockToken m) w3) as (H1 & H2 & H3).
           rewrite H1, H2, Hms, Ht. split; [done|]. split; [done|].
           exists (set_processingState ProcessingState.SettleFailed m), true.
           split; [done|]. split; [apply same_message_state|]. split; [by right|].
           intros k id. by rewrite H3, Hs3, Hs.
        -- rewrite Hms, Ht. split; [done|]. split; [done|].
           exists (set_processingState ProcessingState.SettleFailed m), true.
           split; [done|]. split; [apply same_message_state|]. split; [by right|].
           intros k id. by rewrite Hs3, Hs.
      * set (w2 := set_message r _ w1).
        assert (∀ k id, sent_for k id w2 = sent_for k id w1) as Hs2.
        { intros k id. by apply sent_for_ext. }
        assert (∀ r', r' ≠ r → messages w2 !! r' = messages w !! r') as Hfr.
        { intros r' Hr. subst w2 w1. simpl. by rewrite lookup_insert_ne. }
        assert (messages w2 !! r
                = Some (removeAllListeners (set_processingState ProcessingState.Settled m)))
          as Hr2 by (subst w2; simpl; apply lookup_insert_eq).
        destruct (_creditManager m) as [c|]; simpl.
        -- destruct (call_settleMessage_sent c (lockToken m) w2) as (H1 & H2 & H3).
           rewrite H1, H2. split; [done|]. split; [done|].
           eexists _, true.
           split; [done|]. split; [by repeat split|]. split; [by left|].
           intros k id. by rewrite H3, Hs2, Hs.
        -- split; [done|]. split; [done|].
           eexists _, true.
           split; [done|]. split; [by repeat split|]. split; [by left|].
           intros k id. by rewrite Hs2, Hs.
  - destruct (_creditManager m) as [c|]; simpl.
    + destruct (call_settleMessage_sent c (lockToken m) w) as (H1 & H2 & H3).
      rewrite H1, H2. split; [done|]. split; [done|].
      exists m, false. split; [done|]. split; [apply same_message_refl|].
      split; [by left|]. intros k id. rewrite H3. simpl. lia.
    + split; [done|]. split; [done|].
      exists m, false. split; [done|]. split; [apply same_message_refl|].
      split; [by left|]. intros k id. simpl. lia.
Qed.

Lemma same_message_wire_id m m' : same_message m m' → wire_id m' = wire_id m.
Proof. intros (Hf & _). unfold wire_id, messageId. by rewrite Hf. Qed.

Lemma same_message_trans m1 m2 m3 :
  same_message m1 m2 → same_message m2 m3 → same_message m1 m3.
Proof. intros (A1 & A2 & A3) (B1 & B2 & B3). repeat split; congruence. Qed.

(** Whatever leaves the message alone, sends nothing under its name and
    arms no timer for it keeps the invariant. *)
Lemma settle_inv_frame r m0 c0 w w' :
  settle_inv r m0 c0 w →
  messages w' !! r = messages w !! r →
  (∀ r' m', messages w' !! r' = Some m' →
     ∃ mo, messages w !! r' = Some mo ∧ same_message mo m') →
  sent_for (_receiver m0) (wire_id m0) w' = sent_for (_receiver m0) (wire_id m0) w →
  timers_of r w' `sublist_of` timers_of r w →
  settle_inv r m0 c0 w'.
Proof.
  intros (Hu & m & Hm & Hsame & H1 & H2 & H3 & H4) Hr Hms Hs Ht. split.
  - intros r' m' Hne Hm' Hk.
    destruct (Hms r' m' Hm') as (mo & Hmo & Hso).
    rewrite (same_message_wire_id _ _ Hso).
    apply (Hu r' mo Hne Hmo). destruct Hso as (_ & <- & _). done.
  - exists m. rewrite Hr, Hs. do 4 (split; [done|]). split.
    + apply sublist_length in Ht. lia.
    + intros Hn. specialize (H4 Hn). rewrite H4 in Ht. by apply sublist_nil_r in Ht.
Qed.

Lemma timers_of_delete r i t w :
  timers w !! i = Some t → timer_message t = r →
  S (length (timers_of r (set_timers (delete i (timers w)) w))) = length (timers_of r w).
Proof.
  unfold timers_of. simpl. generalize (timers w). intros ts. revert i.
  induction ts as [|x ts IH]; intros i Hi Hr; [done|].
  destruct i as [|i]; simpl in *.
  - injection Hi as ->. rewrite filter_cons. by rewrite decide_True.
  - rewrite !filter_cons. destruct (decide _); simpl; rewrite <- (IH i Hi Hr); done.
Qed.

Lemma timers_of_delete_sublist r i w :
  timers_of r (set_timers (delete i (timers w)) w) `sublist_of` timers_of r w.
Proof.
  unfold timers_of. simpl.
  induction (timers w) as [|x ts IH] in i |- *; [done|].
  destruct i as [|i]; simpl.
  - rewrite filter_cons. destruct (decide _); [by constructor|done].
  - rewrite !filter_cons. destruct (decide _); [constructor|]; apply IH.
Qed.

(** A run of [settleWrap] on the message itself, started with no timer of
    the message armed and nothing sent yet. *)
Lemma settle_inv_settleWrap r m0 c0 settle transport_throws w m :
  id_unique r m0 w →
  messages w !! r = Some m → same_message m0 m →
  processingState m = ProcessingState.Active ∨
  processingState m = ProcessingState.Settling →
  sent_for (_receiver m0) (wire_id m0) w = c0 →
  timers_of r w = [] →
  settle_inv r m0 c0 (settleWrap r settle transport_throws w).1.
Proof.
  intros Hu Hm Hsame Hst Hs Ht.
  destruct (settleWrap_effect r settle transport_throws w m Hm)
    as (E1 & E2 & m' & sent & E3 & E4 & E5 & E6).
  split.
  - intros r' m1 Hne Hm1 Hk. rewrite (E2 r' Hne) in Hm1. by apply (Hu r' m1).
  - exists m'. split; [done|]. split; [by apply (same_message_trans _ m)|].
    rewrite E6, Hs. unfold timers_of. rewrite E1. fold (timers_of r w). rewrite Ht.
    destruct sent; simpl.
    + split; [destruct (bool_decide _); lia|]. split; [|split; [lia|done]].
      intros [Hx|Hx]; destruct E5 as [E5|E5]; rewrite E5 in Hx; discriminate.
    + rewrite Nat.add_0_r. split; [lia|]. split; [done|]. split; [lia|done].
Qed.

(** The other messages go by other names: their settlement sends nothing
    under the name of [r]. *)
Lemma settle_inv_other r m0 c0 r' settle transport_throws w m1 :
  settle_inv r m0 c0 w → r' ≠ r →
  messages w !! r' = Some m1 →
  ∀ w0, links w0 = links w → messages w0 = messages w →
        timers_of r w0 `sublist_of` timers_of r w →
        creditManagers w0 = creditManagers w →
  settle_inv r m0 c0 (settleWrap r' settle transport_throws w0).1.
Proof.
  intros Hinv Hne Hm1 w0 Hl0 Hm0 Ht0 _.
  assert (messages w0 !! r' = Some m1) as Hm1' by (by rewrite Hm0).
  destruct (settleWrap_effect r' settle transport_throws w0 m1 Hm1')
    as (E1 & E2 & m' & sent & E3 & E4 & E5 & E6).
  apply (settle_inv_frame r m0 c0 w); [done|..].
  - rewrite E2 by done. by rewrite Hm0.
  - intros r'' m'' Hm''. destruct (decide (r'' = r')) as [->|Hne'].
    + exists m1. split; [done|]. congruence.
    + rewrite E2 in Hm'' by done. exists m''. rewrite <- Hm0.
      split; [done|apply same_message_refl].
  - rewrite E6. rewrite (sent_for_ext _ _ w w0) by (by rewrite Hl0).
    destruct sent; simpl; [|lia].
    rewrite bool_decide_eq_false_2; [lia|].
    intros [Hk Hid]. destruct Hinv as (Hu & _).
    by apply (Hu r' m1 Hne Hm1).
  - unfold timers_of. rewrite E1. exact Ht0.
Qed.

Lemma settle_inv_step r m0 c0 w op :
  settle_inv r m0 c0 w → settle_inv r m0 c0 (settle_step w op).
Proof.
  intros Hinv. destruct op as [r' settle delayMs th|i th]; simpl.
  - unfold _scheduleSettle.
    destruct (messages w !! r') as [m1|] eqn:Hm1; [|done].
    destruct (_creditManager m1) as [c|] eqn:Hc; [|done].
    destruct (negb _) eqn:Hact; [done|].
    apply negb_false_iff in Hact.
    assert (processingState m1 = ProcessingState.Active) as Hst1.
    { by destruct (processingState m1). }
    destruct (positive_delay delayMs).
    + set (w1 := set_message r' _ w).
      destruct (call_scheduleMessageSettle_sent c (lockToken m1) w1) as (H1 & H2 & H3).
      assert (∀ r'' m'', messages w1 !! r'' = Some m'' →
                ∃ mo, messages w !! r'' = Some mo ∧ same_message mo m'') as Hold.
      { intros r'' m'' Hm''. subst w1. simpl in Hm''.
        destruct (decide (r'' = r')) as [->|Hne'].
        - rewrite lookup_insert_eq in Hm''. injection Hm'' as <-.
          exists m1. split; [done|apply same_message_state].
        - rewrite lookup_insert_ne in Hm'' by done.
          exists m''. split; [done|apply same_message_refl]. }
      assert (∀ k id, sent_for k id w1 = sent_for k id w) as Hs1 by done.
      destruct (decide (r' = r)) as [->|Hne].
      * destruct Hinv as (Hu & m & Hm & Hsame & I1 & I2 & I3 & I4).
        assert (m1 = m) as -> by congruence.
        assert (timers_of r w = []) as Ht by (apply I4; by rewrite Hst1).
        assert (∀ w' ts, messages w' = messages w1 →
                  (∀ k id, sent_for k id w' = sent_for k id w) →
                  timers_of r w' = ts → (length ts ≤ 1)%nat →
                  settle_inv r m0 c0 w') as Hpost.
        { intros w' ts Em Es Et Hlen. split.
          - intros r'' m'' Hne Hm'' Hk. rewrite Em in Hm''.
            subst w1. simpl in Hm''. rewrite lookup_insert_ne in Hm'' by done.
            by apply (Hu r'' m'').
          - exists (set_processingState ProcessingState.Settling m).
            split; [rewrite Em; subst w1; simpl; apply lookup_insert_eq|].
            split; [apply (same_message_trans _ m); [done|apply same_message_state]|].
            rewrite Es, Et. rewrite (I2 (or_introl Hst1)).
            split; [lia|]. split; [done|]. split; [done|]. by intros Hn. }
        destruct (call_scheduleMessageSettle c (lockToken m) w1) as [w2 [u|e]];
          simpl in *.
        -- apply (Hpost _ [{| timer_message := r; timer_settle := settle;
                              timer_delayMs := default 0 delayMs |}]); simpl; try done.
           unfold timers_of. simpl. rewrite H2, filter_app.
           fold (timers_of r w). rewrite Ht. simpl.
           rewrite filter_cons, filter_nil. by rewrite decide_True.
        -- apply (Hpost _ []); simpl; try done; [|lia].
           unfold timers_of. rewrite H2. exact Ht.
      * assert (∀ w', messages w' = messages w1 →
                  (∀ k id, sent_for k id w' = sent_for k id w) →
                  timers_of r w' = timers_of r w →
                  settle_inv r m0 c0 w') as Hpost.
        { intros w' Em Es Et. apply (settle_inv_frame r m0 c0 w); [done|..].
          - rewrite Em. subst w1. simpl. by rewrite lookup_insert_ne.
          - intros r'' m''. rewrite Em. apply Hold.
          - apply Es.
          - by rewrite Et. }
        destruct (call_scheduleMessageSettle c (lockToken m1) w1) as [w2 [u|e]];
          simpl in *.
        -- apply Hpost; simpl; try done.
           unfold timers_of. simpl. rewrite H2, filter_app.
           rewrite filter_cons, filter_nil. rewrite decide_False by done.
           by rewrite app_nil_r.
        -- apply Hpost; try done. unfold timers_of. by rewrite H2.
    + destruct (decide (r' = r)) as [->|Hne].
      * destruct Hinv as (Hu & m & Hm & Hsame & I1 & I2 & I3 & I4).
        assert (m1 = m) as -> by congruence.
        apply (settle_inv_settleWrap r m0 c0 settle th w m Hu Hm Hsame
                 (or_introl Hst1) (I2 (or_introl Hst1))).
        apply I4. by rewrite Hst1.
      * by apply (settle_inv_other r m0 c0 r' settle th w m1).
  - unfold fire_timer. destruct (timers w !! i) as [t|] eqn:Hi; [|done].
    set (w0 := set_timers _ w).
    destruct (messages w !! timer_message t) as [m1|] eqn:Hm1.
    + destruct (decide (timer_message t = r)) as [Hr|Hne].
      * destruct Hinv as (Hu & m & Hm & Hsame & I1 & I2 & I3 & I4).
        pose proof (timers_of_delete r i t w Hi Hr) as Hlen. fold w0 in Hlen.
        rewrite Hr.
        assert (processingState m = ProcessingState.Settling) as Hst.
        { destruct (processingState m); try done; by rewrite I4 in Hlen. }
        apply (settle_inv_settleWrap r m0 c0 _ th w0 m Hu Hm Hsame
                 (or_intror Hst) (I2 (or_intror Hst))).
        destruct (timers_of r w0); [done|]. simpl in Hlen. lia.
      * apply (settle_inv_other r m0 c0 _ _ th w m1); try done.
        apply timers_of_delete_sublist.
    + unfold settleWrap. simpl. rewrite Hm1. simpl.
      apply (settle_inv_frame r m0 c0 w); try done.
      * intros r' m' Hm'. exists m'. split; [done|apply same_message_refl].
      * apply timers_of_delete_sublist.
Qed.

Lemma settle_inv_run r m0 c0 ops w :
  settle_inv r m0 c0 w → settle_inv r m0 c0 (settle_run ops w).
Proof.
  revert w. induction ops as [|op ops IH]; intros w Hinv; [done|].
  simpl. apply IH. by apply settle_inv_step.
Qed.

(** X19.  A message is dispositioned at most once.  Take an active message
    with no settlement timer armed, the only one of its name on its link
    (the link logs a disposition under the message id).  Then whatever calls
    of [abandon], [complete] and [deadLetter], at once or delayed, on this
    and on other messages, and whatever settlement timers follow, in any
    order and whatever the transport throws: one disposition at most is
    sent for the message; none is sent while the message is still [Active]
    or [Settling]; and at most one settlement timer is armed for it, and
    only while it is [Settling]. *)
Theorem X19_settled_at_most_once (r : MessageRef) (m : InternalBrokeredMessage.t)
    (ops : list SettleOp) (w0 : World) :
  messages w0 !! r = Some m →
  processingState m = ProcessingState.Active →
  timers_of r w0 = [] →
  id_unique r m w0 →
  let w := settle_run ops w0 in
  let before := sent_for (_receiver m) (wire_id m) w0 in
  (sent_for (_receiver m) (wire_id m) w ≤ S before)%nat ∧
  ∃ m', messages w !! r = Some m' ∧ same_message m m' ∧
        (processingState m' = ProcessingState.Active ∨
         processingState m' = ProcessingState.Settling →
         sent_for (_receiver m) (wire_id m) w = before) ∧
        (length (timers_of r w) ≤ 1)%nat ∧
        (processingState m' ≠ ProcessingState.Settling → timers_of r w = []).
Proof.
  intros Hm Hst Ht Hu w before.
  assert (settle_inv r m before w0) as Hinv.
  { split; [done|]. exists m. split; [done|]. split; [apply same_message_refl|].
    rewrite Ht. subst before. split; [lia|]. split; [done|]. split; [simpl; lia|done]. }
  destruct (settle_inv_run r m before ops w0 Hinv) as (_ & m' & H1 & H2 & H3 & H4).
  split; [done|]. by exists m'.
Qed.

Lemma X19_settled_at_most_once_witness :
  (sent_for 0 "m1"
     (settle_run [CallSettle 0 accept (Some 100%Z) None;
                  CallSettle 0 modify None None;
                  TimerFires 0 None;
                  CallSettle 0 accept None None;
                  TimerFires 0 None] Examples.world) ≤ 1)%nat.
Proof.
  refine (proj1 (X19_settled_at_most_once 0%nat Examples.message _ Examples.world
                   eq_refl eq_refl eq_refl _)).
  intros r' m' Hne Hm'. unfold Examples.world in Hm'. simpl in Hm'.
  rewrite lookup_singleton_ne in Hm' by done. discriminate Hm'.
Defined.

End SettleOnceProperties.


(** ** The renewal of a message never forks *)

Section RenewalChainProperties.
Import Receiver.

(** X20.  The renewal of a message never forks.  Whatever deliveries,
    timers, answers to [renewLock] (good or bad), settlements and disposals
    of its listener a receiver sees, and whatever the [autoRenewTimeout]:
    for every message one renewal
    timer at most is armed, one callback at most waits for the answer to its
    [renewLock], and never both at once; and a timer or a waiting callback
    always belongs to a message that was delivered. *)
Theorem X20_one_renewal_at_a_time (config : OnMessageOptions) (evs : list Event) :
  one_renewal_at_a_time (run config evs) ∧ renewals_delivered (run config evs).
Proof.
  destruct (chain_run config evs) as (_ & H1 & H2). by split.
Qed.


End RenewalChainProperties.
